(** * perfect-freehand: the stroke outline of src/index.ts

    A shallow embedding of [getStrokeRadius], [getStrokePoints],
    [getStrokeOutlinePoints] and [getStroke], and of what the example
    application (state.ts) builds on them: [getSvgPathFromStroke],
    [getFlatSvgPathFromStroke], [easings], [getStrokePath] and the actions
    [beginMark], [addPointToMark], [completeMark], [clearMarks], [undoMark]
    and [redoMark].  There the conversion of a number to a string and the
    union of the polygon-clipping package are parameters, the union one
    that returns polygons or throws, and the name of an easing is one of
    the four keys of [easings].

    Numbers.  A JavaScript [number] is idealised as a real number: no
    rounding, no NaN, no infinities.  [Math.min], [Math.max], [Math.abs],
    [Math.cos], [Math.sin], [Math.PI] are [Rmin], [Rmax], [Rabs], [cos],
    [sin], [PI]; [Math.hypot] and [Math.atan2] are defined below.  A
    comparison of the source is the corresponding decision on [R]
    ([Rle_dec], [Rlt_dec], [Rgt_dec]); the truthiness of a number is
    [truthy] (a number is falsy exactly when it is zero); the operator
    [%] is [remainder].  The loop of the tracer divides by [size]: what
    is stated of it takes [size] positive where the quotient matters.

    Arrays.  An annotated point [[x, y, pressure, angle, distance, clen]] is
    the record [StrokePoint]; a point of the outline [[x, y]] is a [Vec].
    The helpers of utils.ts read only the indices 0 and 1 of their
    arguments, so they are stated on [Vec] and an annotated point is handed
    to them through [pos].  Array indices are integers ([Z]), and an index
    out of range reads [undefined] ([None]).

    Failure.  Reading a property of [undefined] throws a TypeError, and
    the union may throw an error of its own; the tracer and the
    application therefore run in the [outcome] monad.

    Loops.  The loop over the samples and the loops over [t] carry fuel;
    [forT_tenth], [forT_quarter] and [getStrokeOutlinePoints_returns] show
    that the fuel given is never used up.  The loop
    [for (t = 0; t <= 1; t += 0.1)] makes 11 turns over the reals, as it
    does in binary64 (where the last value of [t] is just below 1). *)

From Stdlib Require Import String.
From Stdlib Require Import Reals Lra Lia List ZArith Bool Sorted.
Import ListNotations.

Open Scope R_scope.

(** ** Outcomes of a call *)

Inductive outcome (A : Type) : Type :=
| Ok (a : A)          (* normal return *)
| TypeError           (* "Cannot read properties of undefined" *)
| OutOfFuel           (* a [for] loop of the model ran out of fuel *)
| UnionError.         (* the union of the polygon-clipping package threw *)

Arguments Ok {A} a.
Arguments TypeError {A}.
Arguments OutOfFuel {A}.
Arguments UnionError {A}.

Definition bind {A B : Type} (m : outcome A) (k : A -> outcome B) : outcome B :=
  match m with
  | Ok a => k a
  | TypeError => TypeError
  | OutOfFuel => OutOfFuel
  | UnionError => UnionError
  end.

Notation "x <- m ;; k" := (bind m (fun x => k))
  (at level 61, m at next level, right associativity).

(** [o] where the source reads a property of [o]: throws on [undefined]. *)
Definition defined {A : Type} (o : option A) : outcome A :=
  match o with
  | Some a => Ok a
  | None => TypeError
  end.

(** [v = d] in a destructuring pattern or parameter list: the default is
    taken exactly when the value is [undefined]. *)
Definition default {A : Type} (d : A) (o : option A) : A :=
  match o with
  | Some a => a
  | None => d
  end.

(** [l[i]] for an integer [i]. *)
Definition index {A : Type} (l : list A) (i : Z) : option A :=
  if (i <? 0)%Z then None else nth_error l (Z.to_nat i).

(** Truthiness of a number, and [v || d]. *)
Definition truthy (v : R) : bool := if Req_dec_T v 0 then false else true.

Definition orElse (v d : R) : R := if truthy v then v else d.

(** ** Points *)

Definition Vec : Type := (R * R)%type.

Record Sample : Type := mkSample {
  sampleX : R;
  sampleY : R;
  samplePressure : R
}.

Record StrokePoint : Type := mkPoint {
  ptX : R;
  ptY : R;
  ptPressure : R;
  ptAngle : R;
  ptDistance : R;
  ptLength : R
}.

Definition pos (p : StrokePoint) : Vec := (ptX p, ptY p).

(** A point as the caller gives it: an array [[x, y, pressure?]] or an
    object [{x, y, pressure?}]. *)
Inductive RawPoint : Type :=
| ArrayPoint (x y : R) (pressure : option R)
| ObjectPoint (x y : R) (pressure : option R).

Definition rawPos (p : RawPoint) : Vec :=
  match p with
  | ArrayPoint x y _ => (x, y)
  | ObjectPoint x y _ => (x, y)
  end.

(** ** Math builtins that [R] does not have *)

Definition hypot (a b : R) : R := sqrt (a * a + b * b).

Definition atan2 (y x : R) : R :=
  if Rlt_dec 0 x then atan (y / x)
  else if Rlt_dec x 0 then
         if Rle_dec 0 y then atan (y / x) + PI else atan (y / x) - PI
       else if Rlt_dec 0 y then PI / 2
            else if Rlt_dec y 0 then - (PI / 2)
                 else 0.

(** ** utils.ts *)

(** Modelled from the spec: utils.ts is not among the sources.  [lerp] is
    the linear interpolation from [y1] to [y2] with factor [mu]
    (spec 4.2, 4.3). *)
Definition lerp (y1 y2 mu : R) : R := y1 * (1 - mu) + y2 * mu.

(** Modelled from the spec: utils.ts is not among the sources.  [clamp]
    brings [n] into the interval from [a] to [b] (spec 4.3). *)
Definition clamp (n a b : R) : R := Rmax a (Rmin b n).

(** Modelled from the spec: utils.ts is not among the sources.  The angle
    of the line through the two points, as the angle under which [p1] is
    seen from [p0].  The orientation is the one spec 8.7 fixes: for the
    stroke (0, 0), (10, 0), (20, 0) the left rib, projected at
    [angle - PI / 2], lies at y = +4, so the angle [getAngle(curr, prev)]
    of a sample that moved along +x is [PI]. *)
Definition getAngle (p0 p1 : Vec) : R :=
  atan2 (snd p1 - snd p0) (fst p1 - fst p0).

(** The integer part of a number towards zero, and the remainder [x % m]
    of JavaScript, which has the sign of [x]. *)
Definition truncate (x : R) : Z :=
  if Rle_dec 0 x then Int_part x else (- Int_part (- x))%Z.

Definition remainder (x m : R) : R := x - m * IZR (truncate (x / m)).

(** Modelled from the spec: utils.ts is not among the sources.  The signed
    angular delta from [a0] to [a1] (spec 4.4 c), reduced modulo a full
    turn and taken the short way round, whatever the distance of the two
    angles is. *)
Definition getAngleDelta (a0 a1 : R) : R :=
  let max := PI * 2 in
  let da := remainder (a1 - a0) max in
  remainder (2 * da) max - da.

(** Modelled from the spec: utils.ts is not among the sources.  "The
    Euclidean norm between them" (spec 4.2). *)
Definition getDistance (p0 p1 : Vec) : R :=
  hypot (snd p1 - snd p0) (fst p1 - fst p0).

(** Modelled from the spec: utils.ts is not among the sources.  "The
    midpoint between the test point and the candidate" (spec 4.4 d). *)
Definition getPointBetween (p0 p1 : Vec) : Vec :=
  (fst p0 + (fst p1 - fst p0) * 0.5, snd p0 + (snd p1 - snd p0) * 0.5).

(** Modelled from the spec: utils.ts is not among the sources.  The point
    at distance [d] from [p0] in the direction [a] (spec 4.4). *)
Definition projectPoint (p0 : Vec) (a d : R) : Vec :=
  (cos a * d + fst p0, sin a * d + snd p0).

(** Modelled from the spec: utils.ts is not among the sources.  The
    normalizer gives every point the shape [[x, y, pressure]], "pressure
    defaults to 0.5 when absent" (spec 3, 4.1); the arrays are fresh. *)
Definition toPointsArray (points : list RawPoint) : list Sample :=
  map (fun p =>
         match p with
         | ArrayPoint x y pressure => mkSample x y (default 0.5 pressure)
         | ObjectPoint x y pressure => mkSample x y (default 0.5 pressure)
         end) points.

(** ** index.ts: constants *)

Definition TAU : R := PI / 2.
Definition SHARP : R := TAU.
Definition DULL : R := SHARP / 2.

(** ** index.ts: getStrokeRadius *)

Definition getStrokeRadius (size : R) (thinning : option R)
    (easing : R -> R) (pressure : option R) : R :=
  let pressure := default 0.5 pressure in
  match thinning with
  | None => size / 2
  | Some thinning =>
      let pressure := clamp (easing pressure) 0 1 in
      (if Rlt_dec thinning 0
       then lerp size (size + size * clamp thinning (-0.95) (-0.05)) pressure
       else lerp (size - size * clamp thinning 0.05 0.95) size pressure) / 2
  end.

(** ** index.ts: getStrokePoints *)

(** The body of the [for] loop, from index [i] on: [prev] is [pts[i - 1]]
    as the previous turn left it, the head of [rest] is [pts[i]]. *)
Fixpoint resample (streamline : R) (prev : StrokePoint) (rest : list Sample)
  : list StrokePoint :=
  match rest with
  | [] => []
  | c :: rest' =>
      let x := lerp (ptX prev) (sampleX c) (1 - streamline) in
      let y := lerp (ptY prev) (sampleY c) (1 - streamline) in
      let angle := getAngle (x, y) (pos prev) in
      let distance := getDistance (x, y) (pos prev) in
      let curr := mkPoint x y (samplePressure c) angle distance
                          (ptLength prev + distance) in
      curr :: resample streamline curr rest'
  end.

Definition getStrokePoints (points : list RawPoint) (streamline : option R)
  : list StrokePoint :=
  let streamline := default 0.5 streamline in
  match toPointsArray points with
  | [] => []
  | p0 :: rest =>
      let first := mkPoint (sampleX p0) (sampleY p0)
                           (orElse (samplePressure p0) 0.5) 0 0 0 in
      first :: resample streamline first rest
  end.

(** ** index.ts: getStrokeOutlinePoints *)

(** The options object; an absent key is [None].  [{}] is [noOptions]. *)
Record StrokeOptions : Type := mkOptions {
  optSize : option R;
  optThinning : option R;
  optSmoothing : option R;
  optStreamline : option R;
  optSimulatePressure : option bool;
  optEasing : option (R -> R)
}.

Definition noOptions : StrokeOptions :=
  mkOptions None None None None None None.

(** Comparisons as the conditions of the source. *)
Definition ltR (a b : R) : bool := if Rlt_dec a b then true else false.
Definition leR (a b : R) : bool := if Rle_dec a b then true else false.
Definition gtR (a b : R) : bool := if Rgt_dec a b then true else false.

(** The variables the tracer assigns to, named as in the source. *)
Module Tracer.
Record state : Type := mk {
  leftPts : list Vec;
  rightPts : list Vec;
  pl : Vec;
  pr : Vec;
  tl : Vec;
  tr : Vec;
  pa : R;
  pp : R;
  r : R;
  short : bool
}.
End Tracer.

Definition pushLeft (q : Vec) (s : Tracer.state) : Tracer.state :=
  let (lp, rp, pl, pr, tl, tr, pa, pp, r, short) := s in
  Tracer.mk (lp ++ [q]) rp pl pr tl tr pa pp r short.

Definition pushRight (q : Vec) (s : Tracer.state) : Tracer.state :=
  let (lp, rp, pl, pr, tl, tr, pa, pp, r, short) := s in
  Tracer.mk lp (rp ++ [q]) pl pr tl tr pa pp r short.

Definition setPl (q : Vec) (s : Tracer.state) : Tracer.state :=
  let (lp, rp, pl, pr, tl, tr, pa, pp, r, short) := s in
  Tracer.mk lp rp q pr tl tr pa pp r short.

Definition setPr (q : Vec) (s : Tracer.state) : Tracer.state :=
  let (lp, rp, pl, pr, tl, tr, pa, pp, r, short) := s in
  Tracer.mk lp rp pl q tl tr pa pp r short.

Definition setTl (q : Vec) (s : Tracer.state) : Tracer.state :=
  let (lp, rp, pl, pr, tl, tr, pa, pp, r, short) := s in
  Tracer.mk lp rp pl pr q tr pa pp r short.

Definition setTr (q : Vec) (s : Tracer.state) : Tracer.state :=
  let (lp, rp, pl, pr, tl, tr, pa, pp, r, short) := s in
  Tracer.mk lp rp pl pr tl q pa pp r short.

Definition setPa (a : R) (s : Tracer.state) : Tracer.state :=
  let (lp, rp, pl, pr, tl, tr, pa, pp, r, short) := s in
  Tracer.mk lp rp pl pr tl tr a pp r short.

Definition setPp (p : R) (s : Tracer.state) : Tracer.state :=
  let (lp, rp, pl, pr, tl, tr, pa, pp, r, short) := s in
  Tracer.mk lp rp pl pr tl tr pa p r short.

Definition setR (v : R) (s : Tracer.state) : Tracer.state :=
  let (lp, rp, pl, pr, tl, tr, pa, pp, r, short) := s in
  Tracer.mk lp rp pl pr tl tr pa pp v short.

Definition setShort (b : bool) (s : Tracer.state) : Tracer.state :=
  let (lp, rp, pl, pr, tl, tr, pa, pp, r, short) := s in
  Tracer.mk lp rp pl pr tl tr pa pp r b.

(** [for (let t = 0, step = ...; t <= 1; t += step) body]: [t] is the
    current value of the loop variable. *)
Fixpoint forT {S : Type} (fuel : nat) (step t : R) (body : R -> S -> S) (s : S)
  : outcome S :=
  match fuel with
  | O => OutOfFuel
  | Datatypes.S fuel' =>
      if leR t 1 then forT fuel' step (t + step) body (body t s)
      else Ok s
  end.

(** Fuel of the cap loops: they make 11 and 5 turns ([forT_tenth],
    [forT_quarter]). *)
Definition capFuel : nat := 16.

Section Trace.

Variables (size thinning smoothing : R).
Variable simulatePressure : bool.
Variable easing : R -> R.
Variable points : list StrokePoint.

(** Steps 3 and 4 of the loop body, for the sample [[x, y, _, angle]]. *)
Definition traceCorner (x y pressure angle : R)
    (next : option StrokePoint) (s : Tracer.state) : outcome Tracer.state :=
  let minDist := size * smoothing in
  next <- defined next ;;
  let absDelta := Rabs (getAngleDelta (ptAngle next) angle) in
  if gtR absDelta SHARP then
    (* A sharp corner: a cap on both sides, then [continue]. *)
    forT capFuel 0.25 0
      (fun t s =>
         let l := projectPoint (x, y) (Tracer.pa s - TAU + t * - PI) (Tracer.r s) in
         let rt := projectPoint (x, y) (Tracer.pa s + TAU + t * PI) (Tracer.r s) in
         pushRight rt (pushLeft l (setTr rt (setTl l s)))) s
  else
    (* 4. Add regular point. *)
    let s := setPl (projectPoint (x, y) (angle - TAU) (Tracer.r s)) s in
    let s := setPr (projectPoint (x, y) (angle + TAU) (Tracer.r s)) s in
    let s :=
      if gtR absDelta DULL
         || gtR (getDistance (Tracer.pl s) (Tracer.tl s)) minDist
      then setTl (Tracer.pl s)
             (pushLeft (getPointBetween (Tracer.tl s) (Tracer.pl s)) s)
      else s in
    let s :=
      if gtR absDelta DULL
         || gtR (getDistance (Tracer.pr s) (Tracer.tr s)) minDist
      then setTr (Tracer.pr s)
             (pushRight (getPointBetween (Tracer.tr s) (Tracer.pr s)) s)
      else s in
    Ok (setPa angle (setPp pressure s)).

(** One turn of the main loop, for [points[i]] = [cur] and
    [points[i + 1]] = [next]. *)
Definition traceSample (cur : StrokePoint) (next : option StrokePoint)
    (s : Tracer.state) : outcome Tracer.state :=
  let '(mkPoint x y pressure angle distance clen) := cur in
  (* 1. Calculate the size of the current point. *)
  let pressure :=
    if truthy thinning then
      if simulatePressure then
        let rp := Rmin (1 - distance / size) 1 in
        let sp := Rmin (distance / size) 1 in
        Rmin 1 (Tracer.pp s + (rp - Tracer.pp s) * (sp / 2))
      else pressure
    else pressure in
  let s :=
    if truthy thinning
    then setR (getStrokeRadius size (Some thinning) easing (Some pressure)) s
    else s in
  (* 2. Draw a cap once we've reached the minimum length. *)
  if Tracer.short s then
    if ltR clen (size / 4) then Ok s
    else
      let s := setShort false s in
      first <- defined (index points 0) ;;
      s <- forT capFuel 0.1 0
             (fun t s =>
                let q := projectPoint (pos first) (angle + TAU - t * PI)
                                      (Tracer.r s) in
                pushLeft q (setTl q s)) s ;;
      let q := projectPoint (pos first) (angle + TAU) (Tracer.r s) in
      traceCorner x y pressure angle next (pushRight q (setTr q s))
  else traceCorner x y pressure angle next s.

(** [for (let i = 1; i < len - 1; i++)], from the current [i] on. *)
Fixpoint traceLoop (fuel : nat) (i : Z) (s : Tracer.state)
  : outcome Tracer.state :=
  match fuel with
  | O => OutOfFuel
  | S fuel' =>
      if (i <? Z.of_nat (length points) - 1)%Z then
        let next := index points (i + 1) in
        cur <- defined (index points i) ;;
        s <- traceSample cur next s ;;
        traceLoop fuel' (i + 1)%Z s
      else Ok s
  end.

End Trace.

Definition getStrokeOutlinePoints (points : list StrokePoint)
    (options : StrokeOptions) : outcome (list Vec) :=
  let size := default 8 (optSize options) in
  let thinning := default 0.5 (optThinning options) in
  let smoothing := default 0.5 (optSmoothing options) in
  let simulatePressure := default true (optSimulatePressure options) in
  let easing := default (fun t => t) (optEasing options) in
  let len := Z.of_nat (length points) in
  lastPoint <- defined (index points (len - 1)) ;;   (* points[len - 1][5] *)
  let totalLength := ptLength lastPoint in
  let pl := index points 0 in
  p0 <- defined pl ;;                                (* pa = pr[3] *)
  let s := Tracer.mk [] [] (pos p0) (pos p0) (pos p0) (pos p0)
                     (ptAngle p0) 0 (size / 2) true in
  (* We can't do anything with an empty array. *)
  if (len =? 0)%Z then Ok []
  else if (len =? 1)%Z || leR totalLength (size / 4) then
    (* If the point is only one point long, draw two caps at either end. *)
    first <- defined (index points 0) ;;
    last <- defined (index points (len - 1)) ;;
    let angle := getAngle (pos first) (pos last) in
    let s :=
      if truthy thinning
      then setR (getStrokeRadius size (Some thinning) easing
                                 (Some (ptPressure last))) s
      else s in
    s <- forT capFuel 0.1 0
           (fun t s =>
              let l := projectPoint (pos first) (angle + PI + TAU - t * PI)
                                    (Tracer.r s) in
              let rt := projectPoint (pos last) (angle + TAU - t * PI)
                                     (Tracer.r s) in
              pushRight rt (pushLeft l (setTr rt (setTl l s)))) s ;;
    Ok (Tracer.leftPts s ++ Tracer.rightPts s)
  else
    (* For a point with more than one point, create an outline shape. *)
    s <- traceLoop size thinning smoothing simulatePressure easing points
           (length points) 1%Z s ;;
    (* Add the end cap. *)
    last <- defined (index points (len - 1)) ;;
    s <- forT capFuel 0.1 0
           (fun t s =>
              pushRight (projectPoint (pos last)
                           (ptAngle last + TAU + t * PI) (Tracer.r s)) s) s ;;
    Ok (Tracer.leftPts s ++ rev (Tracer.rightPts s)).

(** ** index.ts: getStroke *)

Definition getStroke (points : list RawPoint) (options : StrokeOptions)
  : outcome (list Vec) :=
  getStrokeOutlinePoints (getStrokePoints points (optStreamline options))
                         options.

(** * What the properties speak of *)

(** ** The result of the resampler *)

(** The pairs of neighbours of a sequence: [(l[i], l[i + 1])]. *)
Definition neighbours {A : Type} (l : list A) : list (A * A) :=
  combine l (List.tl l).

(** What the resampler promises about its result. *)
Definition startsAtZero (out : list StrokePoint) : Prop :=
  match out with
  | [] => True
  | first :: _ => ptAngle first = 0 /\ ptDistance first = 0 /\ ptLength first = 0
  end.

(** The distance of [curr] is the Euclidean norm between its position and
    the position of [prev]. *)
Definition stepIsNorm (pc : StrokePoint * StrokePoint) : Prop :=
  let (prev, curr) := pc in
  ptDistance curr = sqrt ((ptX curr - ptX prev)² + (ptY curr - ptY prev)²).

(** ** The cap loops *)

(** The values the loop variable [t] takes in [n] turns from [t]. *)
Fixpoint steps (n : nat) (step t : R) : list R :=
  match n with
  | O => []
  | S n' => t :: steps n' step (t + step)
  end.

Definition tenths : list R := [0; 0.1; 0.2; 0.3; 0.4; 0.5; 0.6; 0.7; 0.8; 0.9; 1].
Definition quarters : list R := [0; 0.25; 0.5; 0.75; 1].

(** ** The dot and the start cap *)

(** The radius of a dot: the radius function at the pressure of the last
    sample when [thinning] is truthy, [size / 2] otherwise. *)
Definition dotRadius (options : StrokeOptions) (pressure : R) : R :=
  let size := default 8 (optSize options) in
  let thinning := default 0.5 (optThinning options) in
  let easing := default (fun t => t) (optEasing options) in
  if truthy thinning
  then getStrokeRadius size (Some thinning) easing (Some pressure)
  else size / 2.

(** The points a sample pushes before its corner is looked at: the start
    cap, when the sample is the first one past the minimum length. *)
Definition startCapLeft (first cur : StrokePoint) (radius : R) : list Vec :=
  map (fun t => projectPoint (pos first) (ptAngle cur + TAU - t * PI) radius)
      tenths.

Definition startCapRight (first cur : StrokePoint) (radius : R) : list Vec :=
  [projectPoint (pos first) (ptAngle cur + TAU) radius].

(** ** The outline at a constant radius *)

(** The tracer of spec 4.4 with the radius update (step a) left out: every
    point is projected at the one radius [radius], and no pressure is
    read.  It is written on the list of samples rather than on indices,
    with the caps as maps over [tenths] and [quarters]; the gates are the
    ones of the source.  It is the reference [getStrokeOutlinePoints] is
    compared with when pressure modulation is off. *)
Module Plain.
Record state : Type := mk {
  leftPts : list Vec;
  rightPts : list Vec;
  tl : Vec;
  tr : Vec;
  pa : R;
  short : bool
}.
End Plain.

Section ConstantRadius.

Variables (radius size smoothing : R).
Variable origin : Vec.     (* the position of the first sample *)

(** A sharp corner gets a fan on both ribs; any other sample gets at
    most one point per rib, between the test point and the candidate. *)
Definition plainCorner (cur next : StrokePoint) (s : Plain.state)
  : Plain.state :=
  let absDelta := Rabs (getAngleDelta (ptAngle next) (ptAngle cur)) in
  if gtR absDelta SHARP then
    let fanL := map (fun t => projectPoint (pos cur)
                                (Plain.pa s - TAU + t * - PI) radius)
                    quarters in
    let fanR := map (fun t => projectPoint (pos cur)
                                (Plain.pa s + TAU + t * PI) radius)
                    quarters in
    Plain.mk (Plain.leftPts s ++ fanL) (Plain.rightPts s ++ fanR)
             (last fanL (Plain.tl s)) (last fanR (Plain.tr s))
             (Plain.pa s) (Plain.short s)
  else
    let candL := projectPoint (pos cur) (ptAngle cur - TAU) radius in
    let candR := projectPoint (pos cur) (ptAngle cur + TAU) radius in
    let emitL := gtR absDelta DULL
                 || gtR (getDistance candL (Plain.tl s)) (size * smoothing) in
    let emitR := gtR absDelta DULL
                 || gtR (getDistance candR (Plain.tr s)) (size * smoothing) in
    Plain.mk
      (if emitL then Plain.leftPts s ++ [getPointBetween (Plain.tl s) candL]
       else Plain.leftPts s)
      (if emitR then Plain.rightPts s ++ [getPointBetween (Plain.tr s) candR]
       else Plain.rightPts s)
      (if emitL then candL else Plain.tl s)
      (if emitR then candR else Plain.tr s)
      (ptAngle cur) (Plain.short s).

Definition plainSample (cur next : StrokePoint) (s : Plain.state)
  : Plain.state :=
  if Plain.short s then
    if ltR (ptLength cur) (size / 4) then s
    else
      let cap := map (fun t => projectPoint origin
                                 (ptAngle cur + TAU - t * PI) radius)
                     tenths in
      let q := projectPoint origin (ptAngle cur + TAU) radius in
      plainCorner cur next
        (Plain.mk (Plain.leftPts s ++ cap) (Plain.rightPts s ++ [q])
                  (last cap (Plain.tl s)) q (Plain.pa s) false)
  else plainCorner cur next s.

(** The interior samples: every sample of [l] that has a successor. *)
Fixpoint plainLoop (l : list StrokePoint) (s : Plain.state) : Plain.state :=
  match l with
  | [] => s
  | cur :: l' =>
      match l' with
      | [] => s
      | next :: _ => plainLoop l' (plainSample cur next s)
      end
  end.

End ConstantRadius.

Definition outlineAtRadius (radius size smoothing : R)
    (first : StrokePoint) (rest : list StrokePoint) : list Vec :=
  let lastPoint := last rest first in
  let dot :=
    let angle := getAngle (pos first) (pos lastPoint) in
    map (fun t => projectPoint (pos first) (angle + PI + TAU - t * PI) radius)
        tenths ++
    map (fun t => projectPoint (pos lastPoint) (angle + TAU - t * PI) radius)
        tenths in
  match rest with
  | [] => dot
  | _ :: _ =>
      if leR (ptLength lastPoint) (size / 4) then dot
      else
        let s := plainLoop radius size smoothing (pos first) rest
                   (Plain.mk [] [] (pos first) (pos first) (ptAngle first) true) in
        let endCap :=
          map (fun t => projectPoint (pos lastPoint)
                          (ptAngle lastPoint + TAU + t * PI) radius) tenths in
        Plain.leftPts s ++ rev (Plain.rightPts s ++ endCap)
  end.

(** What the reference sees of the state of the tracer. *)
Definition erase (s : Tracer.state) : Plain.state :=
  Plain.mk (Tracer.leftPts s) (Tracer.rightPts s) (Tracer.tl s) (Tracer.tr s)
           (Tracer.pa s) (Tracer.short s).

(** ** The loop up to a sample *)

Section Turns.

Variables (size thinning smoothing : R).
Variable simulatePressure : bool.
Variable easing : R -> R.
Variable points : list StrokePoint.

(** The first [n] turns of the loop of [getStrokeOutlinePoints] from the
    index [i] on (all of them when the loop ends before): the state in
    which the loop reaches the sample [i + n]. *)
Fixpoint traceTurns (n : nat) (i : Z) (s : Tracer.state)
  : outcome Tracer.state :=
  match n with
  | O => Ok s
  | S n' =>
      if (i <? Z.of_nat (length points) - 1)%Z then
        let next := index points (i + 1) in
        cur <- defined (index points i) ;;
        s <- traceSample size thinning smoothing simulatePressure easing
                         points cur next s ;;
        traceTurns n' (i + 1)%Z s
      else Ok s
  end.

End Turns.

(** The ribs of [s] begin with [leftRib] and [rightRib]. *)
Definition ribsExtend (leftRib rightRib : list Vec) (s : Tracer.state) : Prop :=
  (exists later, Tracer.leftPts s = leftRib ++ later) /\
  (exists later, Tracer.rightPts s = rightRib ++ later).

(** ** Sample strokes *)

(** The single point (0, 0, 0.5), annotated. *)
Definition dotSample : StrokePoint := mkPoint 0 0 0.5 0 0 0.

(** A stroke that turns back before it is a quarter of [size] long: the
    samples (0, 0), (1, 0), (-5, 0) as the resampler annotates them. *)
Definition turnBack : list StrokePoint :=
  [mkPoint 0 0 0.5 0 0 0; mkPoint 1 0 0.5 PI 1 1; mkPoint (-5) 0 0.5 0 6 7].

(** The same stroke as the caller gives it. *)
Definition rawTurnBack : list RawPoint :=
  [ArrayPoint 0 0 None; ArrayPoint 1 0 None; ArrayPoint (-5) 0 None].

(** A stroke that turns back when it is half of [size] long: the samples
    (0, 0), (4, 0), (0, 0) as the resampler annotates them, and as the
    caller gives them. *)
Definition turnAtFour : list StrokePoint :=
  [mkPoint 0 0 0.5 0 0 0; mkPoint 4 0 0.5 PI 4 4; mkPoint 0 0 0.5 0 4 8].

Definition rawTurnAtFour : list RawPoint :=
  [ArrayPoint 0 0 None; ArrayPoint 4 0 None; ArrayPoint 0 0 None].

(** * Further notions *)

(** ** The radius function and the resampler *)

(** The pressure the normalizer gives a point. *)
Definition rawPressure (p : RawPoint) : R :=
  match p with
  | ArrayPoint _ _ pressure => default 0.5 pressure
  | ObjectPoint _ _ pressure => default 0.5 pressure
  end.

(** A function that does not decrease on the interval from 0 to 1. *)
Definition monotoneOnUnit (f : R -> R) : Prop :=
  forall a b : R, 0 <= a -> a <= b -> b <= 1 -> f a <= f b.


Definition shiftRaw (dx dy : R) (p : RawPoint) : RawPoint :=
  match p with
  | ArrayPoint x y pressure => ArrayPoint (x + dx) (y + dy) pressure
  | ObjectPoint x y pressure => ObjectPoint (x + dx) (y + dy) pressure
  end.

Definition shiftPoint (dx dy : R) (p : StrokePoint) : StrokePoint :=
  mkPoint (ptX p + dx) (ptY p + dy) (ptPressure p) (ptAngle p)
          (ptDistance p) (ptLength p).

(** The sum of a list of numbers. *)
Definition sumR (l : list R) : R := fold_right Rplus 0 l.

(** A position inside the rectangle [xlo, xhi] x [ylo, yhi] widened by
    [margin] on every side. *)
Definition inBox (xlo xhi ylo yhi margin : R) (q : Vec) : Prop :=
  xlo - margin <= fst q <= xhi + margin /\
  ylo - margin <= snd q <= yhi + margin.

Definition shiftSample (dx dy : R) (c : Sample) : Sample :=
  mkSample (sampleX c + dx) (sampleY c + dy) (samplePressure c).

(** ** The tracer *)

(** The variables of the tracer as [getStrokeOutlinePoints] sets them
    before its loop. *)
Definition startState (size : R) (first : StrokePoint) : Tracer.state :=
  Tracer.mk [] [] (pos first) (pos first) (pos first) (pos first)
            (ptAngle first) 0 (size / 2) true.

(** The two sweeps of a dot and the sweep of the end cap. *)
Definition dotOutline (first lastPoint : StrokePoint) (radius : R) : list Vec :=
  let angle := getAngle (pos first) (pos lastPoint) in
  map (fun t => projectPoint (pos first) (angle + PI + TAU - t * PI) radius)
      tenths ++
  map (fun t => projectPoint (pos lastPoint) (angle + TAU - t * PI) radius)
      tenths.

Definition endCap (lastPoint : StrokePoint) (radius : R) : list Vec :=
  map (fun t => projectPoint (pos lastPoint)
                  (ptAngle lastPoint + TAU + t * PI) radius) tenths.

(** A function applied to the value a call returns. *)
Definition outcomeMap {A B : Type} (f : A -> B) (o : outcome A) : outcome B :=
  match o with
  | Ok a => Ok (f a)
  | TypeError => TypeError
  | OutOfFuel => OutOfFuel
  | UnionError => UnionError
  end.


(** The ribs and the test points are within [size / 2] of the rectangle
    [xlo, xhi] x [ylo, yhi], and the radius is between 0 and [size / 2]. *)
Definition nearState (xlo xhi ylo yhi size : R) (s : Tracer.state) : Prop :=
  Forall (inBox xlo xhi ylo yhi (size / 2)) (Tracer.leftPts s) /\
  Forall (inBox xlo xhi ylo yhi (size / 2)) (Tracer.rightPts s) /\
  inBox xlo xhi ylo yhi (size / 2) (Tracer.tl s) /\
  inBox xlo xhi ylo yhi (size / 2) (Tracer.tr s) /\
  0 <= Tracer.r s <= size / 2.

(** Two annotated points that differ at most in their pressure. *)
Definition samePath (p q : StrokePoint) : Prop :=
  ptX p = ptX q /\ ptY p = ptY q /\ ptAngle p = ptAngle q /\
  ptDistance p = ptDistance q /\ ptLength p = ptLength q.

(** * The example application (state.ts): from outline to path *)

(** ** getSvgPathFromStroke *)

(** An element of the array [d]: a command letter or a number. *)
Inductive PathItem : Type :=
| Command (letter : String.string)
| Number (value : R).

(** What one turn of the loop pushes: [p0] and the point half way from
    [p0] to [p1]. *)
Definition curveItems (p0 p1 : Vec) : list PathItem :=
  [Number (fst p0); Number (snd p0);
   Number ((fst p0 + fst p1) / 2); Number ((snd p0 + snd p1) / 2)].

Section SvgLoop.

Variable stroke : list Vec.

(** [for (let i = 1; i < stroke.length; i++)], from the current [i] on;
    [p1] is [undefined] when the stroke has a single point. *)
Fixpoint svgLoop (fuel : nat) (i : Z) (d : list PathItem)
    (p0 : Vec) (p1 : option Vec) : outcome (list PathItem) :=
  match fuel with
  | O => OutOfFuel
  | S fuel' =>
      if (i <? Z.of_nat (length stroke))%Z then
        q1 <- defined p1 ;;
        svgLoop fuel' (i + 1)%Z (d ++ curveItems p0 q1) q1 (index stroke i)
      else Ok d
  end.

End SvgLoop.

(** The array [d] when [getSvgPathFromStroke] joins it. *)
Definition svgPathItems (stroke : list Vec) : outcome (list PathItem) :=
  let p0 := index stroke 0 in
  let p1 := index stroke 1 in
  q0 <- defined p0 ;;
  let d := [Command "M"%string; Number (fst q0); Number (snd q0); Command "Q"%string] in
  d <- svgLoop stroke (length stroke) 1 d q0 p1 ;;
  Ok (d ++ [Command "Z"%string]).

Section Paths.

(** The conversion of a number to a string, which [Array.join] applies to
    the numbers of [d]; and the [union] of the polygon-clipping package,
    which gives a list of polygons, each a list of rings, or throws
    ([None]). *)
Variable showNumber : R -> String.string.
Variable union : list (list Vec) -> option (list (list (list Vec))).

Definition showItem (item : PathItem) : String.string :=
  match item with
  | Command letter => letter
  | Number value => showNumber value
  end.

Definition getSvgPathFromStroke (stroke : list Vec) : outcome String.string :=
  if (Z.of_nat (length stroke) =? 0)%Z then Ok ""%string
  else
    d <- svgPathItems stroke ;;
    Ok (String.concat " "%string (map showItem d)).

(** ** getFlatSvgPathFromStroke *)

(** The two nested [for ... of] loops: one path per ring, in order. *)
Fixpoint ringPaths (face : list (list Vec)) (d : list String.string)
  : outcome (list String.string) :=
  match face with
  | [] => Ok d
  | points :: face' =>
      path <- getSvgPathFromStroke points ;;
      ringPaths face' (d ++ [path])
  end.

Fixpoint facePaths (poly : list (list (list Vec))) (d : list String.string)
  : outcome (list String.string) :=
  match poly with
  | [] => Ok d
  | face :: poly' =>
      d <- ringPaths face d ;;
      facePaths poly' d
  end.

Definition getFlatSvgPathFromStroke (stroke : list Vec)
  : outcome String.string :=
  match union [stroke] with
  | None => UnionError
  | Some poly =>
      d <- facePaths poly [] ;;
      Ok (String.concat " "%string d)
  end.

End Paths.

(** ** easings *)

(** The keys of the [easings] object.  A string that is none of them is
    outside the model. *)
Inductive EasingName : Type := Linear | EaseIn | EaseOut | EaseInOut.

Definition easings (name : EasingName) : R -> R :=
  match name with
  | Linear => fun t => t
  | EaseIn => fun t => t * t
  | EaseOut => fun t => t * (2 - t)
  | EaseInOut =>
      fun t => if Rlt_dec t 0.5 then 2 * t * t else -1 + (4 - 2 * t) * t
  end.

(** ** getStrokePath *)

Record AppOptions : Type := mkAppOptions {
  appSize : R;
  appStreamline : R;
  appClip : bool;
  appEasing : EasingName;
  appThinning : R;
  appSmoothing : R;
  appSimulatePressure : bool
}.

(** [{ ...options, easing: easings[options.easing],
       simulatePressure: type !== 'pen' }], as [getStroke] reads it. *)
Definition strokeOptionsOf (options : AppOptions) (type : String.string)
  : StrokeOptions :=
  mkOptions (Some (appSize options)) (Some (appThinning options))
            (Some (appSmoothing options)) (Some (appStreamline options))
            (Some (negb (String.eqb type "pen"%string)))
            (Some (easings (appEasing options))).

Section StrokePath.

Variable showNumber : R -> String.string.
Variable union : list (list Vec) -> option (list (list (list Vec))).

Definition getStrokePath (points : list RawPoint) (options : AppOptions)
    (type : String.string) : outcome String.string :=
  stroke <- getStroke points (strokeOptionsOf options type) ;;
  if appClip options
  then getFlatSvgPathFromStroke showNumber union stroke
  else getSvgPathFromStroke showNumber stroke.

End StrokePath.

(** The items the loop of [getSvgPathFromStroke] pushes when it holds
    [p0] and [p1] and has the points [rest] still to read: the point read
    last is held but never pushed. *)
Fixpoint curveTail (p0 p1 : Vec) (rest : list Vec) : list PathItem :=
  match rest with
  | [] => []
  | x :: rest' => curveItems p0 p1 ++ curveTail p1 x rest'
  end.

(** ** The marks of the application and their history *)

Record Mark : Type := mkMark {
  markType : string;
  markPoints : list RawPoint;
  markPath : string
}.

(** An entry of [restore] or [redos]: [{ clear?, marks }]. *)
Record HistoryEntry : Type := mkEntry {
  entryClear : option bool;
  entryMarks : list Mark
}.

Record Settings : Type := mkSettings {
  penMode : bool;
  darkMode : bool;
  showTrace : bool;
  showControls : bool;
  recomputePaths : bool
}.

Record ClipboardMessage : Type := mkMessage {
  messageError : bool;
  messageText : string
}.

Record Data : Type := mkData {
  settings : Settings;
  alg : AppOptions;
  restore : list HistoryEntry;
  redos : list HistoryEntry;
  marks : list Mark;
  currentMark : option Mark;
  clipboardMessage : option ClipboardMessage
}.

(** What [getPointer()] returns. *)
Record Pointer : Type := mkPointer {
  pointerX : R;
  pointerY : R;
  pointerP : option R;
  pointerType : string
}.

(** [l.pop()]: the array without its last element and that element, or
    [undefined] when the array is empty. *)
Definition pop {A : Type} (l : list A) : list A * option A :=
  match rev l with
  | [] => ([], None)
  | a :: before => (rev before, Some a)
  end.

Definition undoMark (data : Data) : Data :=
  let (settings, alg, restore, redos, marks, currentMark, message) := data in
  if (Z.of_nat (length marks) =? 0)%Z then
    let (restore', restored) := pop restore in
    match restored with
    | Some entry =>
        mkData settings alg restore' redos (entryMarks entry) currentMark message
    | None => mkData settings alg restore' redos marks currentMark message
    end
  else
    let (marks', undid) := pop marks in
    match undid with
    | Some mark =>
        mkData settings alg restore (redos ++ [mkEntry None [mark]]) marks'
               currentMark message
    | None => mkData settings alg restore redos marks' currentMark message
    end.

Definition redoMark (data : Data) : Data :=
  let (settings, alg, restore, redos, marks, currentMark, message) := data in
  let (redos', undid) := pop redos in
  match undid with
  | Some entry =>
      mkData settings alg restore redos' (marks ++ entryMarks entry)
             currentMark message
  | None => mkData settings alg restore redos' marks currentMark message
  end.

Definition clearMarks (data : Data) : Data :=
  let (settings, alg, restore, redos, marks, currentMark, message) := data in
  mkData settings alg restore [] [] currentMark message.

Section Drawing.

Variable showNumber : R -> string.
Variable union : list (list Vec) -> option (list (list (list Vec))).

Definition pointOf (pointer : Pointer) : RawPoint :=
  ObjectPoint (pointerX pointer) (pointerY pointer) (pointerP pointer).

Definition beginMark (pointer : Pointer) (data : Data) : outcome Data :=
  let (settings, alg, restore, redos, marks, currentMark, message) := data in
  let type := pointerType pointer in
  let settings :=
    mkSettings (String.eqb type "pen"%string) (darkMode settings)
               (showTrace settings) (showControls settings)
               (recomputePaths settings) in
  let point := pointOf pointer in
  path <- getStrokePath showNumber union [point] alg type ;;
  Ok (mkData settings alg restore [] marks
             (Some (mkMark type [point] path)) message).

Definition addPointToMark (pointer : Pointer) (data : Data) : outcome Data :=
  let (settings, alg, restore, redos, marks, currentMark, message) := data in
  current <- defined currentMark ;;        (* currentMark!.type *)
  if negb (String.eqb (pointerType pointer) (markType current))
  then Ok data
  else
    let points := markPoints current ++ [pointOf pointer] in
    path <- getStrokePath showNumber union points alg (markType current) ;;
    Ok (mkData settings alg restore redos marks
               (Some (mkMark (markType current) points path)) message).

Definition completeMark (data : Data) : outcome Data :=
  let (settings, alg, restore, redos, marks, currentMark, message) := data in
  match currentMark with
  | None => Ok data
  | Some current =>
      path <- getStrokePath showNumber union (markPoints current) alg
                            (markType current) ;;
      Ok (mkData settings alg restore redos
                 (marks ++ [mkMark (markType current) (markPoints current) path])
                 None message)
  end.

End Drawing.

(** Every entry of [redos] is one that [undoMark] makes: a single mark and
    no [clear]. *)
Definition redosFromUndo (data : Data) : Prop :=
  Forall (fun entry => exists mark, entry = mkEntry None [mark]) (redos data).

(** Two raw points at the same position. *)
Definition samePosition (p q : RawPoint) : Prop := rawPos p = rawPos q.

(** ** Sample values *)

(** [defaultOptions] of the application. *)
Definition defaultOptions : AppOptions :=
  mkAppOptions 16 0.5 false Linear 0.75 0.5 true.

(** [defaultSettings] of the application. *)
Definition defaultSettings : Settings :=
  mkSettings false false false false true.

(** The [data] the state starts from. *)
Definition initialData : Data :=
  mkData defaultSettings defaultOptions [] [] [] None None.

(** A number format and a union to run the path functions with: every
    number printed as "n", and the stroke given back as the only ring. *)
Definition showAsN (v : R) : string := "n"%string.

Definition unionAsIs (rings : list (list Vec))
  : option (list (list (list Vec))) :=
  Some [rings].

(** The options of the application with clipping switched on. *)
Definition clipOptions : AppOptions :=
  mkAppOptions 16 0.5 true Linear 0.75 0.5 true.

(** An action returns a value that satisfies [post], or the union threw
    while clipping is on. *)
Definition returnsUnlessUnionFails {A : Type}
    (union : list (list Vec) -> option (list (list (list Vec))))
    (clip : bool) (o : outcome A) (post : A -> Prop) : Prop :=
  (exists a, o = Ok a /\ post a) \/
  (clip = true /\ (exists rings, union rings = None) /\ o = UnionError).

(** * Properties *)

(** ** Conditions *)

Lemma ltR_true (a b : R) : a < b -> ltR a b = true.
Proof. intros H; unfold ltR; destruct (Rlt_dec a b); [reflexivity | contradiction]. Qed.

Lemma ltR_false (a b : R) : b <= a -> ltR a b = false.
Proof. intros H; unfold ltR; destruct (Rlt_dec a b); [lra | reflexivity]. Qed.

Lemma leR_true (a b : R) : a <= b -> leR a b = true.
Proof. intros H; unfold leR; destruct (Rle_dec a b); [reflexivity | contradiction]. Qed.

Lemma leR_false (a b : R) : b < a -> leR a b = false.
Proof. intros H; unfold leR; destruct (Rle_dec a b); [lra | reflexivity]. Qed.

Lemma gtR_true (a b : R) : a > b -> gtR a b = true.
Proof. intros H; unfold gtR; destruct (Rgt_dec a b); [reflexivity | contradiction]. Qed.

Lemma gtR_false (a b : R) : a <= b -> gtR a b = false.
Proof. intros H; unfold gtR; destruct (Rgt_dec a b); [lra | reflexivity]. Qed.

Lemma truthy_zero : truthy 0 = false.
Proof. unfold truthy; destruct (Req_dec_T 0 0); [reflexivity | contradiction]. Qed.

Lemma truthy_nonzero (v : R) : v <> 0 -> truthy v = true.
Proof. intros H; unfold truthy; destruct (Req_dec_T v 0); [contradiction | reflexivity]. Qed.

(** ** utils.ts *)

Lemma clamp_bounds (n a b : R) : a <= b -> a <= clamp n a b <= b.
Proof.
  intros Hab; unfold clamp, Rmax, Rmin.
  destruct (Rle_dec b n); destruct (Rle_dec a _); lra.
Qed.

Lemma clamp_inside (n a b : R) : a <= n <= b -> clamp n a b = n.
Proof.
  intros [Ha Hb]; unfold clamp, Rmax, Rmin.
  destruct (Rle_dec b n); destruct (Rle_dec a _); lra.
Qed.

Lemma lerp_one (y1 y2 : R) : lerp y1 y2 (1 - 0) = y2.
Proof. unfold lerp; ring. Qed.

Lemma lerp_zero (y1 y2 : R) : lerp y1 y2 (1 - 1) = y1.
Proof. unfold lerp; ring. Qed.

Lemma hypot_nonneg (a b : R) : 0 <= hypot a b.
Proof. apply sqrt_pos. Qed.

Lemma getDistance_norm (p q : Vec) :
  getDistance p q = sqrt ((fst q - fst p)² + (snd q - snd p)²).
Proof. unfold getDistance, hypot, Rsqr; f_equal; ring. Qed.

Lemma getDistance_sym (p q : Vec) : getDistance p q = getDistance q p.
Proof. rewrite !getDistance_norm; f_equal; unfold Rsqr; ring. Qed.

(** A projected point is at distance [|d|] from its centre. *)
Lemma projectPoint_distance (p0 : Vec) (a d : R) :
  getDistance (projectPoint p0 a d) p0 = Rabs d.
Proof.
  rewrite getDistance_norm; unfold projectPoint; cbn [fst snd].
  replace ((fst p0 - (cos a * d + fst p0))² + (snd p0 - (sin a * d + snd p0))²)
    with (((sin a)² + (cos a)²) * d²) by (unfold Rsqr; ring).
  rewrite sin2_cos2, Rmult_1_l.
  apply sqrt_Rsqr_abs.
Qed.

(** ** getStrokeRadius *)

(** C4.  When [thinning] is absent, [getStrokeRadius] returns [size / 2]
    for every size, every easing function and every pressure (given or
    not, so in particular for every pressure in the interval from 0 to 1):
    pressure and easing are ignored. *)
Theorem getStrokeRadius_thinning_absent :
  forall (size : R) (easing : R -> R) (pressure : option R),
    getStrokeRadius size None easing pressure = size / 2.
Proof. intros size easing pressure; reflexivity. Qed.

(** The value of [getStrokeRadius] under the identity easing, for a
    pressure already between 0 and 1. *)
Lemma getStrokeRadius_identity (size thinning p : R) :
  0 <= p <= 1 ->
  getStrokeRadius size (Some thinning) (fun t => t) (Some p) =
  (if Rlt_dec thinning 0
   then size + size * clamp thinning (-0.95) (-0.05) * p
   else size - size * clamp thinning 0.05 0.95 * (1 - p)) / 2.
Proof.
  intros Hp; unfold getStrokeRadius; cbn [default].
  rewrite (clamp_inside p 0 1 Hp).
  destruct (Rlt_dec thinning 0); unfold lerp; f_equal; ring.
Qed.

(** C5.  With the identity easing and a positive size: for a thinning in
    [0, 1] the radius does not decrease when the pressure grows within
    [0, 1]; for a thinning in [-1, 0) it does not increase. *)
Theorem getStrokeRadius_monotone :
  forall size thinning p q : R,
    0 < size -> 0 <= p -> p <= q -> q <= 1 ->
    (0 <= thinning <= 1 ->
     getStrokeRadius size (Some thinning) (fun t => t) (Some p) <=
     getStrokeRadius size (Some thinning) (fun t => t) (Some q)) /\
    (-1 <= thinning < 0 ->
     getStrokeRadius size (Some thinning) (fun t => t) (Some q) <=
     getStrokeRadius size (Some thinning) (fun t => t) (Some p)).
Proof.
  intros size thinning p q Hsize Hp Hpq Hq.
  rewrite !getStrokeRadius_identity by lra.
  split; intros Ht; destruct (Rlt_dec thinning 0); try lra.
  - pose proof (clamp_bounds thinning 0.05 0.95 ltac:(lra)) as Hc.
    assert (0 <= size * clamp thinning 0.05 0.95 * (q - p))
      by (apply Rmult_le_pos; [apply Rmult_le_pos|]; lra).
    lra.
  - pose proof (clamp_bounds thinning (-0.95) (-0.05) ltac:(lra)) as Hc.
    assert (0 <= size * (- clamp thinning (-0.95) (-0.05)) * (q - p))
      by (apply Rmult_le_pos; [apply Rmult_le_pos|]; lra).
    lra.
Qed.

(** C5 at [size = 8], pressures 0 and 1, thinning 0.5 and -0.5. *)
Lemma getStrokeRadius_monotone_witness :
  getStrokeRadius 8 (Some 0.5) (fun t => t) (Some 0) <=
  getStrokeRadius 8 (Some 0.5) (fun t => t) (Some 1) /\
  getStrokeRadius 8 (Some (-0.5)) (fun t => t) (Some 1) <=
  getStrokeRadius 8 (Some (-0.5)) (fun t => t) (Some 0).
Proof.
  split.
  - apply (getStrokeRadius_monotone 8 0.5 0 1); lra.
  - apply (getStrokeRadius_monotone 8 (-0.5) 0 1); lra.
Defined.

(** ** getStrokePoints *)

Lemma resample_length (k : R) (rest : list Sample) :
  forall prev, length (resample k prev rest) = length rest.
Proof.
  induction rest as [|c rest IH]; intros prev; cbn [resample length].
  - reflexivity.
  - now rewrite IH.
Qed.

Lemma resample_distance_nonneg (k : R) (rest : list Sample) :
  forall prev, Forall (fun p => 0 <= ptDistance p) (resample k prev rest).
Proof.
  induction rest as [|c rest IH]; intros prev; cbn [resample].
  - constructor.
  - constructor; [apply hypot_nonneg | apply IH].
Qed.

Lemma resample_steps (k : R) (rest : list Sample) :
  forall prev, Forall stepIsNorm (neighbours (prev :: resample k prev rest)).
Proof.
  induction rest as [|c rest IH]; intros prev.
  - constructor.
  - cbn [resample]. unfold neighbours; cbn [List.tl combine].
    constructor.
    + unfold stepIsNorm; cbn [ptDistance ptX ptY].
      rewrite getDistance_sym, getDistance_norm. reflexivity.
    + apply IH.
Qed.

Lemma resample_above (k : R) (rest : list Sample) :
  forall prev,
    Forall (fun p => ptLength prev <= ptLength p) (resample k prev rest).
Proof.
  induction rest as [|c rest IH]; intros prev; cbn [resample].
  - constructor.
  - set (curr := mkPoint _ _ _ _ _ _).
    assert (Hstep : ptLength prev <= ptLength curr).
    { subst curr; cbn [ptLength].
      pose proof (hypot_nonneg
        (snd (pos prev) - snd (lerp (ptX prev) (sampleX c) (1 - k),
                               lerp (ptY prev) (sampleY c) (1 - k)))
        (fst (pos prev) - fst (lerp (ptX prev) (sampleX c) (1 - k),
                               lerp (ptY prev) (sampleY c) (1 - k)))) as H.
      unfold getDistance. lra. }
    constructor; [exact Hstep|].
    eapply Forall_impl; [|apply (IH curr)].
    cbv beta; intros p Hp; lra.
Qed.

Lemma resample_sorted (k : R) (rest : list Sample) :
  forall prev,
    StronglySorted Rle (map ptLength (prev :: resample k prev rest)).
Proof.
  induction rest as [|c rest IH]; intros prev.
  - cbn. constructor; constructor.
  - cbn [map]. constructor.
    + exact (IH _).
    + apply (proj2 (Forall_map ptLength (Rle (ptLength prev)) _)).
      apply (resample_above k (c :: rest)).
Qed.

(** C3.  For every input and every streamline value (given or not), the
    result of [getStrokePoints] starts with angle 0, distance 0 and
    cumulative length 0; every distance is non-negative; the distance of
    each point after the first is the Euclidean norm between its resampled
    position and the resampled position before it; and the cumulative
    lengths do not decrease along the whole sequence. *)
Theorem getStrokePoints_invariants :
  forall (points : list RawPoint) (streamline : option R),
    let out := getStrokePoints points streamline in
    startsAtZero out /\
    Forall (fun p => 0 <= ptDistance p) out /\
    Forall stepIsNorm (neighbours out) /\
    StronglySorted Rle (map ptLength out).
Proof.
  intros points streamline; unfold getStrokePoints.
  destruct (toPointsArray points) as [|p0 rest]; cbn zeta.
  - repeat split; constructor.
  - repeat split.
    + constructor; [cbn; lra | apply resample_distance_nonneg].
    + apply resample_steps.
    + apply resample_sorted.
Qed.

Lemma resample_streamline_zero (rest : list Sample) :
  forall prev,
    map pos (resample 0 prev rest) =
    map (fun c => (sampleX c, sampleY c)) rest.
Proof.
  induction rest as [|c rest IH]; intros prev; cbn [resample map].
  - reflexivity.
  - rewrite IH. unfold pos at 1; cbn [ptX ptY]. now rewrite !lerp_one.
Qed.

Lemma resample_streamline_one (rest : list Sample) :
  forall prev, Forall (fun p => pos p = pos prev) (resample 1 prev rest).
Proof.
  induction rest as [|c rest IH]; intros prev; cbn [resample].
  - constructor.
  - rewrite !lerp_zero. constructor.
    + reflexivity.
    + eapply Forall_impl; [|apply IH].
      cbv beta; intros p Hp; rewrite Hp; reflexivity.
Qed.

Lemma toPointsArray_positions (points : list RawPoint) :
  map (fun c => (sampleX c, sampleY c)) (toPointsArray points) =
  map rawPos points.
Proof.
  unfold toPointsArray; rewrite map_map.
  apply map_ext; intros [x y p | x y p]; reflexivity.
Qed.

(** C8.  With [streamline = 0] the positions of the result are the raw
    positions of the input, one for one.  With [streamline = 1] every
    position of the result is the position of the first input point. *)
Theorem getStrokePoints_streamline_extremes :
  forall points : list RawPoint,
    map pos (getStrokePoints points (Some 0)) = map rawPos points /\
    match points with
    | [] => getStrokePoints points (Some 1) = []
    | p0 :: _ =>
        Forall (fun p => pos p = rawPos p0) (getStrokePoints points (Some 1))
    end.
Proof.
  intros points; split.
  - rewrite <- toPointsArray_positions. unfold getStrokePoints; cbn [default].
    destruct (toPointsArray points) as [|c rest]; [reflexivity|].
    cbn [map]. now rewrite resample_streamline_zero.
  - destruct points as [|p0 rest]; [reflexivity|].
    unfold getStrokePoints; cbn [default toPointsArray map].
    set (c := match p0 with ArrayPoint _ _ _ => _ | ObjectPoint _ _ _ => _ end).
    assert (Hc : (sampleX c, sampleY c) = rawPos p0)
      by (subst c; destruct p0; reflexivity).
    constructor.
    + exact Hc.
    + rewrite <- Hc. apply (resample_streamline_one _ (mkPoint _ _ _ _ _ _)).
Qed.

Lemma orElse_zero (d : R) : orElse 0 d = d.
Proof. unfold orElse; now rewrite truthy_zero. Qed.

(** C10.  A first input point with the reported pressure 0 leaves
    [getStrokePoints] with the pressure 0.5, and the whole result is the
    one of the same input with no pressure on the first point: the two are
    not told apart. *)
Theorem getStrokePoints_first_pressure_zero :
  forall (x y : R) (rest : list RawPoint) (streamline : option R),
    (exists tail,
        getStrokePoints (ArrayPoint x y (Some 0) :: rest) streamline =
        mkPoint x y 0.5 0 0 0 :: tail) /\
    (exists tail,
        getStrokePoints (ObjectPoint x y (Some 0) :: rest) streamline =
        mkPoint x y 0.5 0 0 0 :: tail) /\
    getStrokePoints (ArrayPoint x y (Some 0) :: rest) streamline =
    getStrokePoints (ArrayPoint x y None :: rest) streamline /\
    getStrokePoints (ObjectPoint x y (Some 0) :: rest) streamline =
    getStrokePoints (ObjectPoint x y None :: rest) streamline.
Proof.
  intros x y rest streamline.
  unfold getStrokePoints; cbn [toPointsArray map default sampleX sampleY samplePressure].
  rewrite orElse_zero.
  assert (H5 : orElse 0.5 0.5 = 0.5).
  { unfold orElse; rewrite truthy_nonzero by lra; reflexivity. }
  rewrite H5.
  repeat split; eexists; reflexivity.
Qed.

(** ** The cap loops *)

Lemma steps_length (n : nat) (step : R) : forall t, length (steps n step t) = n.
Proof. induction n as [|n IH]; intros t; cbn; [reflexivity | now rewrite IH]. Qed.

(** With fuel for more than [n] turns, a loop whose first [n] values of [t]
    pass the test [t <= 1] and whose next value fails it makes exactly
    those [n] turns. *)
Lemma forT_steps {S : Type} (body : R -> S -> S) (step : R) (n : nat) :
  forall (fuel : nat) (t : R) (s : S),
    (n < fuel)%nat ->
    Forall (fun u => u <= 1) (steps n step t) ->
    1 < t + INR n * step ->
    forT fuel step t body s =
    Ok (fold_left (fun s u => body u s) (steps n step t) s).
Proof.
  induction n as [|n IH]; intros fuel t s Hfuel Hin Hout.
  - destruct fuel as [|fuel]; [lia|].
    cbn [forT steps fold_left]. cbn [INR] in Hout.
    rewrite leR_false by lra. reflexivity.
  - destruct fuel as [|fuel]; [lia|].
    cbn [steps] in Hin. inversion Hin as [|u us Ht Hrest]; subst.
    cbn [forT steps fold_left]. rewrite leR_true by exact Ht.
    apply IH.
    + lia.
    + exact Hrest.
    + rewrite S_INR in Hout. lra.
Qed.

Lemma steps_tenths : steps 11 0.1 0 = tenths.
Proof. cbn [steps]; unfold tenths; repeat (f_equal; try lra). Qed.

Lemma steps_quarters : steps 5 0.25 0 = quarters.
Proof. cbn [steps]; unfold quarters; repeat (f_equal; try lra). Qed.

(** The loops with [step = 0.1] make 11 turns and those with
    [step = 0.25] make 5, whatever the fuel above that. *)
Lemma forT_tenth {S : Type} (body : R -> S -> S) (fuel : nat) (s : S) :
  (11 < fuel)%nat ->
  forT fuel 0.1 0 body s = Ok (fold_left (fun s u => body u s) tenths s).
Proof.
  intros Hfuel. rewrite <- steps_tenths. apply forT_steps.
  - exact Hfuel.
  - rewrite steps_tenths; unfold tenths; repeat constructor; lra.
  - cbn [INR]. lra.
Qed.

Lemma forT_quarter {S : Type} (body : R -> S -> S) (fuel : nat) (s : S) :
  (5 < fuel)%nat ->
  forT fuel 0.25 0 body s = Ok (fold_left (fun s u => body u s) quarters s).
Proof.
  intros Hfuel. rewrite <- steps_quarters. apply forT_steps.
  - exact Hfuel.
  - rewrite steps_quarters; unfold quarters; repeat constructor; lra.
  - cbn [INR]. lra.
Qed.

Lemma last_cons {A : Type} (l : list A) : forall a d, last (a :: l) d = last l a.
Proof.
  induction l as [|b l IH]; intros a d; [reflexivity|].
  change (last (a :: b :: l) d) with (last (b :: l) d).
  rewrite (IH b d), (IH b a). reflexivity.
Qed.

(** A cap on both ribs: each turn projects one point per side, at the
    angle and radius of the state, pushes both and makes them the test
    points. *)
Lemma fold_cap_both (f g : R -> R -> R -> Vec) (ts : list R) :
  forall s : Tracer.state,
    fold_left
      (fun s t =>
         let l := f (Tracer.pa s) (Tracer.r s) t in
         let rt := g (Tracer.pa s) (Tracer.r s) t in
         pushRight rt (pushLeft l (setTr rt (setTl l s)))) ts s =
    Tracer.mk
      (Tracer.leftPts s ++ map (f (Tracer.pa s) (Tracer.r s)) ts)
      (Tracer.rightPts s ++ map (g (Tracer.pa s) (Tracer.r s)) ts)
      (Tracer.pl s) (Tracer.pr s)
      (last (map (f (Tracer.pa s) (Tracer.r s)) ts) (Tracer.tl s))
      (last (map (g (Tracer.pa s) (Tracer.r s)) ts) (Tracer.tr s))
      (Tracer.pa s) (Tracer.pp s) (Tracer.r s) (Tracer.short s).
Proof.
  induction ts as [|t ts IH]; intros [lp rp pl pr tl tr pa pp r short].
  - cbn. now rewrite !app_nil_r.
  - cbn [fold_left map]. rewrite IH.
    cbn [pushRight pushLeft setTr setTl Tracer.leftPts Tracer.rightPts
         Tracer.pl Tracer.pr Tracer.tl Tracer.tr Tracer.pa Tracer.pp
         Tracer.r Tracer.short].
    rewrite <- !app_assoc, !last_cons. reflexivity.
Qed.

(** A cap on the left rib only (the start cap). *)
Lemma fold_cap_left (f : R -> R -> Vec) (ts : list R) :
  forall s : Tracer.state,
    fold_left
      (fun s t => let q := f (Tracer.r s) t in pushLeft q (setTl q s)) ts s =
    Tracer.mk
      (Tracer.leftPts s ++ map (f (Tracer.r s)) ts) (Tracer.rightPts s)
      (Tracer.pl s) (Tracer.pr s)
      (last (map (f (Tracer.r s)) ts) (Tracer.tl s)) (Tracer.tr s)
      (Tracer.pa s) (Tracer.pp s) (Tracer.r s) (Tracer.short s).
Proof.
  induction ts as [|t ts IH]; intros [lp rp pl pr tl tr pa pp r short].
  - cbn. now rewrite !app_nil_r.
  - cbn [fold_left map]. rewrite IH.
    cbn [pushLeft setTl Tracer.leftPts Tracer.rightPts
         Tracer.pl Tracer.pr Tracer.tl Tracer.tr Tracer.pa Tracer.pp
         Tracer.r Tracer.short].
    rewrite <- !app_assoc, !last_cons. reflexivity.
Qed.

(** A cap on the right rib only (the end cap). *)
Lemma fold_cap_right (g : R -> R -> Vec) (ts : list R) :
  forall s : Tracer.state,
    fold_left (fun s t => pushRight (g (Tracer.r s) t) s) ts s =
    Tracer.mk
      (Tracer.leftPts s) (Tracer.rightPts s ++ map (g (Tracer.r s)) ts)
      (Tracer.pl s) (Tracer.pr s) (Tracer.tl s) (Tracer.tr s)
      (Tracer.pa s) (Tracer.pp s) (Tracer.r s) (Tracer.short s).
Proof.
  induction ts as [|t ts IH]; intros [lp rp pl pr tl tr pa pp r short].
  - cbn. now rewrite !app_nil_r.
  - cbn [fold_left map]. rewrite IH.
    cbn [pushRight Tracer.leftPts Tracer.rightPts
         Tracer.pl Tracer.pr Tracer.tl Tracer.tr Tracer.pa Tracer.pp
         Tracer.r Tracer.short].
    rewrite <- !app_assoc. reflexivity.
Qed.

(** ** getStrokeOutlinePoints: the empty sequence *)

(** C1.  On the empty sequence [getStrokeOutlinePoints] does not return
    the empty outline: [points[len - 1]] is [points[-1]], which is
    [undefined], and reading its index 5 throws before the test
    [len === 0] is reached.  This holds for every options value, and
    [getStroke] on no points fails the same way, since the resampler hands
    the empty sequence on. *)
Theorem getStrokeOutlinePoints_empty_throws :
  forall options : StrokeOptions,
    getStrokeOutlinePoints [] options = TypeError /\
    getStroke [] options = TypeError.
Proof. intros options; split; reflexivity. Qed.

(** ** getStrokeOutlinePoints: a single point *)

(** On a single point the outline is the two sweeps of the dot branch. *)
Lemma getStrokeOutlinePoints_single (p : StrokePoint) (options : StrokeOptions) :
  getStrokeOutlinePoints [p] options =
  Ok (map (fun t => projectPoint (pos p)
                      (getAngle (pos p) (pos p) + PI + TAU - t * PI)
                      (dotRadius options (ptPressure p))) tenths ++
      map (fun t => projectPoint (pos p)
                      (getAngle (pos p) (pos p) + TAU - t * PI)
                      (dotRadius options (ptPressure p))) tenths).
Proof.
  unfold getStrokeOutlinePoints, dotRadius.
  change (Z.of_nat (length [p])) with 1%Z.
  change (index [p] (1 - 1)) with (Some p).
  change (index [p] 0) with (Some p).
  cbn [defined bind Z.eqb Pos.eqb orb].
  rewrite forT_tenth by (unfold capFuel; lia).
  cbn [bind].
  rewrite (fold_cap_both
             (fun _ r t => projectPoint (pos p)
                             (getAngle (pos p) (pos p) + PI + TAU - t * PI) r)
             (fun _ r t => projectPoint (pos p)
                             (getAngle (pos p) (pos p) + TAU - t * PI) r)).
  destruct (truthy (default 0.5 (optThinning options))); reflexivity.
Qed.

Lemma getStrokeRadius_positive (size thinning : R) (easing : R -> R)
    (pressure : option R) :
  0 < size -> 0 < getStrokeRadius size (Some thinning) easing pressure.
Proof.
  intros Hsize; unfold getStrokeRadius, lerp.
  pose proof (clamp_bounds (easing (default 0.5 pressure)) 0 1 ltac:(lra)) as Hp.
  set (p := clamp _ 0 1) in *.
  destruct (Rlt_dec thinning 0).
  - pose proof (clamp_bounds thinning (-0.95) (-0.05) ltac:(lra)) as Hc.
    set (c := clamp thinning _ _) in *.
    assert (0 <= size * (- c) * p)
      by (apply Rmult_le_pos; [apply Rmult_le_pos|]; lra).
    assert (size * (- c) * p <= size * 0.95).
    { replace (size * 0.95) with (size * 0.95 * 1) by ring.
      apply Rmult_le_compat; try lra.
      - apply Rmult_le_pos; lra.
      - apply Rmult_le_compat_l; lra. }
    lra.
  - pose proof (clamp_bounds thinning 0.05 0.95 ltac:(lra)) as Hc.
    set (c := clamp thinning _ _) in *.
    assert (0 <= size * (1 - c) * (1 - p))
      by (apply Rmult_le_pos; [apply Rmult_le_pos|]; lra).
    assert (0 <= size * p) by (apply Rmult_le_pos; lra).
    assert (0 < size * (1 - c)) by (apply Rmult_lt_0_compat; lra).
    nra.
Qed.

Lemma dotRadius_positive (options : StrokeOptions) (pressure : R) :
  0 < default 8 (optSize options) -> 0 < dotRadius options pressure.
Proof.
  intros Hsize; unfold dotRadius.
  destruct (truthy _); [now apply getStrokeRadius_positive | lra].
Qed.

(** C6.  For the single input point (0, 0, 0.5), [size = 8] and any
    thinning (given or not) and any other options, the outline has exactly
    22 points: the 11 points of the sweep around the first point followed
    by the 11 points of the sweep around the last point, all projected at
    the dot radius, and every point is within that radius of (0, 0).  The
    dot radius is the radius function at the pressure 0.5 of the sample
    when thinning is truthy, and [size / 2] otherwise. *)
Theorem getStroke_single_point_dot :
  forall (thinning smoothing streamline : option R)
         (simulatePressure : option bool) (easing : option (R -> R)),
    let options :=
      mkOptions (Some 8) thinning smoothing streamline simulatePressure easing in
    let radius := dotRadius options 0.5 in
    let angle := getAngle (0, 0) (0, 0) in
    exists outline : list Vec,
      getStroke [ArrayPoint 0 0 (Some 0.5)] options = Ok outline /\
      outline =
        map (fun t => projectPoint (0, 0) (angle + PI + TAU - t * PI) radius)
            tenths ++
        map (fun t => projectPoint (0, 0) (angle + TAU - t * PI) radius)
            tenths /\
      length outline = 22%nat /\
      Forall (fun q => getDistance q (0, 0) <= radius) outline.
Proof.
  intros thinning smoothing streamline simulatePressure easing options radius angle.
  assert (Hpts : getStrokePoints [ArrayPoint 0 0 (Some 0.5)] streamline =
                 [mkPoint 0 0 0.5 0 0 0]).
  { unfold getStrokePoints, orElse.
    cbn [toPointsArray map default sampleX sampleY samplePressure resample].
    rewrite truthy_nonzero by lra. reflexivity. }
  eexists. split; [|split; [reflexivity|split]].
  - unfold getStroke. cbn [optStreamline options]. rewrite Hpts.
    apply getStrokeOutlinePoints_single.
  - reflexivity.
  - assert (Hr : 0 < radius) by (apply dotRadius_positive; cbn; lra).
    apply Forall_app; split; apply Forall_map, Forall_forall; intros t _;
      rewrite projectPoint_distance, Rabs_pos_eq; lra.
Qed.

(** ** Thinning 0: the tracer is the reference at radius [size / 2] *)

(** Assignments to the variables of the tracer, carried out. *)
Ltac tracer_simpl :=
  cbn [setPl setPr setTl setTr setPa setPp setR setShort pushLeft pushRight
       Tracer.leftPts Tracer.rightPts Tracer.pl Tracer.pr Tracer.tl Tracer.tr
       Tracer.pa Tracer.pp Tracer.r Tracer.short
       erase Plain.leftPts Plain.rightPts Plain.tl Plain.tr Plain.pa
       Plain.short].

Section ThinningOff.

Variables (size smoothing : R).
Variable simulatePressure : bool.
Variable easing : R -> R.
Variable points : list StrokePoint.
Variable first : StrokePoint.
Hypothesis points_first : index points 0 = Some first.

Lemma traceCorner_plain (cur next : StrokePoint) (pressure : R)
    (s : Tracer.state) :
  exists s',
    traceCorner size smoothing (ptX cur) (ptY cur) pressure (ptAngle cur)
                (Some next) s = Ok s' /\
    erase s' = plainCorner (Tracer.r s) size smoothing cur next (erase s) /\
    Tracer.r s' = Tracer.r s.
Proof.
  unfold traceCorner, plainCorner. cbn [defined bind].
  destruct (gtR (Rabs (getAngleDelta (ptAngle next) (ptAngle cur))) SHARP).
  - rewrite forT_quarter by (unfold capFuel; lia).
    rewrite (fold_cap_both
               (fun pa r t => projectPoint (ptX cur, ptY cur)
                                (pa - TAU + t * - PI) r)
               (fun pa r t => projectPoint (ptX cur, ptY cur)
                                (pa + TAU + t * PI) r)).
    eexists; split; [reflexivity|]. destruct s; split; reflexivity.
  - eexists; split; [reflexivity|].
    destruct s as [lp rp pl pr tl tr pa pp r short].
    tracer_simpl. fold (pos cur).
    destruct (gtR _ DULL || gtR (getDistance _ tl) _); tracer_simpl;
      destruct (gtR _ DULL || gtR (getDistance _ tr) _); tracer_simpl;
      split; reflexivity.
Qed.

Lemma traceSample_plain (cur next : StrokePoint) (s : Tracer.state) :
  exists s',
    traceSample size 0 smoothing simulatePressure easing points
                cur (Some next) s = Ok s' /\
    erase s' = plainSample (Tracer.r s) size smoothing (pos first)
                           cur next (erase s) /\
    Tracer.r s' = Tracer.r s.
Proof.
  destruct cur as [x y pressure angle distance clen].
  unfold traceSample, plainSample. rewrite truthy_zero.
  cbn [erase Plain.short ptLength ptAngle].
  destruct (Tracer.short s) eqn:Hshort.
  - destruct (ltR clen (size / 4)).
    + eexists; split; [reflexivity|]. split; reflexivity.
    + rewrite points_first. cbn [defined bind].
      rewrite forT_tenth by (unfold capFuel; lia). cbn [bind].
      rewrite (fold_cap_left
                 (fun r t => projectPoint (pos first) (angle + TAU - t * PI) r)).
      destruct s as [lp rp pl pr tl tr pa pp r short].
      tracer_simpl.
      apply (traceCorner_plain (mkPoint x y pressure angle distance clen) next).
  - apply (traceCorner_plain (mkPoint x y pressure angle distance clen) next).
Qed.

End ThinningOff.

(** ** Indexing *)

Lemma index_app_head {A : Type} (pre l : list A) (x : A) :
  index (pre ++ x :: l) (Z.of_nat (length pre)) = Some x.
Proof.
  unfold index.
  destruct (Z.ltb_spec (Z.of_nat (length pre)) 0) as [H|_]; [lia|].
  rewrite Nat2Z.id, nth_error_app2 by lia.
  now rewrite Nat.sub_diag.
Qed.

Lemma index_app_next {A : Type} (pre l : list A) (x y : A) :
  index (pre ++ x :: y :: l) (Z.of_nat (length pre) + 1) = Some y.
Proof.
  replace (pre ++ x :: y :: l) with ((pre ++ [x]) ++ y :: l)
    by (rewrite <- app_assoc; reflexivity).
  replace (Z.of_nat (length pre) + 1)%Z with (Z.of_nat (length (pre ++ [x])))
    by (rewrite length_app; cbn [length]; lia).
  apply index_app_head.
Qed.

Lemma index_last {A : Type} (first : A) (rest : list A) :
  index (first :: rest) (Z.of_nat (length (first :: rest)) - 1) =
  Some (last rest first).
Proof.
  destruct (exists_last (l := first :: rest) ltac:(discriminate))
    as [pre [x Hx]].
  assert (Hlast : last rest first = x).
  { rewrite <- (last_cons rest first first), Hx. apply last_last. }
  rewrite Hlast, Hx.
  replace (Z.of_nat (length (pre ++ [x])) - 1)%Z with (Z.of_nat (length pre))
    by (rewrite length_app; cbn [length]; lia).
  apply index_app_head.
Qed.

Section ThinningOffLoop.

Variables (size smoothing : R).
Variable simulatePressure : bool.
Variable easing : R -> R.
Variable points : list StrokePoint.
Variable first : StrokePoint.
Hypothesis points_first : index points 0 = Some first.

(** The main loop from index [length pre] on, where [l] is what is left
    of [points] from that index. *)
Lemma traceLoop_plain (l : list StrokePoint) :
  forall (pre : list StrokePoint) (fuel : nat) (s : Tracer.state),
    points = pre ++ l ->
    (length l < fuel)%nat ->
    exists s',
      traceLoop size 0 smoothing simulatePressure easing points
                fuel (Z.of_nat (length pre)) s = Ok s' /\
      erase s' = plainLoop (Tracer.r s) size smoothing (pos first) l (erase s) /\
      Tracer.r s' = Tracer.r s.
Proof.
  induction l as [|cur l IH]; intros pre fuel s Hpts Hfuel;
    (destruct fuel as [|fuel]; [cbn [length] in Hfuel; lia|]);
    cbn [traceLoop].
  - replace (Z.of_nat (length pre) <? Z.of_nat (length points) - 1)%Z
      with false.
    + eexists; repeat split; reflexivity.
    + symmetry; apply Z.ltb_ge. rewrite Hpts, length_app. cbn [length]. lia.
  - destruct l as [|next l].
    + replace (Z.of_nat (length pre) <? Z.of_nat (length points) - 1)%Z
        with false.
      * eexists; repeat split; reflexivity.
      * symmetry; apply Z.ltb_ge. rewrite Hpts, length_app. cbn [length]. lia.
    + replace (Z.of_nat (length pre) <? Z.of_nat (length points) - 1)%Z
        with true
        by (symmetry; apply Z.ltb_lt; rewrite Hpts, length_app;
            cbn [length]; lia).
      assert (Hcur : index points (Z.of_nat (length pre)) = Some cur)
        by (rewrite Hpts; apply index_app_head).
      assert (Hnext : index points (Z.of_nat (length pre) + 1) = Some next)
        by (rewrite Hpts; apply index_app_next).
      rewrite Hcur, Hnext. cbn [defined bind].
      destruct (traceSample_plain size smoothing simulatePressure easing
                  points first points_first cur next s)
        as [s1 [Hs1 [He1 Hr1]]].
      rewrite Hs1. cbn [bind].
      destruct (IH (pre ++ [cur]) fuel s1) as [s2 [Hs2 [He2 Hr2]]].
      * rewrite Hpts, <- app_assoc. reflexivity.
      * cbn [length] in *. lia.
      * rewrite length_app in Hs2. cbn [length] in Hs2.
        replace (Z.of_nat (length pre) + 1)%Z
          with (Z.of_nat (length pre + 1)) by lia.
        exists s2. split; [exact Hs2|]. split.
        -- rewrite He2, He1, Hr1. reflexivity.
        -- now rewrite Hr2.
Qed.

End ThinningOffLoop.

Lemma getStrokeOutlinePoints_thinning_zero
    (first : StrokePoint) (rest : list StrokePoint) (options : StrokeOptions) :
  optThinning options = Some 0 ->
  getStrokeOutlinePoints (first :: rest) options =
  Ok (outlineAtRadius (default 8 (optSize options) / 2)
                      (default 8 (optSize options))
                      (default 0.5 (optSmoothing options)) first rest).
Proof.
  intros Hthin. unfold getStrokeOutlinePoints.
  rewrite Hthin. cbn [default]. rewrite truthy_zero, index_last.
  change (index (first :: rest) 0) with (Some first).
  cbn [defined bind].
  set (size := default 8 (optSize options)).
  set (smoothing := default 0.5 (optSmoothing options)).
  set (s0 := Tracer.mk [] [] (pos first) (pos first) (pos first) (pos first)
                       (ptAngle first) 0 (size / 2) true).
  replace (Z.of_nat (length (first :: rest)) =? 0)%Z with false
    by (symmetry; apply Z.eqb_neq; cbn [length]; lia).
  assert (Hdot :
    forT capFuel 0.1 0
      (fun t s =>
         let l := projectPoint (pos first)
                    (getAngle (pos first) (pos (last rest first))
                     + PI + TAU - t * PI) (Tracer.r s) in
         let rt := projectPoint (pos (last rest first))
                     (getAngle (pos first) (pos (last rest first))
                      + TAU - t * PI) (Tracer.r s) in
         pushRight rt (pushLeft l (setTr rt (setTl l s)))) s0 =
    Ok (fold_left
          (fun s t =>
             let l := projectPoint (pos first)
                        (getAngle (pos first) (pos (last rest first))
                         + PI + TAU - t * PI) (Tracer.r s) in
             let rt := projectPoint (pos (last rest first))
                         (getAngle (pos first) (pos (last rest first))
                          + TAU - t * PI) (Tracer.r s) in
             pushRight rt (pushLeft l (setTr rt (setTl l s)))) tenths s0))
    by (apply forT_tenth; unfold capFuel; lia).
  rewrite (fold_cap_both
             (fun _ r t => projectPoint (pos first)
                             (getAngle (pos first) (pos (last rest first))
                              + PI + TAU - t * PI) r)
             (fun _ r t => projectPoint (pos (last rest first))
                             (getAngle (pos first) (pos (last rest first))
                              + TAU - t * PI) r)) in Hdot.
  cbv zeta in Hdot.
  destruct rest as [|p rest].
  - change (Z.of_nat (length [first]) =? 1)%Z with true. cbn [orb].
    rewrite Hdot. reflexivity.
  - replace (Z.of_nat (length (first :: p :: rest)) =? 1)%Z with false
      by (symmetry; apply Z.eqb_neq; cbn [length]; lia).
    cbn [orb]. unfold outlineAtRadius.
    destruct (leR (ptLength (last (p :: rest) first)) (size / 4)).
    + rewrite Hdot. reflexivity.
    + destruct (traceLoop_plain size smoothing
                  (default true (optSimulatePressure options))
                  (default (fun t => t) (optEasing options))
                  (first :: p :: rest) first eq_refl
                  (p :: rest) [first] (length (first :: p :: rest)) s0
                  eq_refl ltac:(cbn [length]; lia))
        as [s1 [Hs1 [He1 Hr1]]].
      change (Z.of_nat (length [first])) with 1%Z in Hs1.
      rewrite Hs1. cbn [bind].
      rewrite forT_tenth by (unfold capFuel; lia). cbn [bind].
      rewrite (fold_cap_right
                 (fun r t => projectPoint (pos (last (p :: rest) first))
                               (ptAngle (last (p :: rest) first) + TAU + t * PI)
                               r)).
      cbn [Tracer.leftPts Tracer.rightPts].
      change (Tracer.leftPts s1) with (Plain.leftPts (erase s1)).
      change (Tracer.rightPts s1) with (Plain.rightPts (erase s1)).
      rewrite He1, Hr1. reflexivity.
Qed.

Lemma getStrokeRadius_thinning_zero (size : R) (easing : R -> R)
    (pressure : option R) :
  getStrokeRadius size (Some 0) easing pressure =
  (0.95 * size + 0.05 * size * clamp (easing (default 0.5 pressure)) 0 1) / 2.
Proof.
  unfold getStrokeRadius.
  destruct (Rlt_dec 0 0); [lra|].
  unfold lerp.
  replace (clamp 0 0.05 0.95) with 0.05
    by (unfold clamp, Rmax, Rmin; destruct (Rle_dec 0.95 0); [lra|];
        destruct (Rle_dec 0.05 0); lra).
  set (c := clamp _ 0 1). nra.
Qed.

(** C9.  With [thinning = 0] the outline of a sequence is exactly the
    outline at the constant radius [size / 2]: the reference reads no
    pressure, no easing and no [simulatePressure], so none of them has any
    effect.  (A sequence has a first point here; on the empty one the call
    throws whatever the options are, so there is no outline to compare.)  The
    radius function itself, at thinning 0, lies between [0.475 * size] and
    [0.5 * size] for a non-negative size and does depend on the pressure:
    it is [0.475 * size] at pressure 0 and [0.5 * size] at pressure 1
    under the identity easing. *)
Theorem getStrokeOutlinePoints_thinning_zero_constant_radius :
  forall (size smoothing streamline : option R)
         (simulatePressure : option bool) (easing : option (R -> R))
         (first : StrokePoint) (rest : list StrokePoint),
    getStrokeOutlinePoints (first :: rest)
      (mkOptions size (Some 0) smoothing streamline simulatePressure easing) =
    Ok (outlineAtRadius (default 8 size / 2) (default 8 size)
                        (default 0.5 smoothing) first rest) /\
    (forall (sz : R) (e : R -> R) (p : option R),
        0 <= sz ->
        0.475 * sz <= getStrokeRadius sz (Some 0) e p <= 0.5 * sz) /\
    (forall sz : R,
        getStrokeRadius sz (Some 0) (fun t => t) (Some 0) = 0.475 * sz /\
        getStrokeRadius sz (Some 0) (fun t => t) (Some 1) = 0.5 * sz).
Proof.
  intros size smoothing streamline simulatePressure easing first rest.
  split; [|split].
  - apply (getStrokeOutlinePoints_thinning_zero first rest
             (mkOptions size (Some 0) smoothing streamline simulatePressure easing)).
    reflexivity.
  - intros sz e p Hsz. rewrite getStrokeRadius_thinning_zero.
    pose proof (clamp_bounds (e (default 0.5 p)) 0 1 ltac:(lra)) as Hc.
    set (c := clamp _ 0 1) in *.
    assert (0 <= sz * c) by (apply Rmult_le_pos; lra).
    assert (sz * c <= sz * 1) by (apply Rmult_le_compat_l; lra).
    lra.
  - intros sz. rewrite !getStrokeRadius_thinning_zero. cbn [default].
    rewrite (clamp_inside 0 0 1), (clamp_inside 1 0 1) by lra.
    lra.
Qed.

(** C9, the bound, at [size = 8], the easing [t * t] and pressure 0.5. *)
Lemma getStrokeOutlinePoints_thinning_zero_constant_radius_witness :
  0.475 * 8 <= getStrokeRadius 8 (Some 0) (fun t => t * t) (Some 0.5) <= 0.5 * 8.
Proof.
  apply (getStrokeOutlinePoints_thinning_zero_constant_radius
           None None None None None (mkPoint 0 0 0.5 0 0 0) []).
  lra.
Defined.

(** ** Thinning absent *)

Lemma getAngle_same (p : Vec) : getAngle p p = 0.
Proof.
  unfold getAngle, atan2.
  replace (fst p - fst p) with 0 by ring.
  replace (snd p - snd p) with 0 by ring.
  destruct (Rlt_dec 0 0); [lra|]. reflexivity.
Qed.

Lemma dotRadius_default : dotRadius noOptions 0.5 = 3.
Proof.
  unfold dotRadius; cbn [default noOptions optSize optThinning optEasing].
  rewrite truthy_nonzero by lra.
  rewrite getStrokeRadius_identity by lra.
  destruct (Rlt_dec 0.5 0); [lra|].
  rewrite (clamp_inside 0.5 0.05 0.95) by lra. lra.
Qed.

(** C2, as stated, fails: with no [thinning] among the options the dot on
    the single point (0, 0, 0.5) is drawn at the radius 3, so the outline
    is neither the outline at the constant radius [size / 2 = 4] nor the
    outline the same call gives with [thinning = 0]. *)
Lemma thinning_absent_modulates :
  getStrokeOutlinePoints [dotSample] noOptions <>
  Ok (outlineAtRadius (8 / 2) 8 0.5 dotSample []) /\
  getStrokeOutlinePoints [dotSample] noOptions <>
  getStrokeOutlinePoints [dotSample]
    (mkOptions None (Some 0) None None None None).
Proof.
  assert (Hdiff : getStrokeOutlinePoints [dotSample] noOptions <>
                  Ok (outlineAtRadius (8 / 2) 8 0.5 dotSample [])).
  { rewrite getStrokeOutlinePoints_single. unfold dotSample.
    cbn [ptPressure]. rewrite dotRadius_default, getAngle_same.
    unfold outlineAtRadius. cbn [last]. rewrite getAngle_same.
    intros H.
    apply (f_equal (fun o => match o with
                             | Ok (q :: _) => snd q
                             | _ => 0
                             end)) in H.
    unfold tenths in H. cbn [map app projectPoint snd pos ptX ptY] in H.
    replace (0 + PI + TAU - 0 * PI) with (3 * (PI / 2)) in H
      by (unfold TAU; lra).
    rewrite sin_3PI2 in H. lra. }
  split; [exact Hdiff|].
  rewrite (getStrokeOutlinePoints_thinning_zero dotSample []
             (mkOptions None (Some 0) None None None None) eq_refl).
  exact Hdiff.
Qed.

(** C2, amended.  With no [thinning] among the options
    [getStrokeOutlinePoints] takes the default 0.5 of the destructuring
    pattern: the outline is the one of the same call with
    [thinning = 0.5], pressure modulation included.  On a single point,
    for instance, both sweeps are projected at the radius the radius
    function gives for thinning 0.5 and the pressure of the point. *)
Theorem getStrokeOutlinePoints_thinning_absent :
  forall (points : list StrokePoint) (size smoothing streamline : option R)
         (simulatePressure : option bool) (easing : option (R -> R)),
    let options :=
      mkOptions size None smoothing streamline simulatePressure easing in
    getStrokeOutlinePoints points options =
    getStrokeOutlinePoints points
      (mkOptions size (Some 0.5) smoothing streamline simulatePressure easing) /\
    forall p : StrokePoint,
      let radius := getStrokeRadius (default 8 size) (Some 0.5)
                      (default (fun t => t) easing) (Some (ptPressure p)) in
      getStrokeOutlinePoints [p] options =
      Ok (map (fun t => projectPoint (pos p)
                          (getAngle (pos p) (pos p) + PI + TAU - t * PI) radius)
              tenths ++
          map (fun t => projectPoint (pos p)
                          (getAngle (pos p) (pos p) + TAU - t * PI) radius)
              tenths).
Proof.
  intros points size smoothing streamline simulatePressure easing options.
  split; [reflexivity|].
  intros p radius. rewrite getStrokeOutlinePoints_single.
  unfold dotRadius. cbn [options default optSize optThinning optEasing].
  rewrite truthy_nonzero by lra. reflexivity.
Qed.

(** ** Sharp corners *)

Lemma traceCorner_sharp (size smoothing x y pressure angle : R)
    (next : StrokePoint) (s : Tracer.state) :
  Rabs (getAngleDelta (ptAngle next) angle) > SHARP ->
  traceCorner size smoothing x y pressure angle (Some next) s =
  Ok (Tracer.mk
        (Tracer.leftPts s ++
         map (fun t => projectPoint (x, y) (Tracer.pa s - TAU + t * - PI)
                                    (Tracer.r s)) quarters)
        (Tracer.rightPts s ++
         map (fun t => projectPoint (x, y) (Tracer.pa s + TAU + t * PI)
                                    (Tracer.r s)) quarters)
        (Tracer.pl s) (Tracer.pr s)
        (last (map (fun t => projectPoint (x, y) (Tracer.pa s - TAU + t * - PI)
                                          (Tracer.r s)) quarters) (Tracer.tl s))
        (last (map (fun t => projectPoint (x, y) (Tracer.pa s + TAU + t * PI)
                                          (Tracer.r s)) quarters) (Tracer.tr s))
        (Tracer.pa s) (Tracer.pp s) (Tracer.r s) (Tracer.short s)).
Proof.
  intros Hsharp. unfold traceCorner. cbn [defined bind].
  rewrite gtR_true by exact Hsharp.
  rewrite forT_quarter by (unfold capFuel; lia).
  rewrite (fold_cap_both
             (fun pa r t => projectPoint (x, y) (pa - TAU + t * - PI) r)
             (fun pa r t => projectPoint (x, y) (pa + TAU + t * PI) r)).
  reflexivity.
Qed.

(** A sample that is not held back by the minimum-length gate and whose
    angle differs from the next one by more than a quarter turn gets, on
    each rib, the fan of 5 points around the previous angle [pa] at the
    current radius; before the fan come the points of the start cap when
    the sample is the first past the gate, and nothing else.  [pa] and
    [pp] keep their values. *)
Lemma traceSample_sharp (size thinning smoothing : R)
    (simulatePressure : bool) (easing : R -> R) (points : list StrokePoint)
    (first cur next : StrokePoint) (s : Tracer.state) :
  index points 0 = Some first ->
  Rabs (getAngleDelta (ptAngle next) (ptAngle cur)) > SHARP ->
  Tracer.short s = false \/ size / 4 <= ptLength cur ->
  exists s' : Tracer.state,
    traceSample size thinning smoothing simulatePressure easing points
                cur (Some next) s = Ok s' /\
    Tracer.leftPts s' =
      Tracer.leftPts s ++
      (if Tracer.short s then startCapLeft first cur (Tracer.r s') else []) ++
      map (fun t => projectPoint (pos cur) (Tracer.pa s - TAU + t * - PI)
                                 (Tracer.r s')) quarters /\
    Tracer.rightPts s' =
      Tracer.rightPts s ++
      (if Tracer.short s then startCapRight first cur (Tracer.r s') else []) ++
      map (fun t => projectPoint (pos cur) (Tracer.pa s + TAU + t * PI)
                                 (Tracer.r s')) quarters /\
    Tracer.pa s' = Tracer.pa s /\
    Tracer.pp s' = Tracer.pp s /\
    Tracer.short s' = false.
Proof.
  intros Hfirst Hsharp Hgate.
  destruct cur as [x y pressure angle distance clen].
  destruct s as [lp rp pl pr tl tr pa pp r short].
  cbn [ptAngle ptLength Tracer.short] in *.
  unfold traceSample.
  destruct (truthy thinning); tracer_simpl;
    (destruct short;
     [ destruct Hgate as [Hgate | Hgate]; [discriminate|];
       rewrite ltR_false by exact Hgate;
       rewrite Hfirst; cbn [defined bind];
       rewrite forT_tenth by (unfold capFuel; lia); cbn [bind];
       rewrite (fold_cap_left
                  (fun r t => projectPoint (pos first) (angle + TAU - t * PI) r));
       tracer_simpl
     | ]);
    rewrite traceCorner_sharp by exact Hsharp;
    eexists; (split; [reflexivity|]); tracer_simpl;
    unfold startCapLeft, startCapRight, pos; cbn [ptX ptY ptAngle];
    rewrite <- ?app_assoc; repeat split; reflexivity.
Qed.

(** A sample below the minimum length, while the stroke is still short,
    only sets the radius. *)
Lemma traceSample_held_back (size thinning smoothing : R)
    (simulatePressure : bool) (easing : R -> R) (points : list StrokePoint)
    (cur : StrokePoint) (next : option StrokePoint) (s : Tracer.state) :
  Tracer.short s = true ->
  ptLength cur < size / 4 ->
  exists radius : R,
    traceSample size thinning smoothing simulatePressure easing points
                cur next s = Ok (setR radius s).
Proof.
  intros Hshort Hlen.
  destruct cur as [x y pressure angle distance clen].
  destruct s as [lp rp pl pr tl tr pa pp r short].
  cbn [ptLength Tracer.short] in *. subst short.
  unfold traceSample.
  destruct (truthy thinning); tracer_simpl;
    rewrite ltR_true by exact Hlen; eexists; reflexivity.
Qed.

(** ** The remainder and the angular delta of a half turn *)

Lemma truncate_IZR (z : Z) : truncate (IZR z) = z.
Proof.
  unfold truncate. destruct (Rle_dec 0 (IZR z)) as [Hz|Hz].
  - symmetry. apply Int_part_spec. lra.
  - rewrite <- (Int_part_spec (- IZR z) (- z)%Z); [lia|].
    rewrite opp_IZR. lra.
Qed.

Lemma truncate_small (x : R) : -1 < x < 1 -> truncate x = 0%Z.
Proof.
  intros Hx. unfold truncate. destruct (Rle_dec 0 x) as [H0|H0].
  - symmetry. apply Int_part_spec. cbn. lra.
  - rewrite <- (Int_part_spec (- x) 0%Z); [reflexivity|]. cbn. lra.
Qed.

(** An angle less than a full turn is its own remainder. *)
Lemma remainder_small (x m : R) : - m < x < m -> remainder x m = x.
Proof.
  intros Hx. unfold remainder. rewrite truncate_small; [cbn; lra|].
  assert (Hm : 0 < m) by lra.
  assert (Hi : 0 < / m) by (apply Rinv_0_lt_compat; exact Hm).
  unfold Rdiv. split.
  - replace (-1) with (- m * / m) by (field; lra).
    apply Rmult_lt_compat_r; lra.
  - replace 1 with (m * / m) by (field; lra).
    apply Rmult_lt_compat_r; lra.
Qed.

Lemma remainder_multiple (z : Z) (m : R) :
  m <> 0 -> remainder (IZR z * m) m = 0.
Proof.
  intros Hm. unfold remainder.
  replace (IZR z * m / m) with (IZR z) by (field; exact Hm).
  rewrite truncate_IZR. lra.
Qed.

Lemma getAngleDelta_half_turn :
  getAngleDelta 0 PI = - PI /\ getAngleDelta PI 0 = PI.
Proof.
  pose proof PI_RGT_0 as Hpi.
  unfold getAngleDelta. cbv zeta.
  rewrite !Rminus_0_r.
  replace (0 - PI) with (- PI) by lra.
  rewrite (remainder_small PI) by lra.
  rewrite (remainder_small (- PI)) by lra.
  replace (2 * PI) with (IZR 1 * (PI * 2)) by lra.
  replace (2 * - PI) with (IZR (-1) * (PI * 2)) by lra.
  rewrite !remainder_multiple by lra.
  split; lra.
Qed.

(** The delta of a stroke that turns back, as the loop takes it at the
    middle sample: from the angle 0 of the next sample to the angle [PI]
    of the current one. *)
Lemma getAngleDelta_reversal : Rabs (getAngleDelta 0 PI) > SHARP.
Proof.
  pose proof PI_RGT_0 as Hpi.
  rewrite (proj1 getAngleDelta_half_turn). unfold SHARP, TAU.
  rewrite Rabs_left by lra. lra.
Qed.

Lemma getAngle_along_x (x0 x1 y : R) :
  x0 < x1 -> getAngle (x0, y) (x1, y) = 0.
Proof.
  intros Hx. unfold getAngle, atan2; cbn [fst snd].
  destruct (Rlt_dec 0 (x1 - x0)); [|lra].
  replace ((y - y) / (x1 - x0)) with 0 by (field; lra). apply atan_0.
Qed.

Lemma getAngle_against_x (x0 x1 y : R) :
  x1 < x0 -> getAngle (x0, y) (x1, y) = PI.
Proof.
  intros Hx. unfold getAngle, atan2; cbn [fst snd].
  destruct (Rlt_dec 0 (x1 - x0)); [lra|].
  destruct (Rlt_dec (x1 - x0) 0); [|lra].
  destruct (Rle_dec 0 (y - y)); [|lra].
  replace ((y - y) / (x1 - x0)) with 0 by (field; lra).
  rewrite atan_0. lra.
Qed.

Lemma getDistance_along_x (x0 x1 y : R) :
  getDistance (x0, y) (x1, y) = Rabs (x1 - x0).
Proof.
  rewrite getDistance_norm; cbn [fst snd].
  replace ((x1 - x0)² + (y - y)²) with ((x1 - x0)²) by (unfold Rsqr; lra).
  apply sqrt_Rsqr_abs.
Qed.

(** [turnBack] is what the resampler makes of [rawTurnBack]. *)
Lemma turnBack_resampled :
  getStrokePoints rawTurnBack (Some 0) = turnBack.
Proof.
  unfold getStrokePoints, rawTurnBack, turnBack, orElse.
  cbn [toPointsArray map default sampleX sampleY samplePressure resample
       ptX ptY ptLength pos].
  rewrite truthy_nonzero by lra. rewrite !lerp_one.
  unfold pos; cbn [ptX ptY].
  rewrite getAngle_against_x by lra.
  rewrite getAngle_along_x by lra.
  rewrite !getDistance_along_x.
  rewrite Rabs_left by lra. rewrite Rabs_right by lra.
  repeat f_equal; lra.
Qed.

(** ** getStrokeOutlinePoints returns on every non-empty sequence *)

Section TraceReturns.

Variables (size thinning smoothing : R).
Variable simulatePressure : bool.
Variable easing : R -> R.
Variable points : list StrokePoint.
Variable first : StrokePoint.
Hypothesis points_first : index points 0 = Some first.

Lemma traceCorner_returns (x y pressure angle : R) (next : StrokePoint)
    (s : Tracer.state) :
  exists s',
    traceCorner size smoothing x y pressure angle (Some next) s = Ok s'.
Proof.
  unfold traceCorner. cbn [defined bind].
  destruct (gtR (Rabs (getAngleDelta (ptAngle next) angle)) SHARP).
  - rewrite forT_quarter by (unfold capFuel; lia). eexists; reflexivity.
  - eexists; reflexivity.
Qed.

Lemma traceSample_returns (cur next : StrokePoint) (s : Tracer.state) :
  exists s',
    traceSample size thinning smoothing simulatePressure easing points
                cur (Some next) s = Ok s'.
Proof.
  destruct cur as [x y pressure angle distance clen].
  unfold traceSample.
  match goal with
  | |- context [Tracer.short ?s1] => destruct (Tracer.short s1)
  end.
  - destruct (ltR clen (size / 4)); [eexists; reflexivity|].
    rewrite points_first. cbn [defined bind].
    rewrite forT_tenth by (unfold capFuel; lia). cbn [bind].
    apply traceCorner_returns.
  - apply traceCorner_returns.
Qed.

Lemma traceLoop_returns (l : list StrokePoint) :
  forall (pre : list StrokePoint) (fuel : nat) (s : Tracer.state),
    points = pre ++ l ->
    (length l < fuel)%nat ->
    exists s',
      traceLoop size thinning smoothing simulatePressure easing points
                fuel (Z.of_nat (length pre)) s = Ok s'.
Proof.
  induction l as [|cur l IH]; intros pre fuel s Hpts Hfuel;
    (destruct fuel as [|fuel]; [cbn [length] in Hfuel; lia|]);
    cbn [traceLoop].
  - replace (Z.of_nat (length pre) <? Z.of_nat (length points) - 1)%Z
      with false; [eexists; reflexivity|].
    symmetry; apply Z.ltb_ge. rewrite Hpts, length_app. cbn [length]. lia.
  - destruct l as [|next l].
    + replace (Z.of_nat (length pre) <? Z.of_nat (length points) - 1)%Z
        with false; [eexists; reflexivity|].
      symmetry; apply Z.ltb_ge. rewrite Hpts, length_app. cbn [length]. lia.
    + replace (Z.of_nat (length pre) <? Z.of_nat (length points) - 1)%Z
        with true
        by (symmetry; apply Z.ltb_lt; rewrite Hpts, length_app;
            cbn [length]; lia).
      assert (Hcur : index points (Z.of_nat (length pre)) = Some cur)
        by (rewrite Hpts; apply index_app_head).
      assert (Hnext : index points (Z.of_nat (length pre) + 1) = Some next)
        by (rewrite Hpts; apply index_app_next).
      rewrite Hcur, Hnext. cbn [defined bind].
      destruct (traceSample_returns cur next s) as [s1 Hs1].
      rewrite Hs1. cbn [bind].
      destruct (IH (pre ++ [cur]) fuel s1) as [s2 Hs2].
      * rewrite Hpts, <- app_assoc. reflexivity.
      * cbn [length] in *. lia.
      * rewrite length_app in Hs2. cbn [length] in Hs2.
        replace (Z.of_nat (length pre) + 1)%Z
          with (Z.of_nat (length pre + 1)) by lia.
        exists s2. exact Hs2.
Qed.

End TraceReturns.

(** The empty sequence is the only one [getStrokeOutlinePoints] fails on:
    no index is read out of range and no loop runs out of fuel. *)
Lemma getStrokeOutlinePoints_returns (first : StrokePoint)
    (rest : list StrokePoint) (options : StrokeOptions) :
  exists outline, getStrokeOutlinePoints (first :: rest) options = Ok outline.
Proof.
  unfold getStrokeOutlinePoints. rewrite index_last.
  change (index (first :: rest) 0) with (Some first).
  cbn [defined bind].
  replace (Z.of_nat (length (first :: rest)) =? 0)%Z with false
    by (symmetry; apply Z.eqb_neq; cbn [length]; lia).
  destruct ((Z.of_nat (length (first :: rest)) =? 1)%Z || leR _ _).
  - rewrite forT_tenth by (unfold capFuel; lia). eexists; reflexivity.
  - match goal with
    | |- context [traceLoop ?sz ?th ?sm ?sp ?ea ?pts ?fuel 1%Z ?s0] =>
        destruct (traceLoop_returns sz th sm sp ea pts first eq_refl
                    rest [first] fuel s0 eq_refl ltac:(cbn [length]; lia))
          as [s1 Hs1]
    end.
    change (Z.of_nat (length [first])) with 1%Z in Hs1.
    rewrite Hs1. cbn [bind].
    rewrite forT_tenth by (unfold capFuel; lia). eexists; reflexivity.
Qed.

(** The general branch: the loop over the interior samples, then the end
    cap at the radius the loop leaves. *)
Lemma getStrokeOutlinePoints_general (first : StrokePoint)
    (rest : list StrokePoint) (options : StrokeOptions) :
  rest <> [] ->
  default 8 (optSize options) / 4 < ptLength (last rest first) ->
  exists s1 : Tracer.state,
    traceLoop (default 8 (optSize options))
              (default 0.5 (optThinning options))
              (default 0.5 (optSmoothing options))
              (default true (optSimulatePressure options))
              (default (fun t => t) (optEasing options))
              (first :: rest) (length (first :: rest)) 1
              (startState (default 8 (optSize options)) first) = Ok s1 /\
    getStrokeOutlinePoints (first :: rest) options =
    Ok (Tracer.leftPts s1 ++
        rev (Tracer.rightPts s1 ++ endCap (last rest first) (Tracer.r s1))).
Proof.
  intros Hrest Hlen.
  destruct (traceLoop_returns (default 8 (optSize options))
              (default 0.5 (optThinning options))
              (default 0.5 (optSmoothing options))
              (default true (optSimulatePressure options))
              (default (fun t => t) (optEasing options))
              (first :: rest) first eq_refl
              rest [first] (length (first :: rest))
              (startState (default 8 (optSize options)) first)
              eq_refl ltac:(cbn [length]; lia)) as [s1 Hs1].
  change (Z.of_nat (length [first])) with 1%Z in Hs1.
  exists s1. split; [exact Hs1|].
  unfold getStrokeOutlinePoints, endCap.
  rewrite index_last.
  change (index (first :: rest) 0) with (Some first).
  cbn [defined bind].
  replace (Z.of_nat (length (first :: rest)) =? 0)%Z with false
    by (symmetry; apply Z.eqb_neq; cbn [length]; lia).
  replace (Z.of_nat (length (first :: rest)) =? 1)%Z with false
    by (symmetry; apply Z.eqb_neq; destruct rest; [contradiction|];
        cbn [length]; lia).
  rewrite leR_false by exact Hlen. cbn [orb].
  unfold startState in Hs1. rewrite Hs1. cbn [bind].
  rewrite forT_tenth by (unfold capFuel; lia). cbn [bind].
  rewrite (fold_cap_right
             (fun r t => projectPoint (pos (last rest first))
                           (ptAngle (last rest first) + TAU + t * PI) r)).
  reflexivity.
Qed.

(** ** Invariants of the loop of the tracer *)

Lemma index_In {A : Type} (l : list A) (i : Z) (x : A) :
  index l i = Some x -> In x l.
Proof.
  unfold index. destruct (i <? 0)%Z; [discriminate|]. apply nth_error_In.
Qed.

Lemma index_in_range {A : Type} (l : list A) (i : Z) :
  (0 <= i < Z.of_nat (length l))%Z -> exists x, index l i = Some x.
Proof.
  intros Hi. unfold index.
  destruct (Z.ltb_spec i 0) as [H|_]; [lia|].
  destruct (nth_error l (Z.to_nat i)) as [x|] eqn:Hx; [now exists x|].
  apply nth_error_None in Hx. lia.
Qed.

Lemma last_Forall {A : Type} (P : A -> Prop) (l : list A) (d : A) :
  Forall P l -> P d -> P (last l d).
Proof.
  intros Hl. revert d. induction Hl as [|a l Ha _ IH]; intros d Hd.
  - exact Hd.
  - rewrite last_cons. now apply IH.
Qed.

Section TraceInvariant.

Variables (size thinning smoothing : R).
Variable simulatePressure : bool.
Variable easing : R -> R.
Variable points : list StrokePoint.
Variable Inv : Tracer.state -> Prop.

Hypothesis sample_keeps :
  forall (cur next : StrokePoint) (s s' : Tracer.state),
    In cur points -> In next points -> Inv s ->
    traceSample size thinning smoothing simulatePressure easing points
                cur (Some next) s = Ok s' ->
    Inv s'.

(** What every turn of the loop keeps holds when the loop is left. *)
Lemma traceLoop_invariant (fuel : nat) :
  forall (i : Z) (s s' : Tracer.state),
    (0 <= i)%Z -> Inv s ->
    traceLoop size thinning smoothing simulatePressure easing points
              fuel i s = Ok s' ->
    Inv s'.
Proof.
  induction fuel as [|fuel IH]; intros i s s' Hi Hs Hloop; [discriminate|].
  cbn [traceLoop] in Hloop.
  destruct (Z.ltb_spec i (Z.of_nat (length points) - 1)) as [Hlt|Hge].
  - destruct (index_in_range points i ltac:(lia)) as [cur Hcur].
    destruct (index_in_range points (i + 1) ltac:(lia)) as [next Hnext].
    rewrite Hcur, Hnext in Hloop. cbn [defined bind] in Hloop.
    destruct (traceSample size thinning smoothing simulatePressure easing
                points cur (Some next) s) as [s1| | |] eqn:Hs1;
      try discriminate.
    cbn [bind] in Hloop.
    apply (IH (i + 1)%Z s1 s'); [lia | | exact Hloop].
    apply (sample_keeps cur next s s1);
      [exact (index_In _ _ _ Hcur) | exact (index_In _ _ _ Hnext)
       | exact Hs | exact Hs1].
  - injection Hloop as <-. exact Hs.
Qed.

End TraceInvariant.

(** ** Sharp corners in the outline *)

Lemma index_range {A : Type} (l : list A) (i : Z) (x : A) :
  index l i = Some x -> (0 <= i < Z.of_nat (length l))%Z.
Proof.
  unfold index. destruct (Z.ltb_spec i 0) as [H|H]; [discriminate|].
  intros Hx.
  assert (Hn : nth_error l (Z.to_nat i) <> None) by congruence.
  apply nth_error_Some in Hn. lia.
Qed.

Section SharpCorners.

Variables (size thinning smoothing : R).
Variable simulatePressure : bool.
Variable easing : R -> R.
Variable points : list StrokePoint.

(** The loop is its first [n] turns, then the loop from where they end. *)
Lemma traceLoop_turns (n : nat) :
  forall (fuel : nat) (i : Z) (s : Tracer.state),
    traceLoop size thinning smoothing simulatePressure easing points
              (n + S fuel) i s =
    (s' <- traceTurns size thinning smoothing simulatePressure easing points
                      n i s ;;
     traceLoop size thinning smoothing simulatePressure easing points
               (S fuel) (i + Z.of_nat n) s').
Proof.
  induction n as [|n IH]; intros fuel i s.
  - cbn [traceTurns bind Nat.add].
    replace (i + Z.of_nat 0)%Z with i by lia. reflexivity.
  - replace (i + Z.of_nat (S n))%Z with (i + 1 + Z.of_nat n)%Z by lia.
    change (S n + S fuel)%nat with (S (n + S fuel)).
    cbn [traceTurns].
    change (traceLoop size thinning smoothing simulatePressure easing points
              (S (n + S fuel)) i s)
      with (if (i <? Z.of_nat (length points) - 1)%Z
            then
              cur <- defined (index points i) ;;
              s1 <- traceSample size thinning smoothing simulatePressure
                                easing points cur (index points (i + 1)) s ;;
              traceLoop size thinning smoothing simulatePressure easing
                        points (n + S fuel) (i + 1) s1
            else Ok s).
    destruct (Z.ltb_spec i (Z.of_nat (length points) - 1)) as [Hlt|Hge].
    + destruct (index points i) as [cur|]; cbn [defined bind]; [|reflexivity].
      destruct (traceSample size thinning smoothing simulatePressure easing
                  points cur (index points (i + 1)) s) as [s1| | |];
        cbn [bind]; try reflexivity.
      apply IH.
    + cbn [bind traceLoop].
      replace (i + 1 + Z.of_nat n <? Z.of_nat (length points) - 1)%Z
        with false by (symmetry; apply Z.ltb_ge; lia).
      reflexivity.
Qed.

(** A turn of the loop only appends to the ribs. *)
Lemma traceCorner_ribsExtend (leftRib rightRib : list Vec)
    (x y pressure angle : R) (next : StrokePoint) (s s' : Tracer.state) :
  ribsExtend leftRib rightRib s ->
  traceCorner size smoothing x y pressure angle (Some next) s = Ok s' ->
  ribsExtend leftRib rightRib s'.
Proof.
  intros [[l Hl] [r Hr]]. unfold traceCorner. cbn [defined bind].
  destruct s as [lp rp pl pr tl tr pa pp r0 short].
  cbn [Tracer.leftPts Tracer.rightPts] in Hl, Hr. subst lp rp.
  destruct (gtR (Rabs (getAngleDelta (ptAngle next) angle)) SHARP).
  - rewrite forT_quarter by (unfold capFuel; lia).
    rewrite (fold_cap_both
               (fun pa r t => projectPoint (x, y) (pa - TAU + t * - PI) r)
               (fun pa r t => projectPoint (x, y) (pa + TAU + t * PI) r)).
    intros H; injection H as <-.
    split; tracer_simpl; rewrite <- app_assoc; eexists; reflexivity.
  - tracer_simpl.
    destruct (gtR _ DULL || gtR (getDistance _ tl) _); tracer_simpl;
      destruct (gtR _ DULL || gtR (getDistance _ tr) _); tracer_simpl;
      intros H; injection H as <-;
      split; tracer_simpl; rewrite <- ?app_assoc; eexists; reflexivity.
Qed.

Lemma traceSample_ribsExtend (leftRib rightRib : list Vec)
    (cur next : StrokePoint) (s s' : Tracer.state) :
  ribsExtend leftRib rightRib s ->
  traceSample size thinning smoothing simulatePressure easing points
              cur (Some next) s = Ok s' ->
  ribsExtend leftRib rightRib s'.
Proof.
  intros Hs. destruct cur as [x y pressure angle distance clen].
  unfold traceSample.
  set (pressure' := if truthy thinning then _ else pressure).
  set (s1 := if truthy thinning then _ else s).
  assert (Hs1 : ribsExtend leftRib rightRib s1).
  { subst s1. destruct (truthy thinning); [|assumption].
    destruct s; exact Hs. }
  clearbody s1 pressure'.
  destruct s1 as [lp rp pl pr tl tr pa pp r short].
  cbn [Tracer.short]. destruct short.
  - destruct (ltR clen (size / 4));
      [intros H; injection H as <-; exact Hs1|].
    destruct (index points 0) as [first|]; [|discriminate].
    cbn [defined bind].
    rewrite forT_tenth by (unfold capFuel; lia). cbn [bind].
    rewrite (fold_cap_left
               (fun r t => projectPoint (pos first) (angle + TAU - t * PI) r)).
    tracer_simpl. apply traceCorner_ribsExtend.
    destruct Hs1 as [[l Hl] [r' Hr]].
    cbn [Tracer.leftPts Tracer.rightPts] in Hl, Hr. subst lp rp.
    split; tracer_simpl; rewrite <- app_assoc; eexists; reflexivity.
  - apply traceCorner_ribsExtend. exact Hs1.
Qed.

End SharpCorners.

(** C7, amended.  Take a stroke of positive size that is not drawn as a
    dot (its total length is above [size / 4]) and an interior sample
    [cur] at index [i], with [next] after it.  The loop reaches the sample
    in the state [s] its first [i - 1] turns leave, the turn makes [s'] of
    it, and the ribs of [s'] are the beginning of the ribs the loop
    leaves, of which [getStrokeOutlinePoints] makes the outline it
    returns.  When the angle of the sample
    differs from the next one by more than a quarter turn and the sample
    is not held back by the minimum-length gate (the stroke is no longer
    short, or the cumulative length of the sample is at least
    [size / 4]), the turn appends to each rib the fan of 5 points at [t] =
    0, 0.25, 0.5, 0.75, 1, projected from the sample around the previous
    angle [pa] at the current radius; before the fan come the points of
    the start cap when the sample is the first past the gate, and nothing
    else: the regular emission is skipped, [pa] and [pp] keep their
    values.  A sample whose cumulative length is below [size / 4] while
    the stroke is still short gets no points at all, whatever its
    angles. *)
Theorem getStrokeOutlinePoints_sharp_corner :
  forall (first : StrokePoint) (rest : list StrokePoint)
         (options : StrokeOptions) (i : Z) (cur next : StrokePoint),
    0 < default 8 (optSize options) ->
    default 8 (optSize options) / 4 < ptLength (last rest first) ->
    (1 <= i)%Z ->
    index (first :: rest) i = Some cur ->
    index (first :: rest) (i + 1) = Some next ->
    exists s s' final : Tracer.state,
      traceTurns (default 8 (optSize options))
                 (default 0.5 (optThinning options))
                 (default 0.5 (optSmoothing options))
                 (default true (optSimulatePressure options))
                 (default (fun t => t) (optEasing options))
                 (first :: rest) (Z.to_nat (i - 1)) 1
                 (startState (default 8 (optSize options)) first) = Ok s /\
      traceSample (default 8 (optSize options))
                  (default 0.5 (optThinning options))
                  (default 0.5 (optSmoothing options))
                  (default true (optSimulatePressure options))
                  (default (fun t => t) (optEasing options))
                  (first :: rest) cur (Some next) s = Ok s' /\
      traceLoop (default 8 (optSize options))
                (default 0.5 (optThinning options))
                (default 0.5 (optSmoothing options))
                (default true (optSimulatePressure options))
                (default (fun t => t) (optEasing options))
                (first :: rest) (length (first :: rest)) 1
                (startState (default 8 (optSize options)) first) = Ok final /\
      getStrokeOutlinePoints (first :: rest) options =
      Ok (Tracer.leftPts final ++
          rev (Tracer.rightPts final ++
               endCap (last rest first) (Tracer.r final))) /\
      (exists later, Tracer.leftPts final = Tracer.leftPts s' ++ later) /\
      (exists later, Tracer.rightPts final = Tracer.rightPts s' ++ later) /\
      (Rabs (getAngleDelta (ptAngle next) (ptAngle cur)) > SHARP ->
       Tracer.short s = false \/
       default 8 (optSize options) / 4 <= ptLength cur ->
       Tracer.leftPts s' =
         Tracer.leftPts s ++
         (if Tracer.short s
          then startCapLeft first cur (Tracer.r s') else []) ++
         map (fun t => projectPoint (pos cur) (Tracer.pa s - TAU + t * - PI)
                                    (Tracer.r s')) quarters /\
       Tracer.rightPts s' =
         Tracer.rightPts s ++
         (if Tracer.short s
          then startCapRight first cur (Tracer.r s') else []) ++
         map (fun t => projectPoint (pos cur) (Tracer.pa s + TAU + t * PI)
                                    (Tracer.r s')) quarters /\
       Tracer.pa s' = Tracer.pa s /\
       Tracer.pp s' = Tracer.pp s /\
       Tracer.short s' = false) /\
      (Tracer.short s = true ->
       ptLength cur < default 8 (optSize options) / 4 ->
       Tracer.leftPts s' = Tracer.leftPts s /\
       Tracer.rightPts s' = Tracer.rightPts s /\
       Tracer.pa s' = Tracer.pa s /\
       Tracer.pp s' = Tracer.pp s /\
       Tracer.short s' = true).
Proof.
  intros first rest options i cur next _ Hlen Hi Hcur Hnext.
  set (size := default 8 (optSize options)) in *.
  set (thinning := default 0.5 (optThinning options)).
  set (smoothing := default 0.5 (optSmoothing options)).
  set (simulatePressure := default true (optSimulatePressure options)).
  set (easing := default (fun t => t) (optEasing options)).
  pose proof (index_range _ _ _ Hnext) as Hrange.
  assert (Hrest : rest <> [])
    by (intros ->; cbn [length] in Hrange; lia).
  destruct (getStrokeOutlinePoints_general first rest options Hrest Hlen)
    as [final [Hfinal Hout]].
  fold size thinning smoothing simulatePressure easing in Hfinal.
  pose proof Hfinal as Hloop.
  replace (length (first :: rest))
    with (Z.to_nat (i - 1) + S (length (first :: rest) - Z.to_nat (i - 1) - 1))%nat
    in Hfinal by lia.
  rewrite traceLoop_turns in Hfinal.
  destruct (traceTurns size thinning smoothing simulatePressure easing
              (first :: rest) (Z.to_nat (i - 1)) 1
              (startState size first)) as [s| | |];
    cbn [bind] in Hfinal; try discriminate.
  replace (1 + Z.of_nat (Z.to_nat (i - 1)))%Z with i in Hfinal by lia.
  cbn [traceLoop] in Hfinal.
  replace (i <? Z.of_nat (length (first :: rest)) - 1)%Z with true in Hfinal
    by (symmetry; apply Z.ltb_lt; lia).
  rewrite Hcur, Hnext in Hfinal. cbn [defined bind] in Hfinal.
  destruct (traceSample size thinning smoothing simulatePressure easing
              (first :: rest) cur (Some next) s) as [s'| | |] eqn:Hs';
    cbn [bind] in Hfinal; try discriminate.
  exists s, s', final.
  split; [reflexivity|]. split; [exact Hs'|]. split; [exact Hloop|].
  split; [exact Hout|].
  assert (Hgrow : ribsExtend (Tracer.leftPts s') (Tracer.rightPts s') final).
  { eapply (traceLoop_invariant size thinning smoothing simulatePressure
              easing (first :: rest)
              (ribsExtend (Tracer.leftPts s') (Tracer.rightPts s')));
      [| | | exact Hfinal].
    - intros c n t t' _ _ Ht Hstep.
      exact (traceSample_ribsExtend size thinning smoothing simulatePressure
               easing (first :: rest) _ _ c n t t' Ht Hstep).
    - lia.
    - split; exists []; symmetry; apply app_nil_r. }
  destruct Hgrow as [HgrowL HgrowR].
  split; [exact HgrowL|]. split; [exact HgrowR|]. split.
  - intros Hsharp Hgate.
    destruct (traceSample_sharp size thinning smoothing simulatePressure
                easing (first :: rest) first cur next s eq_refl Hsharp Hgate)
      as [s'' [Heq Hfan]].
    rewrite Hs' in Heq. injection Heq as <-. exact Hfan.
  - intros Hshort Hbelow.
    destruct (traceSample_held_back size thinning smoothing simulatePressure
                easing (first :: rest) cur (Some next) s Hshort Hbelow)
      as [radius Heq].
    rewrite Hs' in Heq. injection Heq as ->.
    destruct s as [lp rp pl pr tl tr pa pp r short].
    cbn [Tracer.short] in Hshort. subst short.
    repeat split.
Qed.

(** [turnAtFour] is what the resampler makes of [rawTurnAtFour]. *)
Lemma turnAtFour_resampled :
  getStrokePoints rawTurnAtFour (Some 0) = turnAtFour.
Proof.
  unfold getStrokePoints, rawTurnAtFour, turnAtFour, orElse.
  cbn [toPointsArray map default sampleX sampleY samplePressure resample
       ptX ptY ptLength pos].
  rewrite truthy_nonzero by lra. rewrite !lerp_one.
  unfold pos; cbn [ptX ptY].
  rewrite getAngle_against_x by lra.
  rewrite getAngle_along_x by lra.
  rewrite !getDistance_along_x.
  rewrite Rabs_left by lra. rewrite Rabs_right by lra.
  repeat f_equal; lra.
Qed.

(** The middle sample of [turnAtFour] is the first past the gate and
    turns back: the left rib gets the 11 points of the start cap and the
    5 of the fan, the right rib 1 and 5, and the loop ends there. *)
Lemma turnAtFour_loop :
  exists s' : Tracer.state,
    traceSample 8 0.5 0.5 true (fun t => t) turnAtFour
      (mkPoint 4 0 0.5 PI 4 4) (Some (mkPoint 0 0 0.5 0 4 8))
      (startState 8 (mkPoint 0 0 0.5 0 0 0)) = Ok s' /\
    traceLoop 8 0.5 0.5 true (fun t => t) turnAtFour 3 1
      (startState 8 (mkPoint 0 0 0.5 0 0 0)) = Ok s' /\
    length (Tracer.leftPts s') = 16%nat /\
    length (Tracer.rightPts s') = 6%nat.
Proof.
  destruct (traceSample_sharp 8 0.5 0.5 true (fun t => t) turnAtFour
              (mkPoint 0 0 0.5 0 0 0) (mkPoint 4 0 0.5 PI 4 4)
              (mkPoint 0 0 0.5 0 4 8) (startState 8 (mkPoint 0 0 0.5 0 0 0))
              eq_refl getAngleDelta_reversal
              ltac:(right; cbn [ptLength]; lra))
    as [s' [Hs' [HL [HR _]]]].
  exists s'. split; [exact Hs'|]. split.
  - cbn [traceLoop].
    change (Z.of_nat (length turnAtFour)) with 3%Z.
    change (1 <? 3 - 1)%Z with true.
    change (index turnAtFour 1) with (Some (mkPoint 4 0 0.5 PI 4 4)).
    change (index turnAtFour (1 + 1)) with (Some (mkPoint 0 0 0.5 0 4 8)).
    cbn [defined bind]. rewrite Hs'. cbn [bind].
    change (1 + 1 <? 3 - 1)%Z with false. reflexivity.
  - rewrite HL, HR. split; reflexivity.
Qed.

(** The radius of the middle sample of [turnBack] under the default
    options: the simulated pressure is 7 / 128. *)
Lemma turnBack_radius :
  getStrokeRadius 8 (Some 0.5) (fun t => t)
    (Some (Rmin 1 (0 + (Rmin (1 - 1 / 8) 1 - 0) * (Rmin (1 / 8) 1 / 2)))) =
  135 / 64.
Proof.
  replace (Rmin (1 - 1 / 8) 1) with (7 / 8)
    by (unfold Rmin; destruct (Rle_dec (1 - 1 / 8) 1); lra).
  replace (Rmin (1 / 8) 1) with (1 / 8)
    by (unfold Rmin; destruct (Rle_dec (1 / 8) 1); lra).
  replace (Rmin 1 (0 + (7 / 8 - 0) * (1 / 8 / 2))) with (7 / 128)
    by (unfold Rmin; destruct (Rle_dec 1 (0 + (7 / 8 - 0) * (1 / 8 / 2))); lra).
  unfold getStrokeRadius, default.
  destruct (Rlt_dec 0.5 0) as [H|_]; [lra|].
  rewrite !clamp_inside by lra. unfold lerp. lra.
Qed.

Lemma turnBack_outline :
  getStrokeOutlinePoints turnBack noOptions =
  Ok (rev (endCap (mkPoint (-5) 0 0.5 0 6 7) (135 / 64))).
Proof.
  destruct (getStrokeOutlinePoints_general (mkPoint 0 0 0.5 0 0 0)
              [mkPoint 1 0 0.5 PI 1 1; mkPoint (-5) 0 0.5 0 6 7] noOptions
              ltac:(discriminate)
              ltac:(cbn [default noOptions optSize last ptLength]; lra))
    as [s1 [Hs1 Hout]].
  fold turnBack in Hs1, Hout. rewrite Hout. clear Hout.
  cbn [default noOptions optSize optThinning optSmoothing optSimulatePressure
       optEasing last] in *.
  change (length turnBack) with 3%nat in Hs1. cbn [traceLoop] in Hs1.
  change (Z.of_nat (length turnBack)) with 3%Z in Hs1.
  change (1 <? 3 - 1)%Z with true in Hs1.
  change (index turnBack 1) with (Some (mkPoint 1 0 0.5 PI 1 1)) in Hs1.
  change (index turnBack (1 + 1)) with (Some (mkPoint (-5) 0 0.5 0 6 7)) in Hs1.
  cbn [defined bind] in Hs1.
  unfold traceSample, startState in Hs1.
  rewrite truthy_nonzero in Hs1 by lra.
  cbn [Tracer.pp Tracer.short setR ptAngle] in Hs1.
  rewrite turnBack_radius in Hs1.
  rewrite ltR_true in Hs1 by lra. cbn [bind] in Hs1.
  change (1 + 1 <? 3 - 1)%Z with false in Hs1.
  injection Hs1 as <-. reflexivity.
Qed.

(** C7, as stated, fails: the middle sample of [turnBack] is interior and
    its angle differs from the next one by a half turn, but its cumulative
    length 1 is below [size / 4 = 2] while the stroke is still short, so
    the loop continues before the corner is looked at.  Neither rib gets
    a point from it: the outline is the 11 points of the end cap, all on
    the circle around the last sample; and this is the outline
    [getStroke] draws from the raw points with [streamline = 0]. *)
Lemma sharp_corner_held_back :
  index turnBack 1 = Some (mkPoint 1 0 0.5 PI 1 1) /\
  index turnBack (1 + 1) = Some (mkPoint (-5) 0 0.5 0 6 7) /\
  Rabs (getAngleDelta (ptAngle (mkPoint (-5) 0 0.5 0 6 7))
                      (ptAngle (mkPoint 1 0 0.5 PI 1 1))) > SHARP /\
  getStrokePoints rawTurnBack (Some 0) = turnBack /\
  getStrokeOutlinePoints turnBack noOptions =
    Ok (rev (endCap (mkPoint (-5) 0 0.5 0 6 7) (135 / 64))) /\
  getStroke rawTurnBack (mkOptions None None None (Some 0) None None) =
    Ok (rev (endCap (mkPoint (-5) 0 0.5 0 6 7) (135 / 64))) /\
  length (rev (endCap (mkPoint (-5) 0 0.5 0 6 7) (135 / 64))) = 11%nat /\
  Forall (fun q => getDistance q (-5, 0) = 135 / 64)
         (rev (endCap (mkPoint (-5) 0 0.5 0 6 7) (135 / 64))).
Proof.
  split; [reflexivity|]. split; [reflexivity|].
  split; [exact getAngleDelta_reversal|].
  split; [exact turnBack_resampled|].
  split; [exact turnBack_outline|]. split; [|split].
  - unfold getStroke. cbn [optStreamline].
    rewrite turnBack_resampled. exact turnBack_outline.
  - reflexivity.
  - apply Forall_rev. unfold endCap.
    apply Forall_map, Forall_forall. intros t _.
    unfold pos; cbn [ptX ptY].
    rewrite projectPoint_distance, Rabs_pos_eq; lra.
Qed.

(** C7, amended, on the stroke (0, 0), (4, 0), (0, 0) with [size = 8]: the
    middle sample is the first past the gate and turns back, so the left
    rib gets the 11 points of the start cap and the 5 of the fan, the
    right rib 1 and 5, and the outline has these and the 11 points of the
    end cap. *)
Lemma getStrokeOutlinePoints_sharp_corner_witness :
  exists (s' : Tracer.state) (outline : list Vec),
    traceSample 8 0.5 0.5 true (fun t => t) turnAtFour
      (mkPoint 4 0 0.5 PI 4 4) (Some (mkPoint 0 0 0.5 0 4 8))
      (startState 8 (mkPoint 0 0 0.5 0 0 0)) = Ok s' /\
    length (Tracer.leftPts s') = 16%nat /\
    length (Tracer.rightPts s') = 6%nat /\
    getStrokeOutlinePoints turnAtFour noOptions = Ok outline /\
    firstn 16 outline = Tracer.leftPts s' /\
    (33 <= length outline)%nat.
Proof.
  destruct (getStrokeOutlinePoints_sharp_corner (mkPoint 0 0 0.5 0 0 0)
              [mkPoint 4 0 0.5 PI 4 4; mkPoint 0 0 0.5 0 4 8] noOptions 1
              (mkPoint 4 0 0.5 PI 4 4) (mkPoint 0 0 0.5 0 4 8))
    as [s [s' [final [Hs [Hs' [_ [Hout [[moreL HmoreL] [[moreR HmoreR]
          [Hsharp _]]]]]]]]]].
  - cbn [default noOptions optSize]. lra.
  - cbn [default noOptions optSize last ptLength]. lra.
  - lia.
  - reflexivity.
  - reflexivity.
  - cbn [traceTurns Z.to_nat Z.sub Z.add Z.opp Z.pos_sub] in Hs.
    injection Hs as <-.
    destruct (Hsharp getAngleDelta_reversal
                ltac:(right; cbn [default noOptions optSize ptLength]; lra))
      as [HL [HR _]].
    assert (H16 : length (Tracer.leftPts s') = 16%nat)
      by (rewrite HL; reflexivity).
    assert (H6 : length (Tracer.rightPts s') = 6%nat)
      by (rewrite HR; reflexivity).
    exists s'. eexists.
    split; [exact Hs'|]. split; [exact H16|]. split; [exact H6|].
    split; [exact Hout|]. split.
    + rewrite HmoreL, <- app_assoc, <- H16. rewrite firstn_app.
      rewrite Nat.sub_diag, firstn_all. cbn [firstn]. apply app_nil_r.
    + rewrite HmoreL, HmoreR, !length_app, length_rev, !length_app.
      unfold endCap. rewrite length_map. cbn [length tenths]. lia.
Defined.

(** * Further properties *)

(** ** getStrokeRadius *)

Lemma clamp_monotone (a b lo hi : R) :
  a <= b -> clamp a lo hi <= clamp b lo hi.
Proof.
  intros Hab; unfold clamp, Rmax, Rmin.
  destruct (Rle_dec hi a); destruct (Rle_dec hi b);
    repeat match goal with
           | |- context [Rle_dec ?u ?v] => destruct (Rle_dec u v)
           end; lra.
Qed.

(** The radius function written out, in the eased and clamped pressure. *)
Lemma getStrokeRadius_unfold (size thinning : R) (easing : R -> R)
    (pressure : option R) :
  getStrokeRadius size (Some thinning) easing pressure =
  let p := clamp (easing (default 0.5 pressure)) 0 1 in
  (if Rlt_dec thinning 0
   then size + size * clamp thinning (-0.95) (-0.05) * p
   else size - size * clamp thinning 0.05 0.95 * (1 - p)) / 2.
Proof.
  unfold getStrokeRadius, lerp; cbv zeta.
  destruct (Rlt_dec thinning 0); lra.
Qed.

Lemma getStrokeRadius_range_bounds (size thinning : R) (easing : R -> R)
    (pressure : option R) :
  0 <= size ->
  0.025 * size <= getStrokeRadius size (Some thinning) easing pressure
  <= 0.5 * size.
Proof.
  intros Hsize.
  rewrite getStrokeRadius_unfold; cbv zeta.
  pose proof (clamp_bounds (easing (default 0.5 pressure)) 0 1 ltac:(lra)) as Hp.
  set (p := clamp _ 0 1) in *.
  destruct (Rlt_dec thinning 0).
  - pose proof (clamp_bounds thinning (-0.95) (-0.05) ltac:(lra)) as Hc.
    set (c := clamp thinning _ _) in *.
    assert (0 <= size * (- c) * p)
      by (apply Rmult_le_pos; [apply Rmult_le_pos|]; lra).
    assert (size * (- c) * p <= size * 0.95 * 1).
    { apply Rmult_le_compat; try lra.
      - apply Rmult_le_pos; lra.
      - apply Rmult_le_compat_l; lra. }
    lra.
  - pose proof (clamp_bounds thinning 0.05 0.95 ltac:(lra)) as Hc.
    set (c := clamp thinning _ _) in *.
    assert (0 <= size * c * (1 - p))
      by (apply Rmult_le_pos; [apply Rmult_le_pos|]; lra).
    assert (size * c * (1 - p) <= size * 0.95 * 1).
    { apply Rmult_le_compat; try lra.
      - apply Rmult_le_pos; lra.
      - apply Rmult_le_compat_l; lra. }
    lra.
Qed.

(** X1.  For a non-negative size the radius is never above [size / 2] and
    never below [0.025 * size], whatever the thinning (absent included),
    the easing function and the pressure are: the clamps keep the stroke
    from vanishing. *)
Theorem getStrokeRadius_range :
  forall (size : R) (thinning : option R) (easing : R -> R)
         (pressure : option R),
    0 <= size ->
    0.025 * size <= getStrokeRadius size thinning easing pressure <= 0.5 * size.
Proof.
  intros size [thinning|] easing pressure Hsize.
  - now apply getStrokeRadius_range_bounds.
  - unfold getStrokeRadius; lra.
Qed.

Lemma getStrokeRadius_range_witness :
  0.025 * 8 <= getStrokeRadius 8 (Some 1) (fun t => t) (Some 0) <= 0.5 * 8.
Proof. apply (getStrokeRadius_range 8 (Some 1) (fun t => t) (Some 0)). lra. Defined.

(** X2.  For a non-negative size and any easing function that does not
    decrease on [0, 1], the radius does not decrease with the pressure on
    [0, 1] when the thinning is zero or positive, and does not increase
    when it is negative; the thinning need not lie in [-1, 1]. *)
Theorem getStrokeRadius_monotone_easing :
  forall (size thinning : R) (easing : R -> R) (p q : R),
    0 <= size -> monotoneOnUnit easing -> 0 <= p -> p <= q -> q <= 1 ->
    (0 <= thinning ->
     getStrokeRadius size (Some thinning) easing (Some p) <=
     getStrokeRadius size (Some thinning) easing (Some q)) /\
    (thinning < 0 ->
     getStrokeRadius size (Some thinning) easing (Some q) <=
     getStrokeRadius size (Some thinning) easing (Some p)).
Proof.
  intros size thinning easing p q Hsize Hmono Hp Hpq Hq.
  rewrite !getStrokeRadius_unfold; cbv zeta; cbn [default].
  pose proof (clamp_monotone (easing p) (easing q) 0 1 (Hmono p q Hp Hpq Hq))
    as Hclamp.
  set (u := clamp (easing p) 0 1) in *.
  set (v := clamp (easing q) 0 1) in *.
  split; intros Ht; destruct (Rlt_dec thinning 0); try lra.
  - pose proof (clamp_bounds thinning 0.05 0.95 ltac:(lra)) as Hc.
    assert (0 <= size * clamp thinning 0.05 0.95 * (v - u))
      by (apply Rmult_le_pos; [apply Rmult_le_pos|]; lra).
    lra.
  - pose proof (clamp_bounds thinning (-0.95) (-0.05) ltac:(lra)) as Hc.
    assert (0 <= size * (- clamp thinning (-0.95) (-0.05)) * (v - u))
      by (apply Rmult_le_pos; [apply Rmult_le_pos|]; lra).
    lra.
Qed.

Lemma getStrokeRadius_monotone_easing_witness :
  getStrokeRadius 8 (Some 2) (fun t => t * t) (Some 0.25) <=
  getStrokeRadius 8 (Some 2) (fun t => t * t) (Some 0.75).
Proof.
  apply (getStrokeRadius_monotone_easing 8 2 (fun t => t * t) 0.25 0.75);
    try lra.
  intros a b Ha Hab Hb. apply Rmult_le_compat; lra.
Defined.

(** ** getStrokePoints *)

Lemma resample_pressure (k : R) (rest : list Sample) :
  forall prev, map ptPressure (resample k prev rest) = map samplePressure rest.
Proof.
  induction rest as [|c rest IH]; intros prev; cbn [resample map].
  - reflexivity.
  - now rewrite IH.
Qed.

Lemma toPointsArray_pressure (points : list RawPoint) :
  map samplePressure (toPointsArray points) = map rawPressure points.
Proof.
  unfold toPointsArray; rewrite map_map.
  apply map_ext; intros [x y p | x y p]; reflexivity.
Qed.

(** X3.  The resampler returns as many points as it is given; the first
    one has the normalized pressure of the first input point, or 0.5 when
    that is 0, and every later one has the normalized pressure of its
    input point (0.5 when absent, the given one otherwise, 0 included). *)
Theorem getStrokePoints_shape :
  forall (points : list RawPoint) (streamline : option R),
    length (getStrokePoints points streamline) = length points /\
    map ptPressure (getStrokePoints points streamline) =
    match points with
    | [] => []
    | p0 :: rest => orElse (rawPressure p0) 0.5 :: map rawPressure rest
    end.
Proof.
  intros points streamline.
  pose proof (toPointsArray_pressure points) as Hp.
  assert (Hlen : length (toPointsArray points) = length points)
    by (unfold toPointsArray; apply length_map).
  unfold getStrokePoints.
  destruct (toPointsArray points) as [|c cs]; destruct points as [|p0 rest];
    try discriminate; [split; reflexivity|].
  cbn [map] in Hp. injection Hp as Hp0 Hrest.
  split.
  - cbn [length] in *. now rewrite resample_length.
  - cbn [map ptPressure]. now rewrite resample_pressure, Hp0, Hrest.
Qed.

Lemma resample_app (k : R) (a b : list Sample) :
  forall prev,
    resample k prev (a ++ b) =
    resample k prev a ++ resample k (last (resample k prev a) prev) b.
Proof.
  induction a as [|c a IH]; intros prev; [reflexivity|].
  cbn [app resample]. rewrite IH, last_cons. reflexivity.
Qed.

(** X4.  Points added at the end of the input leave the points resampled
    before them as they are: the result for the longer input starts with
    the result for the shorter one. *)
Theorem getStrokePoints_prefix :
  forall (points more : list RawPoint) (streamline : option R),
    firstn (length points) (getStrokePoints (points ++ more) streamline) =
    getStrokePoints points streamline.
Proof.
  intros points more streamline.
  unfold getStrokePoints, toPointsArray. rewrite map_app.
  destruct points as [|p0 rest]; [reflexivity|].
  cbn [map app length firstn]. f_equal.
  rewrite resample_app, firstn_app, resample_length, length_map.
  rewrite Nat.sub_diag. cbn [firstn]. rewrite app_nil_r.
  apply firstn_all2. rewrite resample_length, length_map. lia.
Qed.

Lemma lerp_between (a b t lo hi : R) :
  0 <= t <= 1 -> lo <= a <= hi -> lo <= b <= hi -> lo <= lerp a b t <= hi.
Proof.
  intros Ht Ha Hb; unfold lerp.
  assert (lo * (1 - t) <= a * (1 - t)) by (apply Rmult_le_compat_r; lra).
  assert (a * (1 - t) <= hi * (1 - t)) by (apply Rmult_le_compat_r; lra).
  assert (lo * t <= b * t) by (apply Rmult_le_compat_r; lra).
  assert (b * t <= hi * t) by (apply Rmult_le_compat_r; lra).
  lra.
Qed.

Lemma resample_in_box (k xlo xhi ylo yhi : R) (rest : list Sample) :
  0 <= k <= 1 ->
  Forall (fun c => inBox xlo xhi ylo yhi 0 (sampleX c, sampleY c)) rest ->
  forall prev,
    inBox xlo xhi ylo yhi 0 (pos prev) ->
    Forall (fun q => inBox xlo xhi ylo yhi 0 (pos q)) (resample k prev rest).
Proof.
  intros Hk Hrest. induction Hrest as [|c rest Hc _ IH]; intros prev Hprev;
    cbn [resample]; constructor.
  - unfold inBox, pos in *; cbn [fst snd ptX ptY] in *.
    destruct Hc as [Hcx Hcy], Hprev as [Hpx Hpy].
    split; apply lerp_between; lra.
  - apply IH.
    unfold inBox, pos in *; cbn [fst snd ptX ptY] in *.
    destruct Hc as [Hcx Hcy], Hprev as [Hpx Hpy].
    split; apply lerp_between; lra.
Qed.

(** X5.  With a streamline between 0 and 1 (the default 0.5 included) the
    resampled positions stay inside every rectangle that holds the input
    positions. *)
Theorem getStrokePoints_in_box :
  forall (points : list RawPoint) (streamline : option R)
         (xlo xhi ylo yhi : R),
    0 <= default 0.5 streamline <= 1 ->
    Forall (fun p => inBox xlo xhi ylo yhi 0 (rawPos p)) points ->
    Forall (fun q => inBox xlo xhi ylo yhi 0 (pos q))
           (getStrokePoints points streamline).
Proof.
  intros points streamline xlo xhi ylo yhi Hk Hpts.
  assert (Hsamples :
    Forall (fun c => inBox xlo xhi ylo yhi 0 (sampleX c, sampleY c))
           (toPointsArray points)).
  { unfold toPointsArray. apply Forall_map.
    eapply Forall_impl; [|exact Hpts].
    intros [x y p | x y p] H; exact H. }
  unfold getStrokePoints.
  destruct (toPointsArray points) as [|c cs]; [constructor|].
  inversion Hsamples as [|c' cs' Hc Hcs]; subst.
  constructor; [exact Hc|].
  apply resample_in_box; [exact Hk | exact Hcs | exact Hc].
Qed.

Lemma getStrokePoints_in_box_witness :
  Forall (fun q => inBox 0 10 0 5 0 (pos q))
         (getStrokePoints [ArrayPoint 0 0 None; ArrayPoint 10 5 None] None).
Proof.
  apply (getStrokePoints_in_box [ArrayPoint 0 0 None; ArrayPoint 10 5 None]
           None 0 10 0 5).
  - cbn [default]. lra.
  - repeat constructor; cbn [rawPos fst snd]; lra.
Defined.

Lemma lerp_shift (a b t d : R) : lerp (a + d) (b + d) t = lerp a b t + d.
Proof. unfold lerp; ring. Qed.

Lemma getAngle_shift (a b c e dx dy : R) :
  getAngle (a + dx, b + dy) (c + dx, e + dy) = getAngle (a, b) (c, e).
Proof.
  unfold getAngle; cbn [fst snd].
  replace (e + dy - (b + dy)) with (e - b) by ring.
  replace (c + dx - (a + dx)) with (c - a) by ring.
  reflexivity.
Qed.

Lemma getDistance_shift (a b c e dx dy : R) :
  getDistance (a + dx, b + dy) (c + dx, e + dy) = getDistance (a, b) (c, e).
Proof.
  unfold getDistance; cbn [fst snd].
  replace (e + dy - (b + dy)) with (e - b) by ring.
  replace (c + dx - (a + dx)) with (c - a) by ring.
  reflexivity.
Qed.

Lemma resample_shift (k dx dy : R) (rest : list Sample) :
  forall prev,
    resample k (shiftPoint dx dy prev) (map (shiftSample dx dy) rest) =
    map (shiftPoint dx dy) (resample k prev rest).
Proof.
  induction rest as [|c rest IH]; intros prev; [reflexivity|].
  cbn [map resample].
  unfold pos; cbn [shiftPoint shiftSample ptX ptY ptLength sampleX sampleY
                   samplePressure].
  rewrite !lerp_shift, getAngle_shift, getDistance_shift.
  f_equal. apply (IH (mkPoint _ _ _ _ _ _)).
Qed.

Lemma getStrokePoints_shift (dx dy : R) (points : list RawPoint)
    (streamline : option R) :
  getStrokePoints (map (shiftRaw dx dy) points) streamline =
  map (shiftPoint dx dy) (getStrokePoints points streamline).
Proof.
  assert (Hshift : toPointsArray (map (shiftRaw dx dy) points) =
                   map (shiftSample dx dy) (toPointsArray points)).
  { unfold toPointsArray; rewrite !map_map.
    apply map_ext; intros [x y p | x y p]; reflexivity. }
  unfold getStrokePoints. rewrite Hshift.
  destruct (toPointsArray points) as [|c cs]; [reflexivity|].
  cbn [map shiftSample sampleX sampleY samplePressure]. f_equal.
  apply (resample_shift _ dx dy cs (mkPoint _ _ _ 0 0 0)).
Qed.

(** X6.  Moving every input point by the same offset moves every
    resampled position by that offset and changes nothing else: angles,
    distances, cumulative lengths and pressures are the same. *)
Theorem getStrokePoints_translate :
  forall (dx dy : R) (points : list RawPoint) (streamline : option R),
    getStrokePoints (map (shiftRaw dx dy) points) streamline =
    map (shiftPoint dx dy) (getStrokePoints points streamline).
Proof. exact getStrokePoints_shift. Qed.

Lemma resample_running_sum (k : R) (rest : list Sample) :
  forall (prev : StrokePoint) (n : nat) (p : StrokePoint),
    nth_error (resample k prev rest) n = Some p ->
    ptLength p =
    ptLength prev + sumR (map ptDistance (firstn (S n) (resample k prev rest))).
Proof.
  induction rest as [|c rest IH]; intros prev n p Hn.
  - destruct n; discriminate.
  - cbn [resample] in *. set (curr := mkPoint _ _ _ _ _ _) in *.
    destruct n as [|n].
    + injection Hn as <-. cbn. lra.
    + cbn [nth_error] in Hn. rewrite (IH curr n p Hn).
      cbn [firstn map sumR fold_right]. subst curr. cbn [ptLength ptDistance].
      unfold sumR. lra.
Qed.

(** X7.  The cumulative length of each resampled point is the sum of the
    distances of the points up to and including it. *)
Theorem getStrokePoints_running_sum :
  forall (points : list RawPoint) (streamline : option R)
         (n : nat) (p : StrokePoint),
    nth_error (getStrokePoints points streamline) n = Some p ->
    ptLength p =
    sumR (map ptDistance (firstn (S n) (getStrokePoints points streamline))).
Proof.
  intros points streamline n p. unfold getStrokePoints.
  destruct (toPointsArray points) as [|c cs]; [destruct n; discriminate|].
  destruct n as [|n]; cbn [nth_error].
  - intros Hn; injection Hn as <-. cbn. lra.
  - intros Hn.
    rewrite (resample_running_sum _ cs _ n p Hn).
    cbn [firstn map sumR fold_right ptLength ptDistance]. unfold sumR. lra.
Qed.

(** The second point of the stroke (0, 0), (3, 4): its cumulative length
    is the sum of the distances of the two points. *)
Lemma getStrokePoints_running_sum_witness :
  exists p : StrokePoint,
    nth_error (getStrokePoints [ArrayPoint 0 0 None; ArrayPoint 3 4 None]
                               (Some 0)) 1 = Some p /\
    pos p = (3, 4) /\
    ptLength p =
    sumR (map ptDistance
              (firstn 2 (getStrokePoints
                           [ArrayPoint 0 0 None; ArrayPoint 3 4 None]
                           (Some 0)))).
Proof.
  eexists. split; [reflexivity|]. split.
  - unfold pos. cbn [ptX ptY sampleX sampleY default]. rewrite !lerp_one.
    reflexivity.
  - apply (getStrokePoints_running_sum
             [ArrayPoint 0 0 None; ArrayPoint 3 4 None] (Some 0) 1).
    reflexivity.
Defined.

(** ** getStrokeOutlinePoints: the two branches *)

(** The dot branch: a single point, or a last point whose cumulative
    length is at most [size / 4]. *)
Lemma getStrokeOutlinePoints_dot (first : StrokePoint)
    (rest : list StrokePoint) (options : StrokeOptions) :
  rest = [] \/ ptLength (last rest first) <= default 8 (optSize options) / 4 ->
  getStrokeOutlinePoints (first :: rest) options =
  Ok (dotOutline first (last rest first)
                 (dotRadius options (ptPressure (last rest first)))).
Proof.
  intros Hdot. unfold getStrokeOutlinePoints, dotOutline, dotRadius.
  rewrite index_last.
  change (index (first :: rest) 0) with (Some first).
  cbn [defined bind].
  replace (Z.of_nat (length (first :: rest)) =? 0)%Z with false
    by (symmetry; apply Z.eqb_neq; cbn [length]; lia).
  replace ((Z.of_nat (length (first :: rest)) =? 1)%Z
           || leR (ptLength (last rest first))
                  (default 8 (optSize options) / 4)) with true.
  - rewrite forT_tenth by (unfold capFuel; lia). cbn [bind].
    rewrite (fold_cap_both
               (fun _ r t => projectPoint (pos first)
                               (getAngle (pos first) (pos (last rest first))
                                + PI + TAU - t * PI) r)
               (fun _ r t => projectPoint (pos (last rest first))
                               (getAngle (pos first) (pos (last rest first))
                                + TAU - t * PI) r)).
    destruct (truthy (default 0.5 (optThinning options))); reflexivity.
  - symmetry. destruct Hdot as [-> | Hlen].
    + reflexivity.
    + rewrite (leR_true _ _ Hlen). apply orb_true_r.
Qed.

Lemma getStrokePoints_nil_iff (points : list RawPoint) (streamline : option R) :
  getStrokePoints points streamline = [] <-> points = [].
Proof.
  unfold getStrokePoints, toPointsArray.
  destruct points as [|p0 rest]; cbn [map]; split; intros H;
    try reflexivity; discriminate.
Qed.

(** X8.  [getStrokeOutlinePoints] throws exactly on the empty sequence and
    [getStroke] exactly on no points; on every other input they return an
    outline: no index is read out of range and no loop fails to end. *)
Theorem getStroke_throws_only_on_empty :
  forall (options : StrokeOptions),
    (forall points : list StrokePoint,
        (points = [] /\ getStrokeOutlinePoints points options = TypeError) \/
        (points <> [] /\
         exists outline, getStrokeOutlinePoints points options = Ok outline)) /\
    (forall points : list RawPoint,
        (points = [] /\ getStroke points options = TypeError) \/
        (points <> [] /\ exists outline, getStroke points options = Ok outline)).
Proof.
  intros options; split.
  - intros [|first rest].
    + left. split; reflexivity.
    + right. split; [discriminate|]. apply getStrokeOutlinePoints_returns.
  - intros points. unfold getStroke.
    destruct points as [|p0 rest].
    + left. split; reflexivity.
    + right. split; [discriminate|].
      destruct (getStrokePoints (p0 :: rest) (optStreamline options))
        as [|first more] eqn:Hpts.
      * apply getStrokePoints_nil_iff in Hpts. discriminate.
      * apply getStrokeOutlinePoints_returns.
Qed.

Lemma dotRadius_range (options : StrokeOptions) (pressure : R) :
  0 <= default 8 (optSize options) ->
  0 <= dotRadius options pressure <= default 8 (optSize options) / 2.
Proof.
  intros Hsize. unfold dotRadius.
  destruct (truthy _); [|lra].
  pose proof (getStrokeRadius_range_bounds (default 8 (optSize options))
                (default 0.5 (optThinning options))
                (default (fun t => t) (optEasing options))
                (Some pressure) Hsize).
  lra.
Qed.

(** X9.  A stroke of one point, or one whose last cumulative length is at
    most [size / 4], is drawn as a dot whatever else the options say: 22
    points, the first 11 at the distance of the dot radius from the first
    point and the last 11 at that distance from the last point, the dot
    radius being the radius function at the pressure of the last point
    (or [size / 2] when thinning is 0), at most [size / 2]. *)
Theorem getStrokeOutlinePoints_short_stroke :
  forall (first : StrokePoint) (rest : list StrokePoint)
         (options : StrokeOptions),
    0 <= default 8 (optSize options) ->
    rest = [] \/ ptLength (last rest first) <= default 8 (optSize options) / 4 ->
    let radius := dotRadius options (ptPressure (last rest first)) in
    exists outline : list Vec,
      getStrokeOutlinePoints (first :: rest) options = Ok outline /\
      length outline = 22%nat /\
      Forall (fun q => getDistance q (pos first) = radius) (firstn 11 outline) /\
      Forall (fun q => getDistance q (pos (last rest first)) = radius)
             (skipn 11 outline) /\
      radius <= default 8 (optSize options) / 2.
Proof.
  intros first rest options Hsize Hdot radius.
  pose proof (dotRadius_range options (ptPressure (last rest first)) Hsize)
    as Hr. fold radius in Hr.
  eexists. split; [apply (getStrokeOutlinePoints_dot first rest options Hdot)|].
  fold radius. unfold dotOutline.
  split; [reflexivity|]. split; [|split; [|lra]].
  - rewrite firstn_app. cbn [length map tenths Nat.sub firstn].
    rewrite app_nil_r. repeat constructor;
      rewrite projectPoint_distance, Rabs_pos_eq; lra.
  - rewrite skipn_app. cbn [length map tenths Nat.sub skipn app].
    repeat constructor; rewrite projectPoint_distance, Rabs_pos_eq; lra.
Qed.

Lemma getStrokeOutlinePoints_short_stroke_witness :
  exists outline : list Vec,
    getStrokeOutlinePoints
      [mkPoint 0 0 0.5 0 0 0; mkPoint 1 0 0.5 PI 1 1] noOptions = Ok outline /\
    length outline = 22%nat.
Proof.
  destruct (getStrokeOutlinePoints_short_stroke (mkPoint 0 0 0.5 0 0 0)
              [mkPoint 1 0 0.5 PI 1 1] noOptions) as [outline [H1 [H2 _]]].
  - cbn [default noOptions optSize]. lra.
  - right. cbn [last ptLength default noOptions optSize]. lra.
  - exists outline. split; assumption.
Defined.

(** X10.  A stroke of exactly two points that is longer than [size / 4]
    gets no start cap and no rib: the loop over the interior samples has
    nothing to visit, and the outline is the end cap alone, 11 points
    around the last point at the radius [size / 2], whatever the thinning
    and the pressures are. *)
Theorem getStrokeOutlinePoints_two_points :
  forall (p0 p1 : StrokePoint) (options : StrokeOptions),
    default 8 (optSize options) / 4 < ptLength p1 ->
    getStrokeOutlinePoints [p0; p1] options =
    Ok (rev (endCap p1 (default 8 (optSize options) / 2))).
Proof.
  intros p0 p1 options Hlen.
  destruct (getStrokeOutlinePoints_general p0 [p1] options
              ltac:(discriminate) Hlen) as [s1 [Hs1 Hout]].
  cbn [length traceLoop] in Hs1.
  change (1 <? Z.of_nat 2 - 1)%Z with false in Hs1.
  injection Hs1 as <-.
  rewrite Hout. reflexivity.
Qed.

Lemma getStrokeOutlinePoints_two_points_witness :
  getStrokeOutlinePoints
    [mkPoint 0 0 0.5 0 0 0; mkPoint 10 0 0.5 PI 10 10] noOptions =
  Ok (rev (endCap (mkPoint 10 0 0.5 PI 10 10) (8 / 2))).
Proof.
  apply (getStrokeOutlinePoints_two_points (mkPoint 0 0 0.5 0 0 0)
           (mkPoint 10 0 0.5 PI 10 10) noOptions).
  cbn [default noOptions optSize ptLength]. lra.
Defined.

(** ** The outline stays near the samples *)

Section OutlineBox.

Variables (xlo xhi ylo yhi size : R).
Hypothesis size_nonneg : 0 <= size.

Lemma inside_near (q : Vec) :
  inBox xlo xhi ylo yhi 0 q -> inBox xlo xhi ylo yhi (size / 2) q.
Proof. unfold inBox. lra. Qed.

Lemma projectPoint_near (c : Vec) (a r : R) :
  inBox xlo xhi ylo yhi 0 c -> 0 <= r <= size / 2 ->
  inBox xlo xhi ylo yhi (size / 2) (projectPoint c a r).
Proof.
  unfold inBox, projectPoint; cbn [fst snd].
  intros [Hx Hy] Hr.
  pose proof (COS_bound a) as [Hc1 Hc2].
  pose proof (SIN_bound a) as [Hs1 Hs2].
  assert (- r <= cos a * r <= r) by (split; nra).
  assert (- r <= sin a * r <= r) by (split; nra).
  lra.
Qed.

Lemma getPointBetween_near (p q : Vec) :
  inBox xlo xhi ylo yhi (size / 2) p -> inBox xlo xhi ylo yhi (size / 2) q ->
  inBox xlo xhi ylo yhi (size / 2) (getPointBetween p q).
Proof.
  unfold inBox, getPointBetween; cbn [fst snd]. lra.
Qed.

(** Points pushed by the tracer are near: projections of samples at a
    radius between 0 and [size / 2], and points between near points. *)
Ltac near_tac :=
  repeat match goal with
         | |- _ /\ _ => split
         | |- Forall _ (_ ++ _) => apply Forall_app; split
         | |- Forall _ (map _ _) => apply Forall_map, Forall_forall; intros ? _
         | |- Forall _ (_ :: _) => constructor
         | |- Forall _ [] => constructor
         | |- inBox _ _ _ _ _ (last _ _) => apply last_Forall
         | |- inBox _ _ _ _ _ (projectPoint _ _ _) => apply projectPoint_near
         | |- inBox _ _ _ _ _ (getPointBetween _ _) => apply getPointBetween_near
         end;
  try assumption; try lra.

Lemma traceCorner_near (smoothing pressure : R) (cur next : StrokePoint)
    (s s' : Tracer.state) :
  inBox xlo xhi ylo yhi 0 (pos cur) ->
  nearState xlo xhi ylo yhi size s ->
  traceCorner size smoothing (ptX cur) (ptY cur) pressure (ptAngle cur)
              (Some next) s = Ok s' ->
  nearState xlo xhi ylo yhi size s'.
Proof.
  intros Hcur Hs. unfold traceCorner.
  cbn [defined bind]. fold (pos cur).
  destruct s as [lp rp pl pr tl tr pa pp r short].
  destruct Hs as [HL [HR [Htl [Htr Hr]]]].
  cbn [Tracer.leftPts Tracer.rightPts Tracer.tl Tracer.tr Tracer.r] in *.
  destruct (gtR (Rabs (getAngleDelta (ptAngle next) (ptAngle cur))) SHARP).
  - rewrite forT_quarter by (unfold capFuel; lia).
    rewrite (fold_cap_both
               (fun pa r t => projectPoint (pos cur) (pa - TAU + t * - PI) r)
               (fun pa r t => projectPoint (pos cur) (pa + TAU + t * PI) r)).
    intros H; injection H as <-. unfold nearState; tracer_simpl. near_tac.
  - tracer_simpl.
    destruct (gtR _ DULL || gtR (getDistance _ tl) _); tracer_simpl;
      destruct (gtR _ DULL || gtR (getDistance _ tr) _); tracer_simpl;
      intros H; injection H as <-; unfold nearState; tracer_simpl; near_tac.
Qed.

Lemma traceSample_near (thinning smoothing : R) (simulatePressure : bool)
    (easing : R -> R) (points : list StrokePoint)
    (cur next : StrokePoint) (s s' : Tracer.state) :
  Forall (fun p => inBox xlo xhi ylo yhi 0 (pos p)) points ->
  In cur points -> nearState xlo xhi ylo yhi size s ->
  traceSample size thinning smoothing simulatePressure easing points
              cur (Some next) s = Ok s' ->
  nearState xlo xhi ylo yhi size s'.
Proof.
  intros Hpts Hcur Hs.
  assert (Hin : inBox xlo xhi ylo yhi 0 (pos cur))
    by (rewrite Forall_forall in Hpts; now apply Hpts).
  destruct cur as [x y pressure angle distance clen].
  unfold traceSample.
  set (pressure' := if truthy thinning then _ else pressure).
  set (s1 := if truthy thinning then _ else s).
  assert (Hs1 : nearState xlo xhi ylo yhi size s1).
  { subst s1. destruct (truthy thinning); [|assumption].
    destruct s as [lp rp pl pr tl tr pa pp r short].
    destruct Hs as [HL [HR [Htl [Htr Hr]]]].
    pose proof (getStrokeRadius_range_bounds size thinning easing
                  (Some pressure') size_nonneg).
    unfold nearState; tracer_simpl. near_tac. }
  clearbody s1 pressure'.
  destruct s1 as [lp rp pl pr tl tr pa pp r short].
  destruct Hs1 as [HL [HR [Htl [Htr Hr]]]].
  cbn [Tracer.leftPts Tracer.rightPts Tracer.tl Tracer.tr Tracer.r
       Tracer.short] in *.
  destruct short.
  - destruct (ltR clen (size / 4));
      [intros H; injection H as <-; unfold nearState; tracer_simpl; near_tac|].
    destruct (index points 0) as [first|] eqn:Hfirst; [|discriminate].
    cbn [defined bind].
    rewrite forT_tenth by (unfold capFuel; lia). cbn [bind].
    rewrite (fold_cap_left
               (fun r t => projectPoint (pos first) (angle + TAU - t * PI) r)).
    assert (Hf : inBox xlo xhi ylo yhi 0 (pos first)).
    { rewrite Forall_forall in Hpts. apply Hpts.
      exact (index_In _ _ _ Hfirst). }
    tracer_simpl.
    apply (traceCorner_near smoothing pressure'
             (mkPoint x y pressure angle distance clen) next); [exact Hin|].
    unfold nearState; tracer_simpl. near_tac.
  - apply (traceCorner_near smoothing pressure'
             (mkPoint x y pressure angle distance clen) next); [exact Hin|].
    unfold nearState; tracer_simpl. near_tac.
Qed.

End OutlineBox.

(** X11.  For a positive size, every point of the outline lies within
    [size / 2], along each axis, of any rectangle that holds the positions
    of the samples: the stroke is never wider than [size] and its caps
    never reach further than [size / 2]. *)
Theorem getStrokeOutlinePoints_near_samples :
  forall (first : StrokePoint) (rest : list StrokePoint)
         (options : StrokeOptions) (xlo xhi ylo yhi : R),
    0 < default 8 (optSize options) ->
    Forall (fun p => inBox xlo xhi ylo yhi 0 (pos p)) (first :: rest) ->
    exists outline : list Vec,
      getStrokeOutlinePoints (first :: rest) options = Ok outline /\
      Forall (inBox xlo xhi ylo yhi (default 8 (optSize options) / 2)) outline.
Proof.
  intros first rest options xlo xhi ylo yhi Hpositive Hpts.
  assert (Hsize : 0 <= default 8 (optSize options)) by lra.
  clear Hpositive.
  set (size := default 8 (optSize options)) in *.
  assert (Hfirst : inBox xlo xhi ylo yhi 0 (pos first))
    by (inversion Hpts; assumption).
  assert (Hlast : inBox xlo xhi ylo yhi 0 (pos (last rest first))).
  { apply (last_Forall (fun p => inBox xlo xhi ylo yhi 0 (pos p)));
      [inversion Hpts; assumption | exact Hfirst]. }
  assert (Hcases : (rest = [] \/ ptLength (last rest first) <= size / 4) \/
                   (rest <> [] /\ size / 4 < ptLength (last rest first))).
  { destruct rest as [|p rest]; [left; now left|].
    destruct (Rle_dec (ptLength (last (p :: rest) first)) (size / 4)).
    - left; now right.
    - right. split; [discriminate | lra]. }
  destruct Hcases as [Hdot | [Hrest Hlen]].
  - eexists. split; [apply (getStrokeOutlinePoints_dot first rest options Hdot)|].
    pose proof (dotRadius_range options (ptPressure (last rest first)) Hsize)
      as Hr.
    unfold dotOutline. apply Forall_app; split;
      apply Forall_map, Forall_forall; intros t _;
      apply projectPoint_near; assumption.
  - destruct (getStrokeOutlinePoints_general first rest options Hrest Hlen)
      as [s1 [Hs1 Hout]].
    eexists. split; [exact Hout|].
    assert (Hnear : nearState xlo xhi ylo yhi size s1).
    { eapply (traceLoop_invariant size _ _ _ _ (first :: rest)
                (nearState xlo xhi ylo yhi size)); [| | | exact Hs1].
      - intros cur next s s' Hcur _ Hs Hstep.
        eapply (traceSample_near xlo xhi ylo yhi size Hsize); eauto.
      - lia.
      - unfold nearState, startState; tracer_simpl.
        split; [constructor|]. split; [constructor|].
        split; [apply inside_near; [exact Hsize | exact Hfirst]|].
        split; [apply inside_near; [exact Hsize | exact Hfirst]|].
        unfold size in *. lra. }
    destruct Hnear as [HL [HR [_ [_ Hr]]]].
    apply Forall_app; split; [exact HL|].
    apply Forall_rev, Forall_app; split; [exact HR|].
    unfold endCap. apply Forall_map, Forall_forall; intros t _.
    apply projectPoint_near; assumption.
Qed.

Lemma getStrokeOutlinePoints_near_samples_witness :
  exists outline : list Vec,
    getStrokeOutlinePoints turnAtFour noOptions = Ok outline /\
    Forall (inBox 0 4 0 0 (8 / 2)) outline.
Proof.
  apply (getStrokeOutlinePoints_near_samples (mkPoint 0 0 0.5 0 0 0)
           [mkPoint 4 0 0.5 PI 4 4; mkPoint 0 0 0.5 0 4 8] noOptions 0 4 0 0).
  - cbn [default noOptions optSize]. lra.
  - repeat constructor; cbn [pos fst snd ptX ptY]; lra.
Defined.

(** ** The size of an outline *)

Lemma dot_or_general (first : StrokePoint) (rest : list StrokePoint) (size : R) :
  (rest = [] \/ ptLength (last rest first) <= size / 4) \/
  (rest <> [] /\ size / 4 < ptLength (last rest first)).
Proof.
  destruct rest as [|p rest]; [left; now left|].
  destruct (Rle_dec (ptLength (last (p :: rest) first)) (size / 4)).
  - left; now right.
  - right. split; [discriminate | lra].
Qed.

Section EndCapRadius.

Variables (size thinning smoothing : R).
Variable simulatePressure : bool.
Variable easing : R -> R.
Variable points : list StrokePoint.
Hypothesis size_nonneg : 0 <= size.

(** Steps 3 and 4 of the loop body leave the radius alone. *)
Lemma traceCorner_radius (x y pressure angle : R) (next : StrokePoint)
    (s s' : Tracer.state) :
  traceCorner size smoothing x y pressure angle (Some next) s = Ok s' ->
  Tracer.r s' = Tracer.r s.
Proof.
  unfold traceCorner. cbn [defined bind].
  destruct s as [lp rp pl pr tl tr pa pp r short].
  destruct (gtR (Rabs (getAngleDelta (ptAngle next) angle)) SHARP).
  - rewrite forT_quarter by (unfold capFuel; lia).
    rewrite (fold_cap_both
               (fun pa r t => projectPoint (x, y) (pa - TAU + t * - PI) r)
               (fun pa r t => projectPoint (x, y) (pa + TAU + t * PI) r)).
    intros H; injection H as <-. reflexivity.
  - tracer_simpl.
    destruct (gtR _ DULL || gtR (getDistance _ tl) _); tracer_simpl;
      destruct (gtR _ DULL || gtR (getDistance _ tr) _); tracer_simpl;
      intros H; injection H as <-; reflexivity.
Qed.

(** A turn of the loop keeps the radius between 0 and [size / 2]. *)
Lemma traceSample_radius_range (cur next : StrokePoint)
    (s s' : Tracer.state) :
  0 <= Tracer.r s <= size / 2 ->
  traceSample size thinning smoothing simulatePressure easing points
              cur (Some next) s = Ok s' ->
  0 <= Tracer.r s' <= size / 2.
Proof.
  intros Hs. destruct cur as [x y pressure angle distance clen].
  unfold traceSample.
  set (pressure' := if truthy thinning then _ else pressure).
  set (s1 := if truthy thinning then _ else s).
  assert (Hs1 : 0 <= Tracer.r s1 <= size / 2).
  { subst s1. destruct (truthy thinning); [|assumption].
    pose proof (getStrokeRadius_range_bounds size thinning easing
                  (Some pressure') size_nonneg).
    destruct s. cbn [setR Tracer.r]. lra. }
  clearbody s1 pressure'.
  destruct s1 as [lp rp pl pr tl tr pa pp r short].
  cbn [Tracer.short Tracer.r] in *. destruct short.
  - destruct (ltR clen (size / 4));
      [intros H; injection H as <-; exact Hs1|].
    destruct (index points 0) as [first|]; [|discriminate].
    cbn [defined bind].
    rewrite forT_tenth by (unfold capFuel; lia). cbn [bind].
    rewrite (fold_cap_left
               (fun r t => projectPoint (pos first) (angle + TAU - t * PI) r)).
    tracer_simpl. intros H. apply traceCorner_radius in H.
    rewrite H. exact Hs1.
  - intros H. apply traceCorner_radius in H. rewrite H. exact Hs1.
Qed.

End EndCapRadius.

(** X12.  For a positive size, the outline of a non-empty sequence has at
    least 11 points.  In the general branch (more than one point, last
    cumulative length above [size / 4]) it is, in this order, the left
    rib as the loop over the interior samples leaves it, the 11 points of
    the end cap in reverse, and the right rib as the loop leaves it, in
    reverse.  The end cap is swept around the last sample at the radius
    the loop leaves, which lies between 0 and [size / 2]: every point of
    the cap is at that distance from the last sample. *)
Theorem getStrokeOutlinePoints_end_cap :
  forall (first : StrokePoint) (rest : list StrokePoint)
         (options : StrokeOptions),
    0 < default 8 (optSize options) ->
    exists outline : list Vec,
      getStrokeOutlinePoints (first :: rest) options = Ok outline /\
      (11 <= length outline)%nat /\
      (rest <> [] ->
       default 8 (optSize options) / 4 < ptLength (last rest first) ->
       exists final : Tracer.state,
         traceLoop (default 8 (optSize options))
                   (default 0.5 (optThinning options))
                   (default 0.5 (optSmoothing options))
                   (default true (optSimulatePressure options))
                   (default (fun t => t) (optEasing options))
                   (first :: rest) (length (first :: rest)) 1
                   (startState (default 8 (optSize options)) first) =
         Ok final /\
         outline =
           Tracer.leftPts final ++
           rev (endCap (last rest first) (Tracer.r final)) ++
           rev (Tracer.rightPts final) /\
         0 <= Tracer.r final <= default 8 (optSize options) / 2 /\
         Forall (fun q => getDistance q (pos (last rest first)) =
                          Tracer.r final)
                (endCap (last rest first) (Tracer.r final))).
Proof.
  intros first rest options Hsize.
  destruct (dot_or_general first rest (default 8 (optSize options)))
    as [Hdot | [Hrest Hlen]].
  - eexists. split; [apply (getStrokeOutlinePoints_dot first rest options Hdot)|].
    split.
    + unfold dotOutline. rewrite length_app, !length_map. cbn [length tenths]. lia.
    + intros Hrest Hlen. destruct Hdot as [-> | Hle]; [contradiction | lra].
  - destruct (getStrokeOutlinePoints_general first rest options Hrest Hlen)
      as [final [Hfinal Hout]].
    eexists. split; [exact Hout|].
    rewrite rev_app_distr. split.
    + rewrite !length_app, length_rev. unfold endCap.
      rewrite length_map. cbn [length tenths]. lia.
    + intros _ _. exists final. split; [exact Hfinal|].
      split; [reflexivity|].
      assert (Hr : 0 <= Tracer.r final <= default 8 (optSize options) / 2).
      { eapply (traceLoop_invariant (default 8 (optSize options)) _ _ _ _
                  (first :: rest)
                  (fun s => 0 <= Tracer.r s <= default 8 (optSize options) / 2));
          [| | | exact Hfinal].
        - intros cur next s s' _ _ Hs Hstep.
          eapply traceSample_radius_range; [lra | exact Hs | exact Hstep].
        - lia.
        - unfold startState. cbn [Tracer.r]. lra. }
      split; [exact Hr|].
      unfold endCap. apply Forall_map, Forall_forall. intros t _.
      rewrite projectPoint_distance, Rabs_pos_eq; lra.
Qed.

(** ** Streamline 1 *)

Lemma getDistance_same (p : Vec) : getDistance p p = 0.
Proof.
  rewrite getDistance_norm.
  replace ((fst p - fst p)² + (snd p - snd p)²) with 0 by (unfold Rsqr; ring).
  apply sqrt_0.
Qed.

Lemma resample_streamline_one_still (rest : list Sample) :
  forall prev,
    Forall (fun p => pos p = pos prev /\ ptLength p = ptLength prev)
           (resample 1 prev rest).
Proof.
  induction rest as [|c rest IH]; intros prev; cbn [resample].
  - constructor.
  - rewrite !lerp_zero. fold (pos prev). rewrite getDistance_same.
    constructor.
    + split; [reflexivity | cbn [ptLength]; lra].
    + eapply Forall_impl; [|apply IH].
      cbv beta; intros p [Hp Hl]. rewrite Hp, Hl. split; [reflexivity|].
      cbn [ptLength]. lra.
Qed.

(** X13.  With [streamline = 1] and a non-negative size every stroke is
    drawn as a dot on its first point, however many points it has and
    wherever they are: the resampled positions all collapse to the first
    one, the total length is 0, and the outline is 22 points at one
    distance, at most [size / 2], from the first input position. *)
Theorem getStroke_streamline_one :
  forall (p0 : RawPoint) (rest : list RawPoint) (options : StrokeOptions),
    optStreamline options = Some 1 ->
    0 <= default 8 (optSize options) ->
    exists (outline : list Vec) (radius : R),
      getStroke (p0 :: rest) options = Ok outline /\
      length outline = 22%nat /\
      0 <= radius <= default 8 (optSize options) / 2 /\
      Forall (fun q => getDistance q (rawPos p0) = radius) outline.
Proof.
  intros p0 rest options Hstream Hsize.
  unfold getStroke. rewrite Hstream.
  unfold getStrokePoints; cbn [default toPointsArray map].
  set (c := match p0 with ArrayPoint _ _ _ => _ | ObjectPoint _ _ _ => _ end).
  assert (Hc : (sampleX c, sampleY c) = rawPos p0)
    by (subst c; destruct p0; reflexivity).
  set (first := mkPoint (sampleX c) (sampleY c) _ 0 0 0).
  set (more := resample 1 first _).
  assert (Hlast : pos (last more first) = pos first /\
                  ptLength (last more first) = ptLength first).
  { apply (last_Forall (fun p => pos p = pos first /\
                                 ptLength p = ptLength first));
      [apply resample_streamline_one_still | split; reflexivity]. }
  destruct Hlast as [Hpos Hlen].
  pose proof (dotRadius_range options (ptPressure (last more first)) Hsize)
    as Hr.
  eexists. exists (dotRadius options (ptPressure (last more first))).
  split.
  - apply getStrokeOutlinePoints_dot. right. rewrite Hlen.
    cbn [first ptLength]. lra.
  - split; [|split; [exact Hr|]].
    + unfold dotOutline. rewrite length_app, !length_map. reflexivity.
    + unfold dotOutline. rewrite Hpos. rewrite <- Hc.
      change (sampleX c, sampleY c) with (pos first).
      apply Forall_app; split; apply Forall_map, Forall_forall; intros t _;
        rewrite projectPoint_distance, Rabs_pos_eq; lra.
Qed.

Lemma getStroke_streamline_one_witness :
  exists (outline : list Vec) (radius : R),
    getStroke [ArrayPoint 0 0 None; ArrayPoint 100 0 None; ArrayPoint 100 100 None]
              (mkOptions None None None (Some 1) None None) = Ok outline /\
    length outline = 22%nat /\
    0 <= radius <= 8 / 2 /\
    Forall (fun q => getDistance q (0, 0) = radius) outline.
Proof.
  apply (getStroke_streamline_one (ArrayPoint 0 0 None)
           [ArrayPoint 100 0 None; ArrayPoint 100 100 None]
           (mkOptions None None None (Some 1) None None)).
  - reflexivity.
  - cbn [default optSize]. lra.
Defined.

(** ** Two runs of the tracer side by side *)



Lemma last_map {A B : Type} (f : A -> B) (l : list A) :
  forall d, last (map f l) (f d) = f (last l d).
Proof.
  induction l as [|a l IH]; intros d; [reflexivity|].
  cbn [map]. rewrite !last_cons. apply IH.
Qed.

Section TraceLoopCommute.

Variables (size thinning smoothing : R).
Variable simulatePressure : bool.
Variable easing : R -> R.
Variables points points' : list StrokePoint.
Variable f : Tracer.state -> Tracer.state.

Hypothesis same_length : length points' = length points.

Hypothesis sample_commutes :
  forall (i : Z) (cur next cur' next' : StrokePoint) (s : Tracer.state),
    index points i = Some cur -> index points (i + 1) = Some next ->
    index points' i = Some cur' -> index points' (i + 1) = Some next' ->
    traceSample size thinning smoothing simulatePressure easing points'
                cur' (Some next') (f s) =
    outcomeMap f (traceSample size thinning smoothing simulatePressure easing
                              points cur (Some next) s).

(** When each turn on [points'] does to [f s] what the turn on [points]
    does to [s], so do the loops. *)
Lemma traceLoop_commute (fuel : nat) :
  forall (i : Z) (s : Tracer.state),
    (0 <= i)%Z ->
    traceLoop size thinning smoothing simulatePressure easing points'
              fuel i (f s) =
    outcomeMap f (traceLoop size thinning smoothing simulatePressure easing
                            points fuel i s).
Proof.
  induction fuel as [|fuel IH]; intros i s Hi; cbn [traceLoop];
    [reflexivity|].
  rewrite same_length.
  destruct (Z.ltb_spec i (Z.of_nat (length points) - 1)) as [Hlt|Hge];
    [|reflexivity].
  destruct (index_in_range points i ltac:(lia)) as [cur Hcur].
  destruct (index_in_range points (i + 1) ltac:(lia)) as [next Hnext].
  destruct (index_in_range points' i ltac:(lia)) as [cur' Hcur'].
  destruct (index_in_range points' (i + 1) ltac:(lia)) as [next' Hnext'].
  rewrite Hcur, Hnext, Hcur', Hnext'. cbn [defined bind].
  rewrite (sample_commutes i cur next cur' next' s Hcur Hnext Hcur' Hnext').
  destruct (traceSample size thinning smoothing simulatePressure easing
              points cur (Some next) s) as [s1| | |]; cbn [outcomeMap bind];
    try reflexivity.
  apply IH. lia.
Qed.

End TraceLoopCommute.

(** ** Translation *)

Section Translation.

Variables dx dy : R.





















End Translation.


(** ** Reported pressures under simulated pressure *)

Lemma outcomeMap_id {A : Type} (o : outcome A) : outcomeMap (fun a => a) o = o.
Proof. destruct o; reflexivity. Qed.

Lemma truthy_false (v : R) : truthy v = false -> v = 0.
Proof. unfold truthy; destruct (Req_dec_T v 0); [auto | discriminate]. Qed.

Lemma samePath_pos (p q : StrokePoint) : samePath p q -> pos p = pos q.
Proof. intros [Hx [Hy _]]. unfold pos. now rewrite Hx, Hy. Qed.

Lemma Forall2_last {A B : Type} (P : A -> B -> Prop) (l : list A) (l' : list B) :
  Forall2 P l l' -> forall d d', P d d' -> P (last l d) (last l' d').
Proof.
  induction 1 as [|a b l l' Hab _ IH]; intros d d' Hd; [exact Hd|].
  rewrite !last_cons. now apply IH.
Qed.

Lemma index_Forall2 {A B : Type} (P : A -> B -> Prop) (l : list A) (l' : list B)
    (i : Z) (a : A) (b : B) :
  Forall2 P l l' -> index l i = Some a -> index l' i = Some b -> P a b.
Proof.
  unfold index. destruct (i <? 0)%Z; [discriminate|].
  generalize (Z.to_nat i). intros n H. revert n.
  induction H as [|x y l l' Hxy _ IH]; intros [|n] Ha Hb; cbn in *;
    try discriminate.
  - injection Ha as <-. injection Hb as <-. exact Hxy.
  - eapply IH; eassumption.
Qed.

Lemma traceCorner_next_angle (size smoothing x y pressure angle : R)
    (next next' : StrokePoint) (s : Tracer.state) :
  ptAngle next = ptAngle next' ->
  traceCorner size smoothing x y pressure angle (Some next') s =
  traceCorner size smoothing x y pressure angle (Some next) s.
Proof. intros H. unfold traceCorner. cbn [defined bind]. now rewrite H. Qed.

(** With simulated pressure and a truthy thinning a turn of the loop reads
    no reported pressure. *)
Lemma traceSample_simulated (size thinning smoothing : R) (easing : R -> R)
    (points points' : list StrokePoint) (first first' : StrokePoint)
    (cur cur' next next' : StrokePoint) (s : Tracer.state) :
  truthy thinning = true ->
  index points 0 = Some first -> index points' 0 = Some first' ->
  samePath first first' -> samePath cur cur' -> samePath next next' ->
  traceSample size thinning smoothing true easing points'
              cur' (Some next') s =
  traceSample size thinning smoothing true easing points cur (Some next) s.
Proof.
  intros Hthin Hfirst Hfirst' Hf Hc Hn.
  apply samePath_pos in Hf.
  destruct Hn as [_ [_ [Hangle _]]].
  destruct cur as [x y pressure angle distance clen].
  destruct cur' as [x' y' pressure' angle' distance' clen'].
  destruct Hc as [Hx [Hy [Ha [Hd Hl]]]]. cbn in Hx, Hy, Ha, Hd, Hl. subst.
  unfold traceSample. rewrite Hthin, Hfirst, Hfirst'. cbn [defined bind].
  rewrite <- Hf.
  destruct (Tracer.short _).
  - destruct (ltR clen' (size / 4)); [reflexivity|].
    destruct (forT capFuel 0.1 0 _ _) as [s2| | |]; cbn [bind];
      try reflexivity.
    now apply traceCorner_next_angle.
  - now apply traceCorner_next_angle.
Qed.

Lemma plainSample_samePath (radius size smoothing : R) (origin : Vec)
    (cur cur' next next' : StrokePoint) (s : Plain.state) :
  samePath cur cur' -> samePath next next' ->
  plainSample radius size smoothing origin cur' next' s =
  plainSample radius size smoothing origin cur next s.
Proof.
  intros Hc [_ [_ [Hangle _]]].
  destruct cur as [x y pressure angle distance clen].
  destruct cur' as [x' y' pressure' angle' distance' clen'].
  destruct Hc as [Hx [Hy [Ha [Hd Hl]]]]. cbn in Hx, Hy, Ha, Hd, Hl. subst.
  unfold plainSample, plainCorner, pos. cbn [ptX ptY ptAngle ptLength].
  rewrite Hangle. reflexivity.
Qed.

Lemma plainLoop_samePath (radius size smoothing : R) (origin : Vec)
    (l l' : list StrokePoint) :
  Forall2 samePath l l' ->
  forall s,
    plainLoop radius size smoothing origin l' s =
    plainLoop radius size smoothing origin l s.
Proof.
  induction 1 as [|cur cur' l l' Hc Hl IH]; intros s; [reflexivity|].
  cbn [plainLoop]. destruct Hl as [|next next' l l' Hn Hl]; [reflexivity|].
  rewrite (plainSample_samePath _ _ _ _ cur cur' next next' s Hc Hn).
  apply IH.
Qed.

Lemma outlineAtRadius_samePath (radius size smoothing : R)
    (first first' : StrokePoint) (rest rest' : list StrokePoint) :
  samePath first first' -> Forall2 samePath rest rest' ->
  outlineAtRadius radius size smoothing first' rest' =
  outlineAtRadius radius size smoothing first rest.
Proof.
  intros Hf Hrest.
  pose proof (Forall2_last samePath rest rest' Hrest first first' Hf) as Hlast.
  pose proof (samePath_pos _ _ Hf) as Hfpos.
  pose proof (samePath_pos _ _ Hlast) as Hlpos.
  destruct Hlast as [_ [_ [Hla [_ Hll]]]].
  destruct Hf as [_ [_ [Hfa _]]].
  unfold outlineAtRadius.
  rewrite <- Hfpos, <- Hlpos, <- Hla, <- Hll, <- Hfa.
  rewrite (plainLoop_samePath radius size smoothing (pos first) rest rest' Hrest).
  destruct Hrest; reflexivity.
Qed.

Lemma getStrokeOutlinePoints_simulated
    (first first' : StrokePoint) (rest rest' : list StrokePoint)
    (options : StrokeOptions) :
  default true (optSimulatePressure options) = true ->
  Forall2 samePath (first :: rest) (first' :: rest') ->
  ptPressure (last rest first) = ptPressure (last rest' first') ->
  getStrokeOutlinePoints (first' :: rest') options =
  getStrokeOutlinePoints (first :: rest) options.
Proof.
  intros Hsim Hall Hpress.
  inversion Hall as [|a b l l' Hf Hrest]; subst.
  pose proof (Forall2_last samePath rest rest' Hrest first first' Hf) as Hlast.
  destruct (truthy (default 0.5 (optThinning options))) eqn:Hthin.
  - pose proof (samePath_pos _ _ Hf) as Hfpos.
    pose proof (samePath_pos _ _ Hlast) as Hlpos.
    assert (Hlen : ptLength (last rest' first') = ptLength (last rest first))
      by (destruct Hlast as [_ [_ [_ [_ H]]]]; now rewrite H).
    assert (Hang : ptAngle (last rest' first') = ptAngle (last rest first))
      by (destruct Hlast as [_ [_ [H _]]]; now rewrite H).
    destruct (dot_or_general first rest (default 8 (optSize options)))
      as [Hdot | [Hnil Hlong]].
    + rewrite (getStrokeOutlinePoints_dot first rest options Hdot).
      rewrite getStrokeOutlinePoints_dot.
      * unfold dotOutline. now rewrite <- Hfpos, <- Hlpos, <- Hpress.
      * rewrite Hlen. destruct Hdot as [-> | Hle]; [|now right].
        left. now inversion Hrest.
    + destruct (getStrokeOutlinePoints_general first rest options Hnil Hlong)
        as [s1 [Hs1 Hout]].
      destruct (getStrokeOutlinePoints_general first' rest' options)
        as [s1' [Hs1' Hout']].
      * intros ->. inversion Hrest; subst. contradiction.
      * now rewrite Hlen.
      * rewrite Hout, Hout'.
        assert (Hstart : startState (default 8 (optSize options)) first' =
                         startState (default 8 (optSize options)) first).
        { unfold startState. rewrite <- Hfpos.
          destruct Hf as [_ [_ [Ha _]]]. now rewrite Ha. }
        rewrite Hstart in Hs1'.
        rewrite <- (Forall2_length Hall) in Hs1'.
        rewrite Hsim in Hs1, Hs1'.
        rewrite (traceLoop_commute _ _ _ _ _ (first :: rest) (first' :: rest')
                   (fun s => s)) in Hs1'.
        -- rewrite outcomeMap_id, Hs1 in Hs1'. injection Hs1' as <-.
           unfold endCap. now rewrite <- Hlpos, Hang.
        -- symmetry. exact (Forall2_length Hall).
        -- intros i cur next cur' next' s Hcur Hnext Hcur' Hnext'.
           rewrite outcomeMap_id.
           apply (traceSample_simulated _ _ _ _ (first :: rest) (first' :: rest')
                    first first'); try reflexivity; try assumption.
           ++ exact (index_Forall2 samePath _ _ i cur cur' Hall Hcur Hcur').
           ++ exact (index_Forall2 samePath _ _ (i + 1) next next' Hall
                       Hnext Hnext').
        -- lia.
  - apply truthy_false in Hthin.
    assert (Hzero : optThinning options = Some 0).
    { destruct (optThinning options) as [t|]; cbn [default] in Hthin.
      - now subst.
      - lra. }
    rewrite !getStrokeOutlinePoints_thinning_zero by exact Hzero.
    f_equal. now apply outlineAtRadius_samePath.
Qed.

(** X15.  With [simulatePressure] on (the default) the reported pressures
    do not reach the outline, except the pressure of the last point when
    the stroke is drawn as a dot: two sequences that agree in position,
    angle, distance and cumulative length, and in the pressure of their
    last point, have the same outline under the same options. *)
Theorem getStrokeOutlinePoints_ignores_pressure :
  forall (first first' : StrokePoint) (rest rest' : list StrokePoint)
         (options : StrokeOptions),
    default true (optSimulatePressure options) = true ->
    Forall2 samePath (first :: rest) (first' :: rest') ->
    ptPressure (last rest first) = ptPressure (last rest' first') ->
    getStrokeOutlinePoints (first' :: rest') options =
    getStrokeOutlinePoints (first :: rest) options.
Proof. exact getStrokeOutlinePoints_simulated. Qed.

Lemma getStrokeOutlinePoints_ignores_pressure_witness :
  getStrokeOutlinePoints
    [mkPoint 0 0 1 0 0 0; mkPoint 5 0 0 PI 5 5; mkPoint 10 0 0.5 PI 5 10]
    noOptions =
  getStrokeOutlinePoints
    [mkPoint 0 0 0.5 0 0 0; mkPoint 5 0 0.5 PI 5 5; mkPoint 10 0 0.5 PI 5 10]
    noOptions.
Proof.
  apply (getStrokeOutlinePoints_ignores_pressure
           (mkPoint 0 0 0.5 0 0 0) (mkPoint 0 0 1 0 0 0)
           [mkPoint 5 0 0.5 PI 5 5; mkPoint 10 0 0.5 PI 5 10]
           [mkPoint 5 0 0 PI 5 5; mkPoint 10 0 0.5 PI 5 10] noOptions).
  - reflexivity.
  - repeat constructor.
  - reflexivity.
Defined.

(** ** getSvgPathFromStroke *)

Lemma svgLoop_curveTail (stroke : list Vec) (l : list Vec) :
  forall (pre : list Vec) (fuel : nat) (d : list PathItem) (p0 p1 : Vec),
    stroke = pre ++ l ->
    (length l < fuel)%nat ->
    svgLoop stroke fuel (Z.of_nat (length pre)) d p0 (Some p1) =
    Ok (d ++ curveTail p0 p1 l).
Proof.
  induction l as [|x l IH]; intros pre fuel d p0 p1 Hs Hfuel;
    (destruct fuel as [|fuel]; [cbn [length] in Hfuel; lia|]);
    cbn [svgLoop curveTail].
  - replace (Z.of_nat (length pre) <? Z.of_nat (length stroke))%Z with false
      by (symmetry; apply Z.ltb_ge; rewrite Hs, length_app; cbn [length]; lia).
    now rewrite app_nil_r.
  - replace (Z.of_nat (length pre) <? Z.of_nat (length stroke))%Z with true
      by (symmetry; apply Z.ltb_lt; rewrite Hs, length_app; cbn [length]; lia).
    cbn [defined bind].
    assert (Hx : index stroke (Z.of_nat (length pre)) = Some x)
      by (rewrite Hs; apply index_app_head).
    rewrite Hx.
    replace (Z.of_nat (length pre) + 1)%Z
      with (Z.of_nat (length (pre ++ [x])))
      by (rewrite length_app; cbn [length]; lia).
    rewrite (IH (pre ++ [x]) fuel).
    + now rewrite <- app_assoc.
    + rewrite Hs, <- app_assoc. reflexivity.
    + cbn [length] in Hfuel. lia.
Qed.

Lemma curveTail_length (rest : list Vec) :
  forall p0 p1, length (curveTail p0 p1 rest) = (4 * length rest)%nat.
Proof.
  induction rest as [|x rest IH]; intros p0 p1; cbn [curveTail length].
  - reflexivity.
  - rewrite length_app, IH. cbn [curveItems length]. lia.
Qed.

Lemma curveTail_ignores_last (mid : list Vec) :
  forall (p0 p1 a b : Vec),
    curveTail p0 p1 (mid ++ [a]) = curveTail p0 p1 (mid ++ [b]).
Proof.
  induction mid as [|x mid IH]; intros p0 p1 a b; cbn [app curveTail].
  - reflexivity.
  - now rewrite (IH p1 x a b).
Qed.

(** The array [d] for a stroke with a first point. *)
Lemma svgPathItems_cons (s0 : Vec) (rest : list Vec) :
  svgPathItems (s0 :: rest) =
  Ok ([Command "M"%string; Number (fst s0); Number (snd s0);
       Command "Q"%string] ++
      match rest with
      | [] => []
      | s1 :: _ => curveTail s0 s1 rest
      end ++ [Command "Z"%string]).
Proof.
  unfold svgPathItems.
  change (index (s0 :: rest) 0) with (Some s0). cbn [defined bind].
  destruct rest as [|s1 rest].
  - cbn [length svgLoop]. change (1 <? Z.of_nat 1)%Z with false.
    cbn [bind]. reflexivity.
  - change (index (s0 :: s1 :: rest) 1) with (Some s1).
    rewrite (svgLoop_curveTail (s0 :: s1 :: rest) (s1 :: rest) [s0]
               (length (s0 :: s1 :: rest)) _ s0 s1 eq_refl
               ltac:(cbn [length]; lia)).
    cbn [bind]. now rewrite <- app_assoc.
Qed.

(** X16.  [getSvgPathFromStroke] gives the empty string for the empty
    stroke and never throws, not even on a single point, where [p1] is
    undefined.  For a stroke of [n] points with [n] at least 1 the joined
    array is M, the first point, Q, four numbers for each further point,
    and Z: [4 * n + 1] items. *)
Theorem getSvgPathFromStroke_items :
  forall (showNumber : R -> string),
    getSvgPathFromStroke showNumber [] = Ok ""%string /\
    forall (s0 : Vec) (rest : list Vec),
    exists body : list PathItem,
      length body = (4 * length rest)%nat /\
      svgPathItems (s0 :: rest) =
      Ok ([Command "M"%string; Number (fst s0); Number (snd s0);
           Command "Q"%string] ++ body ++ [Command "Z"%string]) /\
      getSvgPathFromStroke showNumber (s0 :: rest) =
      Ok (String.concat " "%string
            (map (showItem showNumber)
                 ([Command "M"%string; Number (fst s0); Number (snd s0);
                   Command "Q"%string] ++ body ++ [Command "Z"%string]))).
Proof.
  intros showNumber. split; [reflexivity|].
  intros s0 rest.
  exists (match rest with [] => [] | s1 :: _ => curveTail s0 s1 rest end).
  split; [|split].
  - destruct rest as [|s1 rest]; [reflexivity | apply curveTail_length].
  - apply svgPathItems_cons.
  - unfold getSvgPathFromStroke.
    replace (Z.of_nat (length (s0 :: rest)) =? 0)%Z with false
      by (symmetry; apply Z.eqb_neq; cbn [length]; lia).
    rewrite svgPathItems_cons. reflexivity.
Qed.

(** X17.  For a stroke of three points or more the path does not depend
    on the last point: the loop reads it into [p1] in its last turn and
    pushes nothing after that.  The second point, read twice, is pushed
    as a curve from itself to itself. *)
Theorem getSvgPathFromStroke_ignores_last :
  forall (showNumber : R -> string) (s0 s1 : Vec) (mid : list Vec)
         (a b : Vec),
    svgPathItems (s0 :: s1 :: mid ++ [a]) =
    svgPathItems (s0 :: s1 :: mid ++ [b]) /\
    getSvgPathFromStroke showNumber (s0 :: s1 :: mid ++ [a]) =
    getSvgPathFromStroke showNumber (s0 :: s1 :: mid ++ [b]) /\
    exists tail : list PathItem,
      svgPathItems (s0 :: s1 :: mid ++ [a]) =
      Ok ([Command "M"%string; Number (fst s0); Number (snd s0);
           Command "Q"%string] ++
          curveItems s0 s1 ++ curveItems s1 s1 ++ tail ++ [Command "Z"%string]).
Proof.
  intros showNumber s0 s1 mid a b.
  assert (Hitems : svgPathItems (s0 :: s1 :: mid ++ [a]) =
                   svgPathItems (s0 :: s1 :: mid ++ [b])).
  { rewrite !svgPathItems_cons.
    change (s1 :: mid ++ [a]) with ((s1 :: mid) ++ [a]).
    change (s1 :: mid ++ [b]) with ((s1 :: mid) ++ [b]).
    now rewrite (curveTail_ignores_last (s1 :: mid) s0 s1 a b). }
  split; [exact Hitems|]. split.
  - unfold getSvgPathFromStroke. rewrite Hitems.
    replace (Z.of_nat (length (s0 :: s1 :: mid ++ [a])) =? 0)%Z with false
      by (symmetry; apply Z.eqb_neq; cbn [length]; lia).
    replace (Z.of_nat (length (s0 :: s1 :: mid ++ [b])) =? 0)%Z with false
      by (symmetry; apply Z.eqb_neq; cbn [length]; lia).
    reflexivity.
  - rewrite svgPathItems_cons. cbn [curveTail].
    destruct mid as [|x mid]; cbn [app curveTail].
    + exists []. reflexivity.
    + exists (curveTail s1 x (mid ++ [a])). reflexivity.
Qed.

(** ** easings *)

(** X18.  Each of the four easing functions of the application maps 0 to
    0 and 1 to 1, keeps the interval from 0 to 1 inside itself and does
    not decrease on it. *)
Theorem easings_on_unit_interval :
  forall name : EasingName,
    easings name 0 = 0 /\ easings name 1 = 1 /\
    (forall t : R, 0 <= t <= 1 -> 0 <= easings name t <= 1) /\
    monotoneOnUnit (easings name).
Proof.
  intros name. unfold monotoneOnUnit. destruct name; cbn [easings].
  - repeat split; intros; lra.
  - repeat split; intros; nra.
  - repeat split; intros; nra.
  - repeat split.
    + destruct (Rlt_dec 0 0.5); lra.
    + destruct (Rlt_dec 1 0.5); lra.
    + destruct (Rlt_dec t 0.5); nra.
    + destruct (Rlt_dec t 0.5); nra.
    + intros a b Ha Hab Hb.
      destruct (Rlt_dec a 0.5); destruct (Rlt_dec b 0.5); nra.
Qed.

(** ** getStrokePath *)

Section PathsReturn.

Variable showNumber : R -> string.
Variable union : list (list Vec) -> option (list (list (list Vec))).

Lemma getSvgPathFromStroke_returns (stroke : list Vec) :
  exists path, getSvgPathFromStroke showNumber stroke = Ok path.
Proof.
  destruct stroke as [|s0 rest]; [eexists; reflexivity|].
  unfold getSvgPathFromStroke.
  replace (Z.of_nat (length (s0 :: rest)) =? 0)%Z with false
    by (symmetry; apply Z.eqb_neq; cbn [length]; lia).
  rewrite svgPathItems_cons. eexists; reflexivity.
Qed.

Lemma ringPaths_returns (face : list (list Vec)) :
  forall d, exists d', ringPaths showNumber face d = Ok d'.
Proof.
  induction face as [|points face IH]; intros d; cbn [ringPaths].
  - eexists; reflexivity.
  - destruct (getSvgPathFromStroke_returns points) as [path ->].
    cbn [bind]. apply IH.
Qed.

Lemma facePaths_returns (poly : list (list (list Vec))) :
  forall d, exists d', facePaths showNumber poly d = Ok d'.
Proof.
  induction poly as [|face poly IH]; intros d; cbn [facePaths].
  - eexists; reflexivity.
  - destruct (ringPaths_returns face d) as [d1 ->]. cbn [bind]. apply IH.
Qed.

(** The flat path fails when the union throws, and only then. *)
Lemma getFlatSvgPathFromStroke_outcome (stroke : list Vec) :
  match union [stroke] with
  | Some _ =>
      exists path, getFlatSvgPathFromStroke showNumber union stroke = Ok path
  | None => getFlatSvgPathFromStroke showNumber union stroke = UnionError
  end.
Proof.
  unfold getFlatSvgPathFromStroke.
  destruct (union [stroke]) as [poly|]; [|reflexivity].
  destruct (facePaths_returns poly []) as [d ->].
  eexists; reflexivity.
Qed.

Lemma getStrokePath_outcome (p0 : RawPoint) (rest : list RawPoint)
    (options : AppOptions) (type : string) :
  exists outline,
    getStroke (p0 :: rest) (strokeOptionsOf options type) = Ok outline /\
    if appClip options then
      match union [outline] with
      | Some _ =>
          exists path,
            getStrokePath showNumber union (p0 :: rest) options type = Ok path
      | None =>
          getStrokePath showNumber union (p0 :: rest) options type = UnionError
      end
    else
      getStrokePath showNumber union (p0 :: rest) options type =
      getSvgPathFromStroke showNumber outline /\
      exists path,
        getStrokePath showNumber union (p0 :: rest) options type = Ok path.
Proof.
  unfold getStrokePath, getStroke.
  destruct (getStrokePoints (p0 :: rest) _) as [|first more] eqn:Hpts;
    [apply getStrokePoints_nil_iff in Hpts; discriminate|].
  destruct (getStrokeOutlinePoints_returns first more
              (strokeOptionsOf options type)) as [outline ->].
  exists outline. split; [reflexivity|]. cbn [bind].
  destruct (appClip options).
  - apply getFlatSvgPathFromStroke_outcome.
  - split; [reflexivity|]. apply getSvgPathFromStroke_returns.
Qed.

(** A path for a mark with a point, unless the union throws while
    clipping is on. *)
Lemma getStrokePath_returns (p0 : RawPoint) (rest : list RawPoint)
    (options : AppOptions) (type : string) :
  returnsUnlessUnionFails union (appClip options)
    (getStrokePath showNumber union (p0 :: rest) options type)
    (fun _ => True).
Proof.
  destruct (getStrokePath_outcome p0 rest options type) as [outline [_ H]].
  unfold returnsUnlessUnionFails.
  destruct (appClip options).
  - destruct (union [outline]) as [poly|] eqn:Hu.
    + destruct H as [path ->]. left. now exists path.
    + right. split; [reflexivity|]. split; [now exists [outline] | exact H].
  - destruct H as [_ [path ->]]. left. now exists path.
Qed.

End PathsReturn.

(** X19.  [getStrokePath] throws on a mark without points, because
    [getStroke] does.  For a mark with at least one point [getStroke]
    returns an outline; without clipping the result is the path
    [getSvgPathFromStroke] makes of it, and there is one; with clipping
    there is a path when the union returns, whatever rings it gives
    back, and the call fails with the failure of the union, and in no
    other way, when the union throws on the outline. *)
Theorem getStrokePath_failures :
  forall (showNumber : R -> string)
         (union : list (list Vec) -> option (list (list (list Vec))))
         (points : list RawPoint) (options : AppOptions) (type : string),
    (points = [] /\
     getStrokePath showNumber union points options type = TypeError) \/
    (points <> [] /\
     exists outline,
       getStroke points (strokeOptionsOf options type) = Ok outline /\
       if appClip options then
         match union [outline] with
         | Some _ =>
             exists path,
               getStrokePath showNumber union points options type = Ok path
         | None =>
             getStrokePath showNumber union points options type = UnionError
         end
       else
         getStrokePath showNumber union points options type =
         getSvgPathFromStroke showNumber outline /\
         exists path,
           getStrokePath showNumber union points options type = Ok path).
Proof.
  intros showNumber union [|p0 rest] options type.
  - left. split; reflexivity.
  - right. split; [discriminate|]. apply getStrokePath_outcome.
Qed.

Lemma resample_samePath (k : R) (cs cs' : list Sample) :
  Forall2 (fun c c' => sampleX c = sampleX c' /\ sampleY c = sampleY c') cs cs' ->
  forall prev prev',
    samePath prev prev' ->
    Forall2 samePath (resample k prev cs) (resample k prev' cs').
Proof.
  induction 1 as [|c c' cs cs' [Hcx Hcy] _ IH]; intros prev prev' Hprev;
    cbn [resample]; [constructor|].
  destruct Hprev as [Hx [Hy [_ [_ Hl]]]].
  unfold pos. rewrite Hcx, Hcy, Hx, Hy, Hl.
  constructor.
  - repeat split.
  - apply IH. repeat split.
Qed.

Lemma getStrokePoints_samePath (points points' : list RawPoint)
    (streamline : option R) :
  Forall2 samePosition points points' ->
  Forall2 samePath (getStrokePoints points streamline)
                   (getStrokePoints points' streamline).
Proof.
  intros Hpts.
  assert (Hsamples :
    Forall2 (fun c c' => sampleX c = sampleX c' /\ sampleY c = sampleY c')
            (toPointsArray points) (toPointsArray points')).
  { induction Hpts as [|p p' l l' Hp _ IH]; cbn [toPointsArray map];
      constructor; [|exact IH].
    unfold samePosition in Hp.
    destruct p, p'; cbn in *; injection Hp as -> ->; split; reflexivity. }
  unfold getStrokePoints.
  destruct Hsamples as [|c c' cs cs' [Hcx Hcy] Hrest]; [constructor|].
  rewrite Hcx, Hcy.
  constructor; [repeat split|].
  apply resample_samePath; [exact Hrest | repeat split].
Qed.

Lemma last_map_nonempty {A B : Type} (f : A -> B) (l : list A) (d : B) (d' : A) :
  l <> [] -> last (map f l) d = f (last l d').
Proof.
  destruct l as [|a l]; [contradiction|]. intros _.
  cbn [map]. rewrite !last_cons. apply last_map.
Qed.

Lemma getStrokePoints_last_pressure (p0 : RawPoint) (rest : list RawPoint)
    (streamline : option R) (first : StrokePoint) (more : list StrokePoint) :
  getStrokePoints (p0 :: rest) streamline = first :: more ->
  ptPressure (last more first) =
  match rest with
  | [] => orElse (rawPressure p0) 0.5
  | _ :: _ => rawPressure (last rest p0)
  end.
Proof.
  unfold getStrokePoints. cbn [toPointsArray map].
  intros H; injection H as <- <-.
  rewrite <- (last_map ptPressure), resample_pressure.
  fold (toPointsArray rest). rewrite toPointsArray_pressure.
  destruct rest as [|p rest].
  - cbn [map last ptPressure]. destruct p0; reflexivity.
  - apply last_map_nonempty. discriminate.
Qed.

(** X20.  For a device that is not a pen the path of a mark does not
    depend on the pressures the device reports, except the one of the
    last point (which sets the radius while the mark is still a dot): two
    marks with the same positions and the same last pressure get the same
    path. *)
Theorem getStrokePath_ignores_pressure :
  forall (showNumber : R -> string)
         (union : list (list Vec) -> option (list (list (list Vec))))
         (p0 p0' : RawPoint) (rest rest' : list RawPoint)
         (options : AppOptions) (type : string),
    type <> "pen"%string ->
    Forall2 samePosition (p0 :: rest) (p0' :: rest') ->
    rawPressure (last rest p0) = rawPressure (last rest' p0') ->
    getStrokePath showNumber union (p0' :: rest') options type =
    getStrokePath showNumber union (p0 :: rest) options type.
Proof.
  intros showNumber union p0 p0' rest rest' options type Htype Hpos Hlast.
  unfold getStrokePath, getStroke.
  pose proof (getStrokePoints_samePath _ _
                (optStreamline (strokeOptionsOf options type)) Hpos) as Hsame.
  destruct (getStrokePoints (p0 :: rest) _) as [|first more] eqn:Hpts;
    [apply getStrokePoints_nil_iff in Hpts; discriminate|].
  destruct (getStrokePoints (p0' :: rest') _) as [|first' more'] eqn:Hpts';
    [apply getStrokePoints_nil_iff in Hpts'; discriminate|].
  rewrite (getStrokeOutlinePoints_simulated first first' more more'
             (strokeOptionsOf options type)); [reflexivity | | exact Hsame |].
  - cbn [strokeOptionsOf optSimulatePressure default].
    apply String.eqb_neq in Htype. now rewrite Htype.
  - rewrite (getStrokePoints_last_pressure _ _ _ _ _ Hpts),
      (getStrokePoints_last_pressure _ _ _ _ _ Hpts').
    inversion Hpos as [|a b l l' _ Hrest]; subst.
    destruct Hrest; cbn [last] in Hlast; [now rewrite Hlast | exact Hlast].
Qed.

Lemma getStrokePath_ignores_pressure_witness :
  getStrokePath showAsN unionAsIs
    [ObjectPoint 0 0 (Some 1); ObjectPoint 9 0 (Some 0.25)] defaultOptions
    "mouse"%string =
  getStrokePath showAsN unionAsIs
    [ObjectPoint 0 0 None; ObjectPoint 9 0 (Some 0.25)] defaultOptions
    "mouse"%string.
Proof.
  apply (getStrokePath_ignores_pressure showAsN unionAsIs
           (ObjectPoint 0 0 None) (ObjectPoint 0 0 (Some 1))
           [ObjectPoint 9 0 (Some 0.25)] [ObjectPoint 9 0 (Some 0.25)]
           defaultOptions "mouse"%string).
  - discriminate.
  - repeat constructor.
  - reflexivity.
Defined.

(** ** Drawing a mark *)

(** X21.  In a drawing session the only call that can fail is the union
    of the clipping: [beginMark] leaves a current mark of one point and
    no redo entries; with a current mark of at least one point,
    [addPointToMark] leaves a current mark that still has one (the same
    points, or one more when the pointer has the type of the mark) and
    [completeMark] appends the mark to [marks] with its points unchanged
    and leaves no current mark.  Each of them returns so, or fails with
    the failure of the union while clipping is on.  Without a current
    mark [addPointToMark] throws and [completeMark] does nothing. *)
Theorem drawing_session_outcomes :
  forall (showNumber : R -> string)
         (union : list (list Vec) -> option (list (list (list Vec))))
         (pointer : Pointer) (data : Data),
    returnsUnlessUnionFails union (appClip (alg data))
      (beginMark showNumber union pointer data)
      (fun data' =>
         exists path,
           currentMark data' =
             Some (mkMark (pointerType pointer) [pointOf pointer] path) /\
           redos data' = [] /\ marks data' = marks data) /\
    (forall current : Mark,
        currentMark data = Some current -> markPoints current <> [] ->
        returnsUnlessUnionFails union (appClip (alg data))
          (addPointToMark showNumber union pointer data)
          (fun data' =>
             exists current',
               currentMark data' = Some current' /\
               marks data' = marks data /\
               markType current' = markType current /\
               markPoints current' <> [] /\
               markPoints current' =
                 (if String.eqb (pointerType pointer) (markType current)
                  then markPoints current ++ [pointOf pointer]
                  else markPoints current)) /\
        returnsUnlessUnionFails union (appClip (alg data))
          (completeMark showNumber union data)
          (fun data' =>
             exists path,
               currentMark data' = None /\
               marks data' =
                 marks data ++
                 [mkMark (markType current) (markPoints current) path])) /\
    (currentMark data = None ->
     addPointToMark showNumber union pointer data = TypeError /\
     completeMark showNumber union data = Ok data).
Proof.
  intros showNumber union pointer
         [settings0 alg0 restore0 redos0 marks0 current0 message0].
  cbn [currentMark marks redos alg].
  split; [|split].
  - unfold beginMark.
    destruct (getStrokePath_returns showNumber union (pointOf pointer) []
                alg0 (pointerType pointer))
      as [[path [-> _]] | [Hclip [Hunion ->]]].
    + left. cbn [bind]. eexists. split; [reflexivity|].
      exists path. repeat split; reflexivity.
    + right. repeat split; assumption.
  - intros current -> Hpoints. split.
    + unfold addPointToMark. cbn [defined bind].
      destruct (String.eqb (pointerType pointer) (markType current));
        cbn [negb].
      * destruct (markPoints current) as [|p0 rest] eqn:Hp; [contradiction|].
        cbn [app].
        destruct (getStrokePath_returns showNumber union p0
                    (rest ++ [pointOf pointer]) alg0 (markType current))
          as [[path [-> _]] | [Hclip [Hunion ->]]].
        -- left. cbn [bind]. eexists. split; [reflexivity|].
           eexists. cbn [currentMark marks markType markPoints].
           repeat split; discriminate.
        -- right. repeat split; assumption.
      * left. eexists. split; [reflexivity|].
        exists current. repeat split; assumption.
    + unfold completeMark.
      destruct (markPoints current) as [|p0 rest] eqn:Hp; [contradiction|].
      destruct (getStrokePath_returns showNumber union p0 rest alg0
                  (markType current))
        as [[path [-> _]] | [Hclip [Hunion ->]]].
      * left. cbn [bind]. eexists. split; [reflexivity|].
        exists path. repeat split; reflexivity.
      * right. repeat split; assumption.
  - intros ->. split; reflexivity.
Qed.

(** A point added to a mark while clipping is on, with a union that gives
    the outline back as the only ring. *)
Lemma drawing_session_outcomes_witness :
  exists data' current',
    addPointToMark showAsN unionAsIs (mkPointer 3 4 None "mouse"%string)
      (mkData defaultSettings clipOptions [] [] []
              (Some (mkMark "mouse"%string [ObjectPoint 0 0 None] ""%string))
              None) = Ok data' /\
    currentMark data' = Some current' /\
    markPoints current' = [ObjectPoint 0 0 None; ObjectPoint 3 4 None].
Proof.
  destruct (drawing_session_outcomes showAsN unionAsIs
              (mkPointer 3 4 None "mouse"%string)
              (mkData defaultSettings clipOptions [] [] []
                 (Some (mkMark "mouse"%string [ObjectPoint 0 0 None] ""%string))
                 None)) as [_ [Hadd _]].
  destruct (Hadd (mkMark "mouse"%string [ObjectPoint 0 0 None] ""%string)
              eq_refl ltac:(discriminate))
    as [[[data' [H1 [current' [H2 [_ [_ [_ H3]]]]]]] | [_ [[rings Hu] _]]] _].
  - exists data', current'. repeat split; assumption.
  - discriminate Hu.
Defined.

(** ** Undo and redo *)

Lemma pop_app {A : Type} (l : list A) (a : A) : pop (l ++ [a]) = (l, Some a).
Proof. unfold pop. rewrite rev_app_distr. cbn [rev app]. now rewrite rev_involutive. Qed.

Lemma pop_nil {A : Type} : pop (@nil A) = ([], None).
Proof. reflexivity. Qed.

Lemma length_zero_eqb {A : Type} (l : list A) (a : A) :
  (Z.of_nat (length (l ++ [a])) =? 0)%Z = false.
Proof. apply Z.eqb_neq. rewrite length_app. cbn [length]. lia. Qed.

(** X22.  Redo takes back an undo: when there is a mark to undo,
    [undoMark] followed by [redoMark] leaves the data exactly as they
    were.  When there is none and nothing to restore, [undoMark] changes
    nothing, and [redoMark] changes nothing when there is nothing to
    redo. *)
Theorem redoMark_after_undoMark :
  forall data : Data,
    (marks data <> [] -> redoMark (undoMark data) = data) /\
    (marks data = [] -> restore data = [] -> undoMark data = data) /\
    (redos data = [] -> redoMark data = data).
Proof.
  intros [settings0 alg0 restore0 redos0 marks0 current0 message0].
  cbn [marks restore redos]. split; [|split].
  - intros Hmarks.
    destruct (exists_last Hmarks) as [before [mark ->]].
    unfold undoMark. rewrite length_zero_eqb, pop_app.
    unfold redoMark. rewrite pop_app. reflexivity.
  - intros -> ->. reflexivity.
  - intros ->. reflexivity.
Qed.

Lemma redoMark_after_undoMark_witness :
  redoMark (undoMark
    (mkData defaultSettings defaultOptions [] [] 
            [mkMark "mouse"%string [ObjectPoint 0 0 None] ""%string] None None)) =
  mkData defaultSettings defaultOptions [] []
         [mkMark "mouse"%string [ObjectPoint 0 0 None] ""%string] None None.
Proof.
  apply (proj1 (redoMark_after_undoMark
           (mkData defaultSettings defaultOptions [] []
              [mkMark "mouse"%string [ObjectPoint 0 0 None] ""%string]
              None None))).
  cbn [marks]. discriminate.
Defined.

(** X23.  The redo entries are always the ones [undoMark] makes, a single
    mark each: this holds at the start and [undoMark], [redoMark],
    [clearMarks] and [beginMark] keep it.  Under it, undo takes back a
    redo: when there is an entry to redo, [redoMark] followed by
    [undoMark] leaves the data exactly as they were. *)
Theorem undoMark_after_redoMark :
  redosFromUndo initialData /\
  forall data : Data,
    redosFromUndo data ->
    redosFromUndo (undoMark data) /\
    redosFromUndo (redoMark data) /\
    redosFromUndo (clearMarks data) /\
    (forall showNumber union pointer data',
        beginMark showNumber union pointer data = Ok data' ->
        redosFromUndo data') /\
    (redos data <> [] -> undoMark (redoMark data) = data).
Proof.
  split; [constructor|].
  intros [settings0 alg0 restore0 redos0 marks0 current0 message0].
  unfold redosFromUndo. cbn [redos]. intros Hredos.
  split; [|split; [|split; [|split]]].
  - unfold undoMark.
    destruct (Z.of_nat (length marks0) =? 0)%Z.
    + destruct (pop restore0) as [restore' [entry|]]; exact Hredos.
    + destruct (pop marks0) as [marks' [mark|]]; cbn [redos]; [|exact Hredos].
      apply Forall_app; split; [exact Hredos|].
      constructor; [now exists mark | constructor].
  - unfold redoMark.
    destruct redos0 as [|entry0 redos0]; [constructor|].
    destruct (exists_last (l := entry0 :: redos0) ltac:(discriminate))
      as [before [entry Heq]].
    rewrite Heq in *. rewrite pop_app.
    apply Forall_app in Hredos. destruct Hredos as [Hbefore _].
    destruct entry; exact Hbefore.
  - constructor.
  - intros showNumber union pointer data'. unfold beginMark.
    destruct (getStrokePath _ _ _ _ _); cbn [bind]; try discriminate.
    intros H; injection H as <-. constructor.
  - intros Hne.
    destruct (exists_last Hne) as [before [entry ->]].
    apply Forall_app in Hredos. destruct Hredos as [_ Hentry].
    inversion Hentry as [|e l [mark ->] _]; subst.
    unfold redoMark. rewrite pop_app. cbn [entryMarks].
    unfold undoMark. rewrite length_zero_eqb, pop_app. reflexivity.
Qed.

Lemma undoMark_after_redoMark_witness :
  undoMark (redoMark
    (mkData defaultSettings defaultOptions []
            [mkEntry None [mkMark "pen"%string [ObjectPoint 0 0 None] ""%string]]
            [] None None)) =
  mkData defaultSettings defaultOptions []
         [mkEntry None [mkMark "pen"%string [ObjectPoint 0 0 None] ""%string]]
         [] None None.
Proof.
  apply (proj2 undoMark_after_redoMark
           (mkData defaultSettings defaultOptions []
              [mkEntry None [mkMark "pen"%string [ObjectPoint 0 0 None]
                                    ""%string]]
              [] None None)).
  - repeat constructor. eexists; reflexivity.
  - cbn [redos]. discriminate.
Defined.

(** The end cap in the outline of the stroke (0, 0), (4, 0), (0, 0): it
    comes after the 16 points of the left rib and before the 6 of the
    right rib. *)
Lemma getStrokeOutlinePoints_end_cap_witness :
  exists (outline : list Vec) (final : Tracer.state),
    getStrokeOutlinePoints turnAtFour noOptions = Ok outline /\
    traceLoop 8 0.5 0.5 true (fun t => t) turnAtFour 3 1
      (startState 8 (mkPoint 0 0 0.5 0 0 0)) = Ok final /\
    length (Tracer.leftPts final) = 16%nat /\
    length (Tracer.rightPts final) = 6%nat /\
    outline =
      Tracer.leftPts final ++
      rev (endCap (mkPoint 0 0 0.5 0 4 8) (Tracer.r final)) ++
      rev (Tracer.rightPts final) /\
    length outline = 33%nat.
Proof.
  destruct (getStrokeOutlinePoints_end_cap (mkPoint 0 0 0.5 0 0 0)
              [mkPoint 4 0 0.5 PI 4 4; mkPoint 0 0 0.5 0 4 8] noOptions)
    as [outline [Hout [_ Hcap]]].
  - cbn [default noOptions optSize]. lra.
  - destruct Hcap as [final [Hfinal [Heq _]]].
    + discriminate.
    + cbn [default noOptions optSize last ptLength]. lra.
    + destruct turnAtFour_loop as [s' [_ [Hloop [HL HR]]]].
      cbn [default noOptions optSize optThinning optSmoothing
           optSimulatePressure optEasing last] in Hfinal, Heq.
      change (length [mkPoint 0 0 0.5 0 0 0; mkPoint 4 0 0.5 PI 4 4;
                      mkPoint 0 0 0.5 0 4 8]) with 3%nat in Hfinal.
      fold turnAtFour in Hfinal, Hout.
      assert (Hsame : s' = final) by congruence. subst s'.
      exists outline, final.
      split; [exact Hout|]. split; [exact Hfinal|].
      split; [exact HL|]. split; [exact HR|]. split; [exact Heq|].
      rewrite Heq, !length_app, !length_rev, HL, HR. unfold endCap.
      rewrite length_map. reflexivity.
Defined.

(** The easing [easeInOut] between the pressures 0.25 and 0.75. *)
Lemma easings_on_unit_interval_witness :
  easings EaseInOut 0.25 <= easings EaseInOut 0.75.
Proof.
  destruct (easings_on_unit_interval EaseInOut) as [_ [_ [_ Hmono]]].
  apply Hmono; lra.
Defined.
